(** * Devil's Dice: a shallow embedding of the game server

    The development follows the TypeScript sources:
    - the shared types ([game.types.ts], [player.types.ts]) and the scoring
      constants ([scoring.constants.ts]);
    - the scoring kernel ([hand-evaluator.ts], [set-scorer.ts],
      [turn-order.ts]);
    - the room registry ([room.service.ts]);
    - the XState machine of a room ([actions.ts], [guards.ts],
      [game.machine.ts]) and the service that validates the players' requests
      before they reach the machine ([game.service.ts], [game.gateway.ts]).

    Conventions of the embedding.
    - A JavaScript [number] that the code only uses as an integer (a die
      face, a rank, an index, a round counter) is a [Z] or a [nat].  A score
      is a double: it is kept as the rational [Q] it equals, and the
      division, the additions and the products that the code computes on
      such numbers round their exact result to the nearest double ([fl]).
    - An exception is the [Throw] branch of [Exn].
    - [Math.random] and [uuidv4] are oracles, read through a counter kept in
      the state that the actions thread.
    - [Array.prototype.sort] is a stable sort driven by the sign of the
      comparator's result, [NaN] counting as zero. *)

From Stdlib Require Import ZArith QArith Qround Qpower Lia Lqa.
From stdpp Require Import gmap strings list pretty sorting.

Open Scope Z_scope.

(** ** Exceptions *)

(** The error classes the code throws and tells apart with [instanceof]. *)
Inductive JsError : Type :=
| Error (message : string)
| GameError (code message : string)
| RoomError (code message : string).

Inductive Exn (A : Type) : Type :=
| Ok (a : A)
| Throw (e : JsError).
Arguments Ok {A} a.
Arguments Throw {A} e.

#[global] Instance exn_bind : MBind Exn := fun A B k m =>
  match m with
  | Ok a => k a
  | Throw e => Throw e
  end.

#[global] Instance exn_ret : MRet Exn := fun A a => Ok a.

Fixpoint exn_mapM {A B} (f : A -> Exn B) (l : list A) : Exn (list B) :=
  match l with
  | [] => Ok []
  | x :: l' => y ← f x; ys ← exn_mapM f l'; Ok (y :: ys)
  end.

(** ** Numbers a comparator can return, and [Array.prototype.sort] *)

Inductive JsNumber : Type :=
| Num (q : Q)
| PosInfinity
| NegInfinity
| NaN.

(** [a - b] on numbers that may be [Infinity].  A comparator's result is
    only read for its sign, and the difference of two doubles has the sign
    of their exact difference (with subnormal numbers it is zero only when
    they are equal), so that the difference is not rounded here. *)
Definition js_sub (a b : JsNumber) : JsNumber :=
  match a, b with
  | Num x, Num y => Num (x - y)
  | NaN, _ | _, NaN => NaN
  | PosInfinity, PosInfinity => NaN
  | NegInfinity, NegInfinity => NaN
  | PosInfinity, _ => PosInfinity
  | NegInfinity, _ => NegInfinity
  | Num _, PosInfinity => NegInfinity
  | Num _, NegInfinity => PosInfinity
  end.

(** The sign [sort] reads off a comparator's result ([NaN] is taken as +0). *)
Definition sortSign (v : JsNumber) : comparison :=
  match v with
  | Num q => (q ?= 0)%Q
  | PosInfinity => Gt
  | NegInfinity => Lt
  | NaN => Eq
  end.

Definition numZ (z : Z) : JsNumber := Num (inject_Z z).

(** [x < y] on scores. *)
Definition Qltb (x y : Q) : bool := negb (Qle_bool y x).

(** ** Double-precision arithmetic

    A JavaScript [number] is an IEEE 754 double.  A finite double is a
    rational; [fl q] is the double nearest to the rational [q], the one with
    an even significand when two doubles are equally near.  The doubles
    between [2^b] and [2^(b+1)] are the multiples of [2^(b-52)]; below
    [2^-1022] they are the multiples of [2^-1074].  Overflow to [Infinity]
    (beyond [2^1024]) is left out: no score comes near it. *)

(** [2 ^ e] for an exponent of either sign. *)
Definition pow2 (e : Z) : Q := (2 ^ e)%Q.

(** The binade of a positive rational: the [b] with [2^b <= a < 2^(b+1)]. *)
Definition binade (a : Q) : Z :=
  let k := Z.log2 (Qnum a) - Z.log2 (Zpos (Qden a)) in
  if Qle_bool (pow2 k) a then k else k - 1.

(** The integer nearest to [x], the even one at a tie. *)
Definition roundHalfEven (x : Q) : Z :=
  let n := Qfloor x in
  match (x - inject_Z n ?= 1 # 2)%Q with
  | Lt => n
  | Gt => n + 1
  | Eq => if Z.even n then n else n + 1
  end.

(** The exponent of the spacing of the doubles around a positive [a]. *)
Definition quantum (a : Q) : Z := Z.max (binade a - 52) (-1074).

Definition flPos (a : Q) : Q :=
  let e := quantum a in
  Qred (inject_Z (roundHalfEven (a / pow2 e)) * pow2 e).

Definition fl (q : Q) : Q :=
  match Qnum q with
  | 0 => 0%Q
  | Zpos _ => flPos q
  | Zneg _ => (- flPos (- q))%Q
  end.

(** Whether a rational is a double. *)
Definition is_double (q : Q) : bool := Qeq_bool (fl q) q.

(** [a / b] and [a * b] on doubles. *)
Definition js_div (a b : Q) : Q := fl (a / b).

Definition js_mul (a b : Q) : Q := fl (a * b).

(** [a + b] on doubles.  A rational that is not a double stands for no
    number of the program; such operands are added as they are. *)
Definition js_add (a b : Q) : Q :=
  if is_double a && is_double b then fl (a + b) else (a + b)%Q.

Section JsSort.
Context {A : Type} (cmp : A -> A -> JsNumber).

Fixpoint js_insert (x : A) (l : list A) : list A :=
  match l with
  | [] => [x]
  | y :: l' =>
      match sortSign (cmp x y) with
      | Gt => y :: js_insert x l'
      | _ => x :: l
      end
  end.

(** A stable sort: an element moves behind exactly those it is strictly
    greater than. *)
Definition js_sort (l : list A) : list A := foldr js_insert [] l.

(** [x] may stand before [y]. *)
Definition sort_le (x y : A) : Prop := sortSign (cmp x y) <> Gt.
End JsSort.

(** ** Shared types ([game.types.ts], [player.types.ts]) *)

Inductive DieColor := WHITE | RED | BLUE.

Record Die := mkDie {
  die_id : string;
  color : DieColor;
  value : Z;
  isSpent : bool;
  isRevealed : bool
}.

Inductive PredictionType := ZERO | MIN | MORE | MAX.

Inductive HandRank := SINGLE | DOUBLE | STRAIGHT | TRIPLE.

(** The numeric values of the [HandRank] enum. *)
Definition rankValue (r : HandRank) : Z :=
  match r with
  | SINGLE => 1
  | DOUBLE => 2
  | STRAIGHT => 3
  | TRIPLE => 4
  end.

Record EvaluatedHand := mkHand {
  rank : HandRank;
  primaryValue : Z;
  secondaryValue : Z;
  tertiaryValue : Z;
  description : string
}.

Record SetResult := mkSetResult {
  sr_playerId : string;
  sr_hand : EvaluatedHand;
  diceUsed : list string;
  diceValues : list Die;
  placement : nat;
  pointsEarned : Q
}.

Inductive GamePhase :=
| LOBBY | INITIAL_ROLL | PREDICTION | SET_SELECTION
| SET_REVEAL | ROUND_SUMMARY | GAME_OVER.

Record GameConfig := mkConfig {
  maxPlayers : Z;
  totalRounds : Z;
  turnTimerSeconds : Z
}.

Record PredictionResult := mkPredictionResult {
  pr_playerId : string;
  pr_type : PredictionType;
  correct : bool;
  bonus : Q
}.

Record RoundResult := mkRoundResult {
  roundNumber : Z;
  set1Results : list SetResult;
  set2Results : list SetResult;
  predictions : list PredictionResult
}.

Record Player := mkPlayer {
  player_id : string;
  name : string;
  socketId : string;
  dice : list Die;
  cumulativeScore : Q;
  currentRoundScore : Q;
  set1Score : Q;
  set2Score : Q;
  prediction : option PredictionType;
  isConnected : bool;
  isReady : bool;
  isHost : bool
}.

Record RollResult := mkRoll {
  roll_playerId : string;
  roll : Z
}.

Record GameState := mkGameState {
  roomCode : string;
  phase : GamePhase;
  players : list Player;
  config : GameConfig;
  currentRound : Z;
  currentSet : Z;
  turnOrder : list string;
  currentTurnIndex : nat;
  pendingSelections : gmap string (list string);
  setResults : list SetResult;
  roundHistory : list RoundResult;
  initialRollResults : list RollResult;
  hostId : string;
  createdAt : Z
}.

#[global] Instance DieColor_eq_dec : EqDecision DieColor.
Proof. solve_decision. Defined.
#[global] Instance PredictionType_eq_dec : EqDecision PredictionType.
Proof. solve_decision. Defined.
#[global] Instance HandRank_eq_dec : EqDecision HandRank.
Proof. solve_decision. Defined.
#[global] Instance GamePhase_eq_dec : EqDecision GamePhase.
Proof. solve_decision. Defined.

(** ** Hand evaluation ([hand-evaluator.ts]) *)

Definition evaluateHand (dice : list Die) : Exn EvaluatedHand :=
  if negb (length dice =? 3)%nat then
    Throw (Error "Hand must contain exactly 3 dice")
  else
    let values := js_sort (fun a b => numZ (a - b)) (map value dice) in
    let low := nth 0 values 0 in
    let mid := nth 1 values 0 in
    let high := nth 2 values 0 in
    if (low =? mid) && (mid =? high) then
      Ok {| rank := TRIPLE; primaryValue := high;
            secondaryValue := 0; tertiaryValue := 0;
            description := "Triple " +:+ pretty high +:+ "s" |}
    else if (mid =? low + 1) && (high =? mid + 1) then
      Ok {| rank := STRAIGHT; primaryValue := high;
            secondaryValue := 0; tertiaryValue := 0;
            description :=
              "Straight " +:+ pretty low +:+ "-" +:+ pretty mid
                +:+ "-" +:+ pretty high |}
    else if low =? mid then
      Ok {| rank := DOUBLE; primaryValue := low;
            secondaryValue := high; tertiaryValue := 0;
            description :=
              "Pair of " +:+ pretty low +:+ "s, " +:+ pretty high
                +:+ " kicker" |}
    else if mid =? high then
      Ok {| rank := DOUBLE; primaryValue := high;
            secondaryValue := low; tertiaryValue := 0;
            description :=
              "Pair of " +:+ pretty high +:+ "s, " +:+ pretty low
                +:+ " kicker" |}
    else
      Ok {| rank := SINGLE; primaryValue := high;
            secondaryValue := mid; tertiaryValue := low;
            description :=
              "High " +:+ pretty high +:+ ", " +:+ pretty mid
                +:+ ", " +:+ pretty low |}.

Definition compareHands (a b : EvaluatedHand) : Z :=
  if negb (rankValue (rank a) =? rankValue (rank b)) then
    rankValue (rank a) - rankValue (rank b)
  else if negb (primaryValue a =? primaryValue b) then
    primaryValue a - primaryValue b
  else if negb (secondaryValue a =? secondaryValue b) then
    secondaryValue a - secondaryValue b
  else
    tertiaryValue a - tertiaryValue b.

(** ** Scoring constants ([scoring.constants.ts]) *)

Definition PLACEMENT_POINTS_BY_PLAYER_COUNT : gmap nat (gmap nat Z) :=
  list_to_map
    [ (2%nat, list_to_map [(1%nat, 6); (2%nat, 0)]);
      (3%nat, list_to_map [(1%nat, 6); (2%nat, 3); (3%nat, 0)]);
      (4%nat, list_to_map [(1%nat, 6); (2%nat, 3); (3%nat, 1); (4%nat, 0)]);
      (5%nat, list_to_map
                [(1%nat, 6); (2%nat, 4); (3%nat, 2); (4%nat, 1); (5%nat, 0)]);
      (6%nat, list_to_map
                [(1%nat, 6); (2%nat, 4); (3%nat, 3); (4%nat, 2); (5%nat, 1);
                 (6%nat, 0)]) ].

Definition getPlacementPoints (placement playerCount : nat) : Z :=
  match PLACEMENT_POINTS_BY_PLAYER_COUNT !! playerCount with
  | None =>
      (* fallback to the 4-player rules *)
      default 0
        (pointsTable ← PLACEMENT_POINTS_BY_PLAYER_COUNT !! 4%nat;
         pointsTable !! placement)
  | Some pointsTable => default 0 (pointsTable !! placement)
  end.

(** A row of the prediction table: the range of each prediction type. *)
Definition PredictionRanges : Type := PredictionType -> Z * Z.

Definition PREDICTION_RANGES_BY_PLAYER_COUNT : gmap nat PredictionRanges :=
  list_to_map
    [ (2%nat, fun t => match t with
                       | ZERO => (0, 0) | MIN => (-1, -1)
                       | MORE => (6, 6) | MAX => (12, 12) end);
      (3%nat, fun t => match t with
                       | ZERO => (0, 0) | MIN => (3, 3)
                       | MORE => (6, 9) | MAX => (10, 12) end);
      (4%nat, fun t => match t with
                       | ZERO => (0, 0) | MIN => (1, 4)
                       | MORE => (6, 9) | MAX => (10, 12) end);
      (5%nat, fun t => match t with
                       | ZERO => (0, 0) | MIN => (1, 4)
                       | MORE => (5, 8) | MAX => (10, 12) end);
      (6%nat, fun t => match t with
                       | ZERO => (0, 0) | MIN => (1, 4)
                       | MORE => (5, 9) | MAX => (10, 12) end) ].

(** The 4-player row, which the lookups fall back to. *)
Definition fourPlayerRanges : PredictionRanges :=
  fun t => match t with
           | ZERO => (0, 0) | MIN => (1, 4)
           | MORE => (6, 9) | MAX => (10, 12) end.

Definition getPredictionRange (prediction : PredictionType)
    (playerCount : nat) : Z * Z :=
  match PREDICTION_RANGES_BY_PLAYER_COUNT !! playerCount with
  | None =>
      default fourPlayerRanges (PREDICTION_RANGES_BY_PLAYER_COUNT !! 4%nat)
        prediction
  | Some ranges => ranges prediction
  end.

Definition getAvailablePredictions (playerCount : nat) : list PredictionType :=
  if (playerCount =? 2)%nat then [ZERO; MORE; MAX]
  else [ZERO; MIN; MORE; MAX].

Definition PREDICTION_ZERO_BONUS : Q := 40.

(** ** Set scoring ([set-scorer.ts]) *)

Record PlayerSelection := mkSelection {
  sel_playerId : string;
  sel_hand : EvaluatedHand;
  sel_diceUsed : option (list string);
  sel_diceValues : option (list Die)
}.

(** The inner [while]: collect the players tied with [sorted[i]], from index
    [j] on. *)
Fixpoint tieScan (fuel : nat) (sorted : list PlayerSelection)
    (first : PlayerSelection) (tiedPlayers : list PlayerSelection) (j : nat)
    : list PlayerSelection * nat :=
  match fuel with
  | O => (tiedPlayers, j)
  | S fuel' =>
      match sorted !! j with
      | Some sj =>
          if compareHands (sel_hand first) (sel_hand sj) =? 0 then
            tieScan fuel' sorted first (tiedPlayers ++ [sj]) (S j)
          else (tiedPlayers, j)
      | None => (tiedPlayers, j)
      end
  end.

(** The [for] loop: add up the points of [count] placements from [p] on.
    The table holds whole numbers up to 6, which doubles add without
    rounding. *)
Fixpoint pointsLoop (count p actualPlayerCount : nat) (totalPoints : Z) : Z :=
  match count with
  | O => totalPoints
  | S count' =>
      pointsLoop count' (S p) actualPlayerCount
        (totalPoints + getPlacementPoints p actualPlayerCount)
  end.

(** The outer [while], one tie group per iteration; the points of a group
    are shared out by a division of doubles. *)
Fixpoint placementLoop (fuel : nat) (sorted : list PlayerSelection)
    (actualPlayerCount : nat) (results : list SetResult)
    (currentPlacement i : nat) : list SetResult :=
  match fuel with
  | O => results
  | S fuel' =>
      match sorted !! i with
      | None => results
      | Some si =>
          let '(tiedPlayers, j) :=
            tieScan (length sorted) sorted si [si] (S i) in
          let totalPoints :=
            pointsLoop (length tiedPlayers) currentPlacement
              actualPlayerCount 0 in
          let pointsPerPlayer :=
            js_div (inject_Z totalPoints)
              (inject_Z (Z.of_nat (length tiedPlayers))) in
          let results' :=
            results ++
            map (fun player =>
                   {| sr_playerId := sel_playerId player;
                      sr_hand := sel_hand player;
                      diceUsed := default [] (sel_diceUsed player);
                      diceValues := default [] (sel_diceValues player);
                      placement := currentPlacement;
                      pointsEarned := pointsPerPlayer |})
                tiedPlayers in
          placementLoop fuel' sorted actualPlayerCount results'
            (currentPlacement + length tiedPlayers)%nat j
      end
  end.

Definition sortedByHand (selections : list PlayerSelection)
    : list PlayerSelection :=
  js_sort (fun a b => numZ (compareHands (sel_hand b) (sel_hand a)))
    selections.

Definition calculateSetPlacements (selections : list PlayerSelection)
    (playerCount : option nat) : list SetResult :=
  if (length selections =? 0)%nat then []
  else
    let actualPlayerCount := default (length selections) playerCount in
    let sorted := sortedByHand selections in
    placementLoop (length sorted) sorted actualPlayerCount [] 1%nat 0%nat.

Definition calculatePredictionBonus (prediction : PredictionType)
    (roundTotal : Q) (playerCount : nat) : Q :=
  let '(min, max) := getPredictionRange prediction playerCount in
  if Qltb roundTotal (inject_Z min) || Qltb (inject_Z max) roundTotal then
    0%Q
  else if decide (prediction = ZERO) then PREDICTION_ZERO_BONUS
  else roundTotal.

(** ** Turn order ([turn-order.ts]) *)

Definition calculateInitialTurnOrder (rollResults : list RollResult)
    : list string :=
  map roll_playerId
    (js_sort (fun a b => numZ (roll a - roll b)) rollResults).

(** [originalOrder.forEach((playerId, index) => map.set(playerId, index))] *)
Definition originalOrderMap (originalOrder : list string) : gmap string nat :=
  foldl (fun m '(index, playerId) => <[playerId := index]> m) ∅
    (imap pair originalOrder).

(** [map.get(id) ?? Infinity] *)
Definition indexOrInfinity (o : option nat) : JsNumber :=
  match o with
  | Some index => numZ (Z.of_nat index)
  | None => PosInfinity
  end.

Definition turnOrderCompare (m : gmap string nat) (a b : Player)
    : JsNumber :=
  if negb (Qeq_bool (cumulativeScore b) (cumulativeScore a)) then
    Num (cumulativeScore b - cumulativeScore a)
  else
    js_sub (indexOrInfinity (m !! player_id a))
      (indexOrInfinity (m !! player_id b)).

Definition calculateTurnOrder (players : list Player)
    (originalOrder : list string) : list string :=
  let m := originalOrderMap originalOrder in
  map player_id (js_sort (turnOrderCompare m) players).

(** *** The same two routines over a store of arrays

    [[...xs]] allocates a copy, [sort] works in place on the array it is
    called on and [map] allocates the result.  The store makes visible which
    arrays a call writes to. *)

Inductive JsArray : Type :=
| ArrRolls (l : list RollResult)
| ArrPlayers (l : list Player)
| ArrIds (l : list string).

(** A new array at an unused address. *)
Definition allocArray (h : gmap nat JsArray) (a : JsArray)
    : nat * gmap nat JsArray :=
  let r := fresh (dom h) in (r, <[r := a]> h).

(** [arr.sort(cmp)], in place. *)
Definition sortArrayInPlace (rollCmp : RollResult -> RollResult -> JsNumber)
    (playerCmp : Player -> Player -> JsNumber) (r : nat)
    (h : gmap nat JsArray) : gmap nat JsArray :=
  alter (fun a => match a with
                  | ArrRolls l => ArrRolls (js_sort rollCmp l)
                  | ArrPlayers l => ArrPlayers (js_sort playerCmp l)
                  | ArrIds l => ArrIds l
                  end) r h.

Definition calculateInitialTurnOrder_store (h : gmap nat JsArray)
    (rollResults : nat) : option (nat * gmap nat JsArray) :=
  match h !! rollResults with
  | Some (ArrRolls l) =>
      let '(copy, h1) := allocArray h (ArrRolls l) in
      let h2 :=
        sortArrayInPlace (fun a b => numZ (roll a - roll b))
          (fun _ _ => NaN) copy h1 in
      match h2 !! copy with
      | Some (ArrRolls sorted) =>
          Some (allocArray h2 (ArrIds (map roll_playerId sorted)))
      | _ => None
      end
  | _ => None
  end.

Definition calculateTurnOrder_store (h : gmap nat JsArray)
    (players originalOrder : nat) : option (nat * gmap nat JsArray) :=
  match h !! players, h !! originalOrder with
  | Some (ArrPlayers ps), Some (ArrIds order) =>
      let m := originalOrderMap order in
      let '(copy, h1) := allocArray h (ArrPlayers ps) in
      let h2 :=
        sortArrayInPlace (fun _ _ => NaN) (turnOrderCompare m) copy h1 in
      match h2 !! copy with
      | Some (ArrPlayers sorted) =>
          Some (allocArray h2 (ArrIds (map player_id sorted)))
      | _ => None
      end
  | _, _ => None
  end.

(** ** Limits

    Modelled from the spec: [GAME_LIMITS] of [game.constants.ts], which is
    not among the sources.  The spec gives rooms of 2 to 6 players, 11 dice a
    round (9 white, 1 red, 1 blue) and hands of 3 dice. *)

Definition MIN_PLAYERS : nat := 2.
Definition WHITE_DICE_COUNT : nat := 9.
Definition DICE_PER_SELECTION : nat := 3.

(** ** Randomness

    [Math.random()] yields a multiple of 2^-53 in [0,1); [uuidv4()] yields an
    identifier.  Both read an oracle at the number of calls made so far. *)

Record Oracle := mkOracle {
  randomBits : nat -> Z;
  uuidOf : nat -> string
}.

Record Entropy := mkEntropy {
  randomCalls : nat;
  uuidCalls : nat
}.

Definition Math_random (O : Oracle) (e : Entropy) : Q * Entropy :=
  (Qmake (randomBits O (randomCalls e) mod 2 ^ 53) (2 ^ 53),
   {| randomCalls := S (randomCalls e); uuidCalls := uuidCalls e |}).

Definition uuidv4 (O : Oracle) (e : Entropy) : string * Entropy :=
  (uuidOf O (uuidCalls e),
   {| randomCalls := randomCalls e; uuidCalls := S (uuidCalls e) |}).

(** [xs.map(f)] for an [f] that draws random values, left to right. *)
Fixpoint mapRand {A B} (f : A -> Entropy -> B * Entropy) (l : list A)
    (e : Entropy) : list B * Entropy :=
  match l with
  | [] => ([], e)
  | x :: l' =>
      let '(y, e1) := f x e in
      let '(ys, e2) := mapRand f l' e1 in
      (y :: ys, e2)
  end.

(** ** Object spreads: a copy with one field replaced *)

Definition withPhase (x : GamePhase) (g : GameState) : GameState :=
  mkGameState (roomCode g) x (players g) (config g) (currentRound g)
    (currentSet g) (turnOrder g) (currentTurnIndex g) (pendingSelections g)
    (setResults g) (roundHistory g) (initialRollResults g) (hostId g)
    (createdAt g).

Definition withPlayers (x : list Player) (g : GameState) : GameState :=
  mkGameState (roomCode g) (phase g) x (config g) (currentRound g)
    (currentSet g) (turnOrder g) (currentTurnIndex g) (pendingSelections g)
    (setResults g) (roundHistory g) (initialRollResults g) (hostId g)
    (createdAt g).

Definition withCurrentRound (x : Z) (g : GameState) : GameState :=
  mkGameState (roomCode g) (phase g) (players g) (config g) x
    (currentSet g) (turnOrder g) (currentTurnIndex g) (pendingSelections g)
    (setResults g) (roundHistory g) (initialRollResults g) (hostId g)
    (createdAt g).

Definition withCurrentSet (x : Z) (g : GameState) : GameState :=
  mkGameState (roomCode g) (phase g) (players g) (config g) (currentRound g)
    x (turnOrder g) (currentTurnIndex g) (pendingSelections g)
    (setResults g) (roundHistory g) (initialRollResults g) (hostId g)
    (createdAt g).

Definition withTurnOrder (x : list string) (g : GameState) : GameState :=
  mkGameState (roomCode g) (phase g) (players g) (config g) (currentRound g)
    (currentSet g) x (currentTurnIndex g) (pendingSelections g)
    (setResults g) (roundHistory g) (initialRollResults g) (hostId g)
    (createdAt g).

Definition withCurrentTurnIndex (x : nat) (g : GameState) : GameState :=
  mkGameState (roomCode g) (phase g) (players g) (config g) (currentRound g)
    (currentSet g) (turnOrder g) x (pendingSelections g)
    (setResults g) (roundHistory g) (initialRollResults g) (hostId g)
    (createdAt g).

Definition withPendingSelections (x : gmap string (list string))
    (g : GameState) : GameState :=
  mkGameState (roomCode g) (phase g) (players g) (config g) (currentRound g)
    (currentSet g) (turnOrder g) (currentTurnIndex g) x
    (setResults g) (roundHistory g) (initialRollResults g) (hostId g)
    (createdAt g).

Definition withSetResults (x : list SetResult) (g : GameState) : GameState :=
  mkGameState (roomCode g) (phase g) (players g) (config g) (currentRound g)
    (currentSet g) (turnOrder g) (currentTurnIndex g) (pendingSelections g)
    x (roundHistory g) (initialRollResults g) (hostId g) (createdAt g).

Definition withRoundHistory (x : list RoundResult) (g : GameState)
    : GameState :=
  mkGameState (roomCode g) (phase g) (players g) (config g) (currentRound g)
    (currentSet g) (turnOrder g) (currentTurnIndex g) (pendingSelections g)
    (setResults g) x (initialRollResults g) (hostId g) (createdAt g).

Definition withInitialRollResults (x : list RollResult) (g : GameState)
    : GameState :=
  mkGameState (roomCode g) (phase g) (players g) (config g) (currentRound g)
    (currentSet g) (turnOrder g) (currentTurnIndex g) (pendingSelections g)
    (setResults g) (roundHistory g) x (hostId g) (createdAt g).

Definition withDice (x : list Die) (p : Player) : Player :=
  mkPlayer (player_id p) (name p) (socketId p) x (cumulativeScore p)
    (currentRoundScore p) (set1Score p) (set2Score p) (prediction p)
    (isConnected p) (isReady p) (isHost p).

Definition withPrediction (x : option PredictionType) (p : Player) : Player :=
  mkPlayer (player_id p) (name p) (socketId p) (dice p) (cumulativeScore p)
    (currentRoundScore p) (set1Score p) (set2Score p) x
    (isConnected p) (isReady p) (isHost p).

Definition withCumulativeScore (x : Q) (p : Player) : Player :=
  mkPlayer (player_id p) (name p) (socketId p) (dice p) x
    (currentRoundScore p) (set1Score p) (set2Score p) (prediction p)
    (isConnected p) (isReady p) (isHost p).

Definition withSet1Results (x : list SetResult) (r : RoundResult)
    : RoundResult :=
  mkRoundResult (roundNumber r) x (set2Results r) (predictions r).

(** [xs.find(pred)] on the players and dice. *)
Definition findPlayer (ps : list Player) (playerId : string)
    : option Player :=
  List.find (fun p => bool_decide (player_id p = playerId)) ps.

Definition findDie (ds : list Die) (dieId : string) : option Die :=
  List.find (fun d => bool_decide (die_id d = dieId)) ds.

(** The key under which a confirmation is kept in [pendingSelections]. *)
Definition confirmedKey (playerId : string) : string :=
  playerId +:+ ":confirmed".

(** ** The machine context and its events ([types.ts]) *)

Record GameMachineContext := mkContext {
  gameState : GameState;
  turnTimerId : option nat;
  turnTimeRemaining : Z
}.

(** [assign] of the [gameState] key alone. *)
Definition assignGameState (g : GameState) (context : GameMachineContext)
    : GameMachineContext :=
  mkContext g (turnTimerId context) (turnTimeRemaining context).

Inductive GameMachineEvent : Type :=
| START_GAME
| INITIAL_ROLL_COMPLETE
| SUBMIT_PREDICTION (playerId : string) (prediction : PredictionType)
| PREDICTION_TIMEOUT
| SELECT_DICE (playerId : string) (dieIds : list string)
| CONFIRM_SELECTION (playerId : string)
| TURN_TIMEOUT
| NEXT_SET
| NEXT_ROUND
| END_GAME.

(** ** Actions ([actions.ts]) *)

Module actions.

Definition rollDie (O : Oracle) (e : Entropy) : Z * Entropy :=
  let '(r, e1) := Math_random O e in (Qfloor (js_mul r 6) + 1, e1).

Definition createDie (O : Oracle) (c : DieColor) (e : Entropy)
    : Die * Entropy :=
  let '(i, e1) := uuidv4 O e in
  let '(v, e2) := rollDie O e1 in
  ({| die_id := i; color := c; value := v; isSpent := false;
      isRevealed := bool_decide (c = WHITE) |}, e2).

(** The [for] loop that pushes the white dice. *)
Fixpoint pushDice (O : Oracle) (n : nat) (c : DieColor) (ds : list Die)
    (e : Entropy) : list Die * Entropy :=
  match n with
  | O => (ds, e)
  | S n' =>
      let '(d, e1) := createDie O c e in
      pushDice O n' c (ds ++ [d]) e1
  end.

Definition generatePlayerDice (O : Oracle) (e : Entropy)
    : list Die * Entropy :=
  let '(ds, e1) := pushDice O WHITE_DICE_COUNT WHITE [] e in
  let '(r, e2) := createDie O RED e1 in
  let '(b, e3) := createDie O BLUE e2 in
  ((ds ++ [r]) ++ [b], e3).

Definition rollAllDice (O : Oracle) (context : GameMachineContext)
    (e : Entropy) : GameMachineContext * Entropy :=
  let newGameState := gameState context in
  let '(ps, e1) :=
    mapRand (fun player e0 =>
               let '(ds, e') := generatePlayerDice O e0 in
               (withDice ds player, e'))
      (players newGameState) e in
  (assignGameState (withPlayers ps newGameState) context, e1).

Definition rollInitialTurnOrder (O : Oracle) (context : GameMachineContext)
    (e : Entropy) : GameMachineContext * Entropy :=
  let newGameState := gameState context in
  let '(rollResults, e1) :=
    mapRand (fun player e0 =>
               let '(a, e') := rollDie O e0 in
               let '(b, e'') := rollDie O e' in
               ({| roll_playerId := player_id player; roll := a + b |},
                e''))
      (players newGameState) e in
  (assignGameState (withInitialRollResults rollResults newGameState)
     context, e1).

Definition setTurnOrder (context : GameMachineContext)
    : GameMachineContext :=
  let newGameState := gameState context in
  let newGameState :=
    if (currentRound newGameState =? 1)
       && (0 <? length (initialRollResults newGameState))%nat
    then
      withTurnOrder
        (calculateInitialTurnOrder (initialRollResults newGameState))
        newGameState
    else
      let originalOrder :=
        calculateInitialTurnOrder (initialRollResults newGameState) in
      withTurnOrder
        (calculateTurnOrder (players newGameState) originalOrder)
        newGameState in
  assignGameState (withCurrentTurnIndex 0 newGameState) context.

(** The selection of one player, as [processSetSelection] builds it. *)
Definition buildSelection (pending : gmap string (list string))
    (player : Player) : Exn PlayerSelection :=
  let dieIds := default [] (pending !! player_id player) in
  let selectedDice := omap (findDie (dice player)) dieIds in
  let revealedDice :=
    map (fun die => mkDie (die_id die) (color die) (value die)
                      (isSpent die) true) selectedDice in
  hand ← evaluateHand selectedDice;
  Ok {| sel_playerId := player_id player; sel_hand := hand;
        sel_diceUsed := Some dieIds; sel_diceValues := Some revealedDice |}.

(** The player after a set: score credited, selected dice spent. *)
Definition creditPlayer (pending : gmap string (list string))
    (results : list SetResult) (set : Z) (player : Player) : Player :=
  let result :=
    List.find (fun r => bool_decide (sr_playerId r = player_id player))
      results in
  let points :=
    match result with Some r => pointsEarned r | None => 0%Q end in
  let dieIds := default [] (pending !! player_id player) in
  let updatedDice :=
    map (fun die =>
           mkDie (die_id die) (color die) (value die)
             (isSpent die || bool_decide (die_id die ∈ dieIds))
             (isRevealed die || bool_decide (die_id die ∈ dieIds)))
      (dice player) in
  let s1 := if set =? 1 then points else set1Score player in
  let s2 := if set =? 2 then points else set2Score player in
  mkPlayer (player_id player) (name player) (socketId player) updatedDice
    (cumulativeScore player) (js_add s1 s2) s1 s2 (prediction player)
    (isConnected player) (isReady player) (isHost player).

Definition processSetSelection (context : GameMachineContext)
    : Exn GameMachineContext :=
  let newGameState := gameState context in
  let pending := pendingSelections newGameState in
  selections ← exn_mapM (buildSelection pending) (players newGameState);
  let playerCount := length (players newGameState) in
  let results := calculateSetPlacements selections (Some playerCount) in
  let ps :=
    map (creditPlayer pending results (currentSet newGameState))
      (players newGameState) in
  Ok (assignGameState
        (withSetResults results (withPlayers ps newGameState)) context).

(** The outcome of one player's prediction; a [null] prediction makes
    [calculatePredictionBonus] fail on the range it cannot find. *)
Definition predictionOutcome (playerCount : nat) (player : Player)
    : Exn PredictionResult :=
  match prediction player with
  | None => Throw (Error "undefined is not iterable")
  | Some t =>
      let b :=
        calculatePredictionBonus t (currentRoundScore player) playerCount in
      Ok {| pr_playerId := player_id player; pr_type := t;
            correct := Qltb 0 b; bonus := b |}
  end.

Definition processPredictions (context : GameMachineContext)
    : Exn GameMachineContext :=
  let newGameState := gameState context in
  let playerCount := length (players newGameState) in
  outcomes ←
    exn_mapM (predictionOutcome playerCount) (players newGameState);
  let ps :=
    map (fun player =>
           let predictionResult :=
             List.find
               (fun p => bool_decide (pr_playerId p = player_id player))
               outcomes in
           let b :=
             match predictionResult with
             | Some p => bonus p
             | None => 0%Q
             end in
           withCumulativeScore
             (js_add (js_add (cumulativeScore player)
                        (currentRoundScore player)) b)
             player)
      (players newGameState) in
  let roundResult :=
    {| roundNumber := currentRound newGameState;
       set1Results :=
         match last (roundHistory newGameState) with
         | Some r => set1Results r
         | None => []
         end;
       set2Results := setResults newGameState;
       predictions := outcomes |} in
  Ok (assignGameState
        (withRoundHistory (roundHistory newGameState ++ [roundResult])
           (withPlayers ps newGameState)) context).

Definition advanceTurn (context : GameMachineContext)
    : GameMachineContext :=
  let newGameState := gameState context in
  assignGameState
    (withCurrentTurnIndex (currentTurnIndex newGameState + 1)%nat
       newGameState) context.

(** [lastRound.set1Results = set1Results], on the last entry if there is
    one. *)
Definition stashSet1Results (set1 : list SetResult)
    (history : list RoundResult) : list RoundResult :=
  if (0 <? length history)%nat then
    alter (withSet1Results set1) (length history - 1)%nat history
  else history.

Definition advanceSet (context : GameMachineContext)
    : GameMachineContext :=
  let newGameState := gameState context in
  let set1 := setResults newGameState in
  let newGameState :=
    withRoundHistory (stashSet1Results set1 (roundHistory newGameState))
      newGameState in
  let newGameState := withCurrentSet 2 newGameState in
  let newGameState := withCurrentTurnIndex 0 newGameState in
  let newGameState := withSetResults [] newGameState in
  let newGameState := withPendingSelections ∅ newGameState in
  assignGameState newGameState context.

Definition advanceRound (O : Oracle) (context : GameMachineContext)
    (e : Entropy) : GameMachineContext * Entropy :=
  let newGameState := gameState context in
  let newGameState :=
    withCurrentRound (currentRound newGameState + 1) newGameState in
  let newGameState := withCurrentSet 1 newGameState in
  let newGameState := withCurrentTurnIndex 0 newGameState in
  let newGameState := withSetResults [] newGameState in
  let newGameState := withPendingSelections ∅ newGameState in
  let '(ps, e1) :=
    mapRand (fun player e0 =>
               let '(ds, e') := generatePlayerDice O e0 in
               (withDice ds player, e'))
      (players newGameState) e in
  (assignGameState (withPlayers ps newGameState) context, e1).

Definition resetPlayerRoundState (context : GameMachineContext)
    : GameMachineContext :=
  let newGameState := gameState context in
  let ps :=
    map (fun player =>
           mkPlayer (player_id player) (name player) (socketId player)
             (dice player) (cumulativeScore player) 0%Q 0%Q 0%Q None
             (isConnected player) (isReady player) (isHost player))
      (players newGameState) in
  assignGameState (withPlayers ps newGameState) context.

Definition setPhase (x : GamePhase) (context : GameMachineContext)
    : GameMachineContext :=
  assignGameState (withPhase x (gameState context)) context.

Definition storePrediction (context : GameMachineContext)
    (playerId : string) (t : PredictionType) : GameMachineContext :=
  let newGameState := gameState context in
  let ps :=
    map (fun player =>
           if bool_decide (player_id player = playerId) then
             withPrediction (Some t) player
           else player)
      (players newGameState) in
  assignGameState (withPlayers ps newGameState) context.

Definition storeDiceSelection (context : GameMachineContext)
    (playerId : string) (dieIds : list string) : GameMachineContext :=
  let newGameState := gameState context in
  assignGameState
    (withPendingSelections
       (<[playerId := dieIds]> (pendingSelections newGameState))
       newGameState) context.

Definition confirmSelection (context : GameMachineContext)
    (playerId : string) : GameMachineContext :=
  let newGameState := gameState context in
  let newGameState :=
    withPendingSelections
      (<[confirmedKey playerId := ["confirmed"]]>
         (pendingSelections newGameState)) newGameState in
  let currentPlayerId :=
    turnOrder newGameState !! currentTurnIndex newGameState in
  let newGameState :=
    if bool_decide (currentPlayerId = Some playerId) then
      withCurrentTurnIndex (currentTurnIndex newGameState + 1)%nat
        newGameState
    else newGameState in
  assignGameState newGameState context.

Definition autoSelectDice (context : GameMachineContext)
    : GameMachineContext :=
  let newGameState := gameState context in
  match turnOrder newGameState !! currentTurnIndex newGameState with
  | None => context
  | Some currentPlayerId =>
      match findPlayer (players newGameState) currentPlayerId with
      | None => context
      | Some player =>
          let availableDice :=
            filter (fun d => isSpent d = false) (dice player) in
          let selectedDieIds := map die_id (take 3 availableDice) in
          let newGameState :=
            withPendingSelections
              (<[confirmedKey currentPlayerId := ["confirmed"]]>
                 (<[currentPlayerId := selectedDieIds]>
                    (pendingSelections newGameState))) newGameState in
          let newGameState :=
            withCurrentTurnIndex (currentTurnIndex newGameState + 1)%nat
              newGameState in
          assignGameState newGameState context
      end
  end.

Definition clearTurnTimer (context : GameMachineContext)
    : GameMachineContext :=
  mkContext (gameState context) None 0.

Definition autoSubmitPredictions (O : Oracle)
    (context : GameMachineContext) (e : Entropy)
    : GameMachineContext * Entropy :=
  let newGameState := gameState context in
  let playerCount := length (players newGameState) in
  let availablePredictions := getAvailablePredictions playerCount in
  let '(ps, e1) :=
    mapRand (fun player e0 =>
               match prediction player with
               | None =>
                   let '(r, e') := Math_random O e0 in
                   let index :=
                     Z.to_nat
                       (Qfloor
                          (js_mul r
                             (inject_Z
                                (Z.of_nat (length availablePredictions)))))
                   in
                   (withPrediction (availablePredictions !! index) player,
                    e')
               | Some _ => (player, e0)
               end)
      (players newGameState) e in
  (assignGameState (withPlayers ps newGameState) context, e1).
End actions.

(** ** Guards ([guards.ts]) *)

Module guards.

Definition allPlayersRolled (context : GameMachineContext) : bool :=
  let playerCount := length (players (gameState context)) in
  let rollCount := length (initialRollResults (gameState context)) in
  (playerCount <=? rollCount)%nat && (0 <? playerCount)%nat.

Definition allPredictionsSubmitted (context : GameMachineContext) : bool :=
  forallb (fun player => negb (bool_decide (prediction player = None)))
    (players (gameState context)).

Definition allSelectionsConfirmed (context : GameMachineContext) : bool :=
  let pending := pendingSelections (gameState context) in
  forallb
    (fun player =>
       match pending !! player_id player with
       | Some selection =>
           (length selection =? 3)%nat
           && bool_decide (is_Some (pending !! confirmedKey (player_id player)))
       | None => false
       end)
    (players (gameState context)).

Definition isSet1 (context : GameMachineContext) : bool :=
  currentSet (gameState context) =? 1.

Definition isSet2 (context : GameMachineContext) : bool :=
  currentSet (gameState context) =? 2.

Definition hasMoreRounds (context : GameMachineContext) : bool :=
  currentRound (gameState context) <? totalRounds (config (gameState context)).

Definition isGameOver (context : GameMachineContext) : bool :=
  totalRounds (config (gameState context)) <=? currentRound (gameState context).

Definition isRound1 (context : GameMachineContext) : bool :=
  currentRound (gameState context) =? 1.

Definition isLastPlayerTurn (context : GameMachineContext) : bool :=
  (Z.of_nat (length (turnOrder (gameState context))) - 1
     <=? Z.of_nat (currentTurnIndex (gameState context))).
End guards.

(** ** The machine ([game.machine.ts]) *)

Inductive StateValue : Type :=
| st_lobby | st_initial_roll | st_prediction | st_set_selection
| st_set_reveal | st_round_summary | st_game_over.

#[global] Instance StateValue_eq_dec : EqDecision StateValue.
Proof. solve_decision. Defined.

Record Snapshot := mkSnapshot {
  snap_value : StateValue;
  snap_context : GameMachineContext
}.

(** An actor: its snapshot, and whether it stopped (it reached the final
    state, or an action raised an exception). *)
Record Actor := mkActor {
  snapshot : Snapshot;
  stopped : bool
}.

(** What a transition yields: the next snapshot, or the exception an action
    raised, together with the randomness left. *)
Definition Outcome : Type := Exn Snapshot * Entropy.

Module machine.

Definition initializeRound1 (context : GameMachineContext)
    : GameMachineContext :=
  assignGameState (withCurrentRound 1 (gameState context)) context.

Definition clearPendingSelections (context : GameMachineContext)
    : GameMachineContext :=
  assignGameState (withPendingSelections ∅ (gameState context)) context.

(** [set_selection]: the eventless transition to [set_reveal]. *)
Definition always_set_selection (context : GameMachineContext)
    (e : Entropy) : Outcome :=
  if guards.allSelectionsConfirmed context then
    match actions.processSetSelection context with
    | Ok c => (Ok (mkSnapshot st_set_reveal (actions.setPhase SET_REVEAL c)), e)
    | Throw err => (Throw err, e)
    end
  else (Ok (mkSnapshot st_set_selection context), e).

Definition enter_set_selection (context : GameMachineContext)
    (e : Entropy) : Outcome :=
  always_set_selection (actions.setPhase SET_SELECTION context) e.

(** [prediction]: the eventless transition to [set_selection]. *)
Definition always_prediction (context : GameMachineContext) (e : Entropy)
    : Outcome :=
  if guards.allPredictionsSubmitted context then
    enter_set_selection (clearPendingSelections context) e
  else (Ok (mkSnapshot st_prediction context), e).

Definition enter_prediction (context : GameMachineContext) (e : Entropy)
    : Outcome :=
  always_prediction (actions.setPhase PREDICTION context) e.

(** [initial_roll]: the eventless transition to [prediction]. *)
Definition always_initial_roll (O : Oracle) (context : GameMachineContext)
    (e : Entropy) : Outcome :=
  if guards.allPlayersRolled context then
    let c1 := actions.setTurnOrder context in
    let '(c2, e1) := actions.rollAllDice O c1 e in
    enter_prediction c2 e1
  else (Ok (mkSnapshot st_initial_roll context), e).

Definition enter_initial_roll (O : Oracle) (context : GameMachineContext)
    (e : Entropy) : Outcome :=
  let c1 := actions.setPhase INITIAL_ROLL context in
  let '(c2, e1) := actions.rollInitialTurnOrder O c1 e in
  always_initial_roll O c2 e1.

Definition enter_round_summary (context : GameMachineContext)
    (e : Entropy) : Outcome :=
  match actions.processPredictions (actions.setPhase ROUND_SUMMARY context) with
  | Ok c => (Ok (mkSnapshot st_round_summary c), e)
  | Throw err => (Throw err, e)
  end.

Definition enter_game_over (context : GameMachineContext) (e : Entropy)
    : Outcome :=
  (Ok (mkSnapshot st_game_over
         (actions.clearTurnTimer (actions.setPhase GAME_OVER context))), e).

(** The actor as created and started: in [lobby], entry action run. *)
Definition createGameActor (g : GameState) : Snapshot :=
  mkSnapshot st_lobby
    (actions.setPhase LOBBY
       {| gameState := g; turnTimerId := None; turnTimeRemaining := 0 |}).

(** One event: the transition it selects, then the eventless transitions
    to their fixed point.  An event the state does not handle changes
    nothing. *)
Definition send (O : Oracle) (s : Snapshot) (event : GameMachineEvent)
    (e : Entropy) : Outcome :=
  let context := snap_context s in
  match snap_value s, event with
  | st_lobby, START_GAME =>
      enter_initial_roll O (initializeRound1 context) e
  | st_prediction, SUBMIT_PREDICTION playerId t =>
      always_prediction (actions.storePrediction context playerId t) e
  | st_prediction, PREDICTION_TIMEOUT =>
      let '(c, e1) := actions.autoSubmitPredictions O context e in
      always_prediction c e1
  | st_set_selection, SELECT_DICE playerId dieIds =>
      always_set_selection
        (actions.storeDiceSelection context playerId dieIds) e
  | st_set_selection, CONFIRM_SELECTION playerId =>
      always_set_selection (actions.confirmSelection context playerId) e
  | st_set_selection, TURN_TIMEOUT =>
      always_set_selection (actions.autoSelectDice context) e
  | st_set_reveal, NEXT_SET =>
      if guards.isSet1 context then
        enter_set_selection (actions.advanceSet context) e
      else if guards.isSet2 context then enter_round_summary context e
      else (Ok s, e)
  | st_round_summary, NEXT_ROUND =>
      if guards.hasMoreRounds context then
        let '(c1, e1) := actions.advanceRound O context e in
        let c2 := actions.resetPlayerRoundState c1 in
        let c3 := actions.setTurnOrder c2 in
        enter_prediction c3 e1
      else if guards.isGameOver context then enter_game_over context e
      else (Ok s, e)
  | st_round_summary, END_GAME => enter_game_over context e
  | _, _ => (Ok s, e)
  end.

(** [actor.send(event)]: a stopped actor ignores the event; an exception
    stops the actor where it stands; reaching [game_over], the final state,
    stops it too. *)
Definition deliver (O : Oracle) (a : Actor) (event : GameMachineEvent)
    (e : Entropy) : Actor * Entropy :=
  if stopped a then (a, e)
  else
    match send O (snapshot a) event e with
    | (Ok s, e') =>
        (mkActor s (bool_decide (snap_value s = st_game_over)), e')
    | (Throw _, e') => (mkActor (snapshot a) true, e')
    end.
End machine.

(** ** The server: actors, store, and what is sent to the clients

    The store keeps, under [game:<roomCode>], the serialized state of a room;
    reading it yields a fresh copy.  [outbox] records every [emit], in order.
    The countdowns of [setInterval] and [setTimeout] are not part of the
    state: their expiry shows up as the timeout requests of [GameService]. *)

Inductive Target : Type :=
| ToClient (socket : string)
| ToRoom (room : string).

Record Standing := mkStanding {
  standing_playerId : string;
  standing_name : string;
  score : Q
}.

Inductive ServerEvent : Type :=
| room_error (message code : string)
| game_phaseChange (p : GamePhase) (g : GameState)
| game_initialRoll (results : list RollResult) (order : list string)
| game_timerTick (timeRemaining : Z)
| game_turnStart (playerId : option string) (timeRemaining : Z)
| set_reveal (results : list SetResult) (g : GameState)
| round_complete (result : RoundResult) (g : GameState)
| game_over (finalStandings : list Standing)
| prediction_submitted (playerId : string)
| prediction_allSubmitted
| dice_selected (playerId : string) (visibleDice : list Die) (hiddenCount : nat)
| dice_confirmed (playerId : string)
| game_stateUpdate (g : GameState).

Record Server := mkServer {
  gameActors : gmap string Actor;
  redis : gmap string GameState;
  entropy : Entropy;
  resultsAcknowledgements : gmap string (gset string);
  outbox : list (Target * ServerEvent)
}.

Definition emit (t : Target) (ev : ServerEvent) (srv : Server) : Server :=
  mkServer (gameActors srv) (redis srv) (entropy srv)
    (resultsAcknowledgements srv) (outbox srv ++ [(t, ev)]).

Definition withGameActors (x : gmap string Actor) (srv : Server) : Server :=
  mkServer x (redis srv) (entropy srv) (resultsAcknowledgements srv)
    (outbox srv).

Definition withRedis (x : gmap string GameState) (srv : Server) : Server :=
  mkServer (gameActors srv) x (entropy srv) (resultsAcknowledgements srv)
    (outbox srv).

Definition withEntropy (x : Entropy) (srv : Server) : Server :=
  mkServer (gameActors srv) (redis srv) x (resultsAcknowledgements srv)
    (outbox srv).

Definition gameKey (room : string) : string := "game:" +:+ room.

Definition getGameStateFromActor (a : Actor) : GameState :=
  gameState (snap_context (snapshot a)).

(** *** Broadcasts on a phase change ([game.gateway.ts]) *)

Module GameGateway.

Definition clearResultsAcknowledgements (room : string) (srv : Server)
    : Server :=
  mkServer (gameActors srv) (redis srv) (entropy srv)
    (delete room (resultsAcknowledgements srv)) (outbox srv).

Definition handleGameStateChange (room : string) (p : GamePhase)
    (g : GameState) (srv : Server) : Server :=
  let srv := emit (ToRoom room) (game_phaseChange p g) srv in
  match p with
  | LOBBY => srv
  | INITIAL_ROLL =>
      if (0 <? length (initialRollResults g))%nat then
        emit (ToRoom room)
          (game_initialRoll (initialRollResults g) (turnOrder g)) srv
      else srv
  | PREDICTION =>
      emit (ToRoom room)
        (game_timerTick (turnTimerSeconds (config g))) srv
  | SET_SELECTION =>
      if (0 <? length (turnOrder g))%nat then
        emit (ToRoom room)
          (game_turnStart (turnOrder g !! currentTurnIndex g)
             (turnTimerSeconds (config g))) srv
      else srv
  | SET_REVEAL =>
      emit (ToRoom room) (set_reveal (setResults g) g)
        (clearResultsAcknowledgements room srv)
  | ROUND_SUMMARY =>
      let srv := clearResultsAcknowledgements room srv in
      match last (roundHistory g) with
      | Some latestRound =>
          emit (ToRoom room) (round_complete latestRound g) srv
      | None => srv
      end
  | GAME_OVER =>
      let standings :=
        js_sort (fun a b => Num (score b - score a))
          (map (fun p => mkStanding (player_id p) (name p)
                           (cumulativeScore p)) (players g)) in
      emit (ToRoom room) (game_over standings) srv
  end.

Definition handleTurnTimerTick (room : string) (timeRemaining : Z)
    (srv : Server) : Server :=
  emit (ToRoom room) (game_timerTick timeRemaining) srv.

Definition handlePredictionTimerTick (room : string) (timeRemaining : Z)
    (srv : Server) : Server :=
  emit (ToRoom room) (game_timerTick timeRemaining) srv.

Definition handleAutoPrediction (room : string) (playerIds : list string)
    (g : GameState) (srv : Server) : Server :=
  let srv :=
    foldl (fun srv playerId =>
             emit (ToRoom room) (prediction_submitted playerId) srv)
      srv playerIds in
  let allSubmitted :=
    forallb (fun p => negb (bool_decide (prediction p = None)))
      (players g) in
  let srv :=
    if allSubmitted then emit (ToRoom room) prediction_allSubmitted srv
    else srv in
  emit (ToRoom room) (game_stateUpdate g) srv.

Definition handleAutoSelection (room playerId : string)
    (dieIds : list string) (g : GameState) (srv : Server) : Server :=
  let srv :=
    match findPlayer (players g) playerId with
    | Some player =>
        let selectedDice := omap (findDie (dice player)) dieIds in
        let visibleDice := List.filter isRevealed selectedDice in
        let hiddenCount :=
          (length selectedDice - length visibleDice)%nat in
        emit (ToRoom room) (dice_selected playerId visibleDice hiddenCount)
          srv
    | None => srv
    end in
  let srv := emit (ToRoom room) (dice_confirmed playerId) srv in
  emit (ToRoom room) (game_stateUpdate g) srv.
End GameGateway.

(** ** Rooms: what the registry keeps besides game states *)

Record ReconnectToken := mkReconnectToken {
  token : string;
  token_playerId : string;
  token_roomCode : string;
  expiresAt : Z
}.

Definition reconnectKey (t : string) : string := "reconnect:" +:+ t.

(** [Partial<GameConfig>] *)
Record PartialGameConfig := mkPartialConfig {
  partial_maxPlayers : option Z;
  partial_totalRounds : option Z;
  partial_turnTimerSeconds : option Z
}.

(** [{ ...config, ...partial }] *)
Definition mergeConfig (c : GameConfig) (partial : PartialGameConfig)
    : GameConfig :=
  mkConfig (default (maxPlayers c) (partial_maxPlayers partial))
    (default (totalRounds c) (partial_totalRounds partial))
    (default (turnTimerSeconds c) (partial_turnTimerSeconds partial)).

Definition withConfig (x : GameConfig) (g : GameState) : GameState :=
  mkGameState (roomCode g) (phase g) (players g) x (currentRound g)
    (currentSet g) (turnOrder g) (currentTurnIndex g) (pendingSelections g)
    (setResults g) (roundHistory g) (initialRollResults g) (hostId g)
    (createdAt g).

Definition withHostId (x : string) (g : GameState) : GameState :=
  mkGameState (roomCode g) (phase g) (players g) (config g) (currentRound g)
    (currentSet g) (turnOrder g) (currentTurnIndex g) (pendingSelections g)
    (setResults g) (roundHistory g) (initialRollResults g) x
    (createdAt g).

Definition withIsHost (x : bool) (p : Player) : Player :=
  mkPlayer (player_id p) (name p) (socketId p) (dice p) (cumulativeScore p)
    (currentRoundScore p) (set1Score p) (set2Score p) (prediction p)
    (isConnected p) (isReady p) x.

Definition withIsReady (x : bool) (p : Player) : Player :=
  mkPlayer (player_id p) (name p) (socketId p) (dice p) (cumulativeScore p)
    (currentRoundScore p) (set1Score p) (set2Score p) (prediction p)
    (isConnected p) x (isHost p).

Definition withConnection (connected : bool) (socket : string) (p : Player)
    : Player :=
  mkPlayer (player_id p) (name p) socket (dice p) (cumulativeScore p)
    (currentRoundScore p) (set1Score p) (set2Score p) (prediction p)
    connected (isReady p) (isHost p).

(** [players.findIndex((p) => p.id === playerId)] *)
Definition findPlayerIndex (ps : list Player) (playerId : string)
    : option nat :=
  fst <$> list_find (fun p => player_id p = playerId) ps.

Record RoomJoinResult := mkRoomJoinResult {
  join_playerId : string;
  join_reconnectToken : string;
  join_gameState : GameState;
  join_newPlayer : Player
}.

Record RoomLeaveResult := mkRoomLeaveResult {
  leave_gameState : option GameState;
  leave_newHostId : option string;
  leave_roomDeleted : bool
}.

(** *** The room registry ([room.service.ts]) *)

Record CanStart := mkCanStart {
  canStart : bool;
  reason : option string
}.

Module RoomService.

Definition canStartGame (store : gmap string GameState) (room : string)
    : CanStart :=
  match store !! gameKey room with
  | None => mkCanStart false (Some "Room not found")
  | Some g =>
      if negb (bool_decide (phase g = LOBBY)) then
        mkCanStart false (Some "Game already in progress")
      else if (length (players g) <? MIN_PLAYERS)%nat then
        mkCanStart false
          (Some ("Need at least " +:+ pretty MIN_PLAYERS +:+ " players"))
      else
        let allReady :=
          forallb (fun p => isReady p || isHost p) (players g) in
        if negb allReady then
          mkCanStart false (Some "Not all players are ready")
        else mkCanStart true None
  end.

Definition startGame (store : gmap string GameState) (room playerId : string)
    : Exn GameState * gmap string GameState :=
  match store !! gameKey room with
  | None => (Throw (RoomError "ROOM_NOT_FOUND" "Room not found"), store)
  | Some g =>
      if negb (bool_decide (hostId g = playerId)) then
        (Throw (RoomError "NOT_HOST" "Only the host can start the game"),
         store)
      else
        let c := canStartGame store room in
        if negb (canStart c) then
          (Throw (RoomError "CANNOT_START"
                    (default "Cannot start game" (reason c))), store)
        else
          let g' := withCurrentRound 1 (withPhase INITIAL_ROLL g) in
          (Ok g', <[gameKey room := g']> store)
  end.

(** [joinRoom]; [toLowerCase] stands for [String.prototype.toLowerCase]
    and [now] for the value of [Date.now()]. *)
Definition joinRoom (toLowerCase : string -> string) (O : Oracle) (now : Z)
    (store : gmap string GameState) (tokens : gmap string ReconnectToken)
    (e : Entropy) (room socket playerName : string)
    : Exn RoomJoinResult * gmap string GameState
      * gmap string ReconnectToken * Entropy :=
  match store !! gameKey room with
  | None =>
      (Throw (RoomError "ROOM_NOT_FOUND" "Room not found"), store, tokens, e)
  | Some g =>
      if negb (bool_decide (phase g = LOBBY)) then
        (Throw (RoomError "GAME_IN_PROGRESS" "Game already in progress"),
         store, tokens, e)
      else if maxPlayers (config g) <=? Z.of_nat (length (players g)) then
        (Throw (RoomError "ROOM_FULL" "Room is full"), store, tokens, e)
      else if existsb
                (fun p => bool_decide
                            (toLowerCase (name p) = toLowerCase playerName))
                (players g)
      then
        (Throw (RoomError "NAME_TAKEN" "Name already taken"), store, tokens,
         e)
      else
        let '(playerId, e1) := uuidv4 O e in
        let '(reconnectToken, e2) := uuidv4 O e1 in
        let newPlayer :=
          mkPlayer playerId playerName socket [] 0 0 0 0 None true false
            false in
        let g' := withPlayers (players g ++ [newPlayer]) g in
        let store' := <[gameKey room := g']> store in
        let tokenData :=
          {| token := reconnectToken; token_playerId := playerId;
             token_roomCode := room;
             expiresAt := now + 24 * 60 * 60 * 1000 |} in
        let tokens' := <[reconnectKey reconnectToken := tokenData]> tokens in
        (Ok {| join_playerId := playerId;
               join_reconnectToken := reconnectToken;
               join_gameState := g'; join_newPlayer := newPlayer |},
         store', tokens', e2)
  end.

Definition leaveRoom (store : gmap string GameState)
    (room playerId : string)
    : RoomLeaveResult * gmap string GameState :=
  match store !! gameKey room with
  | None => (mkRoomLeaveResult None None false, store)
  | Some g =>
      match findPlayerIndex (players g) playerId with
      | None => (mkRoomLeaveResult (Some g) None false, store)
      | Some playerIndex =>
          let leavingPlayer := players g !! playerIndex in
          let remaining := delete playerIndex (players g) in
          if (length remaining =? 0)%nat then
            (mkRoomLeaveResult None None true, delete (gameKey room) store)
          else
            let handOver :=
              default false (isHost <$> leavingPlayer)
              && (0 <? length remaining)%nat in
            let g' :=
              if handOver then
                let ps := alter (withIsHost true) 0%nat remaining in
                withHostId (default "" (player_id <$> head ps))
                  (withPlayers ps g)
              else withPlayers remaining g in
            let newHostId := if handOver then Some (hostId g') else None in
            (mkRoomLeaveResult (Some g') newHostId false,
             <[gameKey room := g']> store)
      end
  end.

Definition updateConfig (store : gmap string GameState)
    (room playerId : string) (partial : PartialGameConfig)
    : Exn GameState * gmap string GameState :=
  match store !! gameKey room with
  | None => (Throw (RoomError "ROOM_NOT_FOUND" "Room not found"), store)
  | Some g =>
      if negb (bool_decide (hostId g = playerId)) then
        (Throw (RoomError "NOT_HOST"
                  "Only the host can update configuration"), store)
      else if negb (bool_decide (phase g = LOBBY)) then
        (Throw (RoomError "GAME_IN_PROGRESS"
                  "Cannot change config after game starts"), store)
      else
        let g' := withConfig (mergeConfig (config g) partial) g in
        (Ok g', <[gameKey room := g']> store)
  end.

Definition setPlayerReady (store : gmap string GameState)
    (room playerId : string) (ready : bool)
    : Exn GameState * gmap string GameState :=
  match store !! gameKey room with
  | None => (Throw (RoomError "ROOM_NOT_FOUND" "Room not found"), store)
  | Some g =>
      match findPlayerIndex (players g) playerId with
      | None =>
          (Throw (RoomError "PLAYER_NOT_FOUND" "Player not found in room"),
           store)
      | Some i =>
          if negb (bool_decide (phase g = LOBBY)) then
            (Throw (RoomError "GAME_IN_PROGRESS"
                      "Cannot change ready state after game starts"), store)
          else
            let g' :=
              withPlayers (alter (withIsReady ready) i (players g)) g in
            (Ok g', <[gameKey room := g']> store)
      end
  end.

Definition markPlayerDisconnected (store : gmap string GameState)
    (room playerId : string) : option GameState * gmap string GameState :=
  match store !! gameKey room with
  | None => (None, store)
  | Some g =>
      match findPlayerIndex (players g) playerId with
      | Some i =>
          let g' :=
            withPlayers
              (alter (fun p => withConnection false (socketId p) p) i
                 (players g)) g in
          (Some g', <[gameKey room := g']> store)
      | None => (Some g, store)
      end
  end.

Definition markPlayerReconnected (store : gmap string GameState)
    (room playerId newSocketId : string)
    : option GameState * gmap string GameState :=
  match store !! gameKey room with
  | None => (None, store)
  | Some g =>
      match findPlayerIndex (players g) playerId with
      | Some i =>
          let g' :=
            withPlayers
              (alter (withConnection true newSocketId) i (players g)) g in
          (Some g', <[gameKey room := g']> store)
      | None => (Some g, store)
      end
  end.
End RoomService.

(** *** The game service ([game.service.ts]) *)

Module GameService.

(** The first tick a timer sends when it is started, if the room has an
    actor. *)
Definition startPredictionTimer (room : string) (srv : Server) : Server :=
  match gameActors srv !! room with
  | None => srv
  | Some actor =>
      GameGateway.handlePredictionTimerTick room
        (turnTimerSeconds (config (getGameStateFromActor actor))) srv
  end.

Definition startTurnTimer (room : string) (srv : Server) : Server :=
  match gameActors srv !! room with
  | None => srv
  | Some actor =>
      GameGateway.handleTurnTimerTick room
        (turnTimerSeconds (config (getGameStateFromActor actor))) srv
  end.

Definition handleStateChange (room : string) (p : GamePhase)
    (g : GameState) (srv : Server) : Server :=
  let srv :=
    if bool_decide (p = PREDICTION) then startPredictionTimer room srv
    else srv in
  let srv :=
    if bool_decide (p = SET_SELECTION) then startTurnTimer room srv
    else srv in
  GameGateway.handleGameStateChange room p g srv.

(** [actor.send(event)] for the actor of [room]: the transition, the
    actor kept in [gameActors], and the subscriber's notification.  A
    stopped actor ignores the event; an exception stops the actor where it
    stands. *)
Definition actorSend (O : Oracle) (room : string) (actor : Actor)
    (event : GameMachineEvent) (srv : Server) : Actor * Server :=
  if stopped actor then (actor, srv)
  else
    match machine.send O (snapshot actor) event (entropy srv) with
    | (Ok s, e) =>
        let actor' :=
          mkActor s (bool_decide (snap_value s = st_game_over)) in
        let srv :=
          withEntropy e (withGameActors (<[room := actor']> (gameActors srv)) srv) in
        let g := gameState (snap_context s) in
        (actor', handleStateChange room (phase g) g srv)
    | (Throw _, e) =>
        let actor' := mkActor (snapshot actor) true in
        (actor',
         withEntropy e (withGameActors (<[room := actor']> (gameActors srv)) srv))
    end.

(** The tail of every request: persist the actor's state and return it.
    The store is the in-process map of [redis.service.ts], which the
    service falls back to when it has no remote store and whose [set]
    cannot fail; the rejected write of a remote store is not modelled. *)
Definition persist (room : string) (actor : Actor) (srv : Server)
    : Exn GameState * Server :=
  let currentState := getGameStateFromActor actor in
  (Ok currentState,
   withRedis (<[gameKey room := currentState]> (redis srv)) srv).

Definition startGame (O : Oracle) (room playerId : string) (srv : Server)
    : Exn GameState * Server :=
  match RoomService.startGame (redis srv) room playerId with
  | (Throw err, store) => (Throw err, withRedis store srv)
  | (Ok g, store) =>
      let srv := withRedis store srv in
      let actor := mkActor (machine.createGameActor g) false in
      (* actor.start(): the subscriber sees the initial snapshot *)
      let g0 := getGameStateFromActor actor in
      let srv := handleStateChange room (phase g0) g0 srv in
      let srv := withGameActors (<[room := actor]> (gameActors srv)) srv in
      let '(actor', srv) := actorSend O room actor START_GAME srv in
      persist room actor' srv
  end.

Definition submitPrediction (O : Oracle) (room playerId : string)
    (t : PredictionType) (srv : Server) : Exn GameState * Server :=
  match gameActors srv !! room with
  | None =>
      (Throw (GameError "GAME_NOT_FOUND" "Game not found or not started"),
       srv)
  | Some actor =>
      if negb (bool_decide (snap_value (snapshot actor) = st_prediction))
      then (Throw (GameError "INVALID_PHASE" "Not in prediction phase"), srv)
      else
        let g := getGameStateFromActor actor in
        match findPlayer (players g) playerId with
        | None =>
            (Throw (GameError "PLAYER_NOT_FOUND" "Player not found in game"),
             srv)
        | Some player =>
            if negb (bool_decide (prediction player = None)) then
              (Throw (GameError "PREDICTION_ALREADY_SUBMITTED"
                        "Prediction already submitted"), srv)
            else
              let '(actor', srv) :=
                actorSend O room actor (SUBMIT_PREDICTION playerId t) srv in
              persist room actor' srv
        end
  end.

(** The gateway hands over [data.dieIds] as the client sent it: [payload]
    is [None] for a message without that field, on which [dieIds.length]
    throws a [TypeError]. *)
Definition selectDice (O : Oracle) (room playerId : string)
    (payload : option (list string)) (srv : Server)
    : Exn GameState * Server :=
  match gameActors srv !! room with
  | None =>
      (Throw (GameError "GAME_NOT_FOUND" "Game not found or not started"),
       srv)
  | Some actor =>
      if negb (bool_decide (snap_value (snapshot actor) = st_set_selection))
      then
        (Throw (GameError "INVALID_PHASE" "Not in set selection phase"), srv)
      else
        let g := getGameStateFromActor actor in
        let currentPlayerId := turnOrder g !! currentTurnIndex g in
        if negb (bool_decide (currentPlayerId = Some playerId)) then
          (Throw (GameError "NOT_YOUR_TURN" "It is not your turn"), srv)
        else
          match findPlayer (players g) playerId with
          | None =>
              (Throw (GameError "PLAYER_NOT_FOUND"
                        "Player not found in game"), srv)
          | Some player =>
              match payload with
              | None =>
                  (Throw (Error ("Cannot read properties of undefined "
                                   +:+ "(reading 'length')")), srv)
              | Some dieIds =>
                  if negb (length dieIds =? DICE_PER_SELECTION)%nat then
                    (Throw (GameError "INVALID_SELECTION"
                              ("Must select exactly "
                                 +:+ pretty DICE_PER_SELECTION +:+ " dice")),
                     srv)
                  else
                    (* the first die id that fails a check decides the
                       error *)
                    let check dieId :=
                      match findDie (dice player) dieId with
                      | None =>
                          Some (GameError "INVALID_DIE"
                                  ("Die " +:+ dieId +:+ " not found"))
                      | Some die =>
                          if isSpent die then
                            Some (GameError "DIE_ALREADY_SPENT"
                                    ("Die " +:+ dieId
                                       +:+ " has already been used"))
                          else None
                      end in
                    match omap check dieIds with
                    | err :: _ => (Throw err, srv)
                    | [] =>
                        let '(actor', srv) :=
                          actorSend O room actor
                            (SELECT_DICE playerId dieIds) srv in
                        persist room actor' srv
                    end
              end
          end
  end.

Definition confirmSelection (O : Oracle) (room playerId : string)
    (srv : Server) : Exn GameState * Server :=
  match gameActors srv !! room with
  | None =>
      (Throw (GameError "GAME_NOT_FOUND" "Game not found or not started"),
       srv)
  | Some actor =>
      if negb (bool_decide (snap_value (snapshot actor) = st_set_selection))
      then
        (Throw (GameError "INVALID_PHASE" "Not in set selection phase"), srv)
      else
        let g := getGameStateFromActor actor in
        let hasSelection :=
          match pendingSelections g !! playerId with
          | Some selection => (length selection =? DICE_PER_SELECTION)%nat
          | None => false
          end in
        if negb hasSelection then
          (Throw (GameError "NO_SELECTION" "No dice selection to confirm"),
           srv)
        else if bool_decide
                  (is_Some (pendingSelections g !! confirmedKey playerId))
        then
          (Throw (GameError "ALREADY_CONFIRMED"
                    "Selection already confirmed"), srv)
        else
          let '(actor', srv) :=
            actorSend O room actor (CONFIRM_SELECTION playerId) srv in
          (* the timer of the next turn-holder, read off the state as
             it was before the event *)
          let srv :=
            if bool_decide
                 (turnOrder g !! currentTurnIndex g = Some playerId)
            then
              if (currentTurnIndex g + 1 <? length (turnOrder g))%nat
              then startTurnTimer room srv
              else srv
            else srv in
          persist room actor' srv
  end.

Definition triggerTurnTimeout (O : Oracle) (room : string) (srv : Server)
    : Exn GameState * Server :=
  match gameActors srv !! room with
  | None =>
      (Throw (GameError "GAME_NOT_FOUND" "Game not found or not started"),
       srv)
  | Some actor =>
      let stateBefore := getGameStateFromActor actor in
      let timedOutPlayerId :=
        turnOrder stateBefore !! currentTurnIndex stateBefore in
      let '(actor', srv) := actorSend O room actor TURN_TIMEOUT srv in
      let '(result, srv) := persist room actor' srv in
      let currentState := getGameStateFromActor actor' in
      let srv :=
        match timedOutPlayerId with
        | Some playerId =>
            let autoSelectedDieIds :=
              default [] (pendingSelections currentState !! playerId) in
            if negb (bool_decide (playerId = ""))
               && (0 <? length autoSelectedDieIds)%nat
            then
              GameGateway.handleAutoSelection room playerId
                autoSelectedDieIds currentState srv
            else srv
        | None => srv
        end in
      (result, srv)
  end.

Definition triggerPredictionTimeout (O : Oracle) (room : string)
    (srv : Server) : Exn GameState * Server :=
  match gameActors srv !! room with
  | None =>
      (Throw (GameError "GAME_NOT_FOUND" "Game not found or not started"),
       srv)
  | Some actor =>
      let stateBefore := getGameStateFromActor actor in
      let playersWithoutPrediction :=
        map player_id
          (List.filter (fun p => bool_decide (prediction p = None))
             (players stateBefore)) in
      let '(actor', srv) := actorSend O room actor PREDICTION_TIMEOUT srv in
      let '(result, srv) := persist room actor' srv in
      let currentState := getGameStateFromActor actor' in
      let srv :=
        if (0 <? length playersWithoutPrediction)%nat then
          GameGateway.handleAutoPrediction room playersWithoutPrediction
            currentState srv
        else srv in
      (result, srv)
  end.

Definition advanceToNextSet (O : Oracle) (room : string) (srv : Server)
    : Exn GameState * Server :=
  match gameActors srv !! room with
  | None =>
      (Throw (GameError "GAME_NOT_FOUND" "Game not found or not started"),
       srv)
  | Some actor =>
      if negb (bool_decide (snap_value (snapshot actor) = st_set_reveal))
      then (Throw (GameError "INVALID_PHASE" "Not in set reveal phase"), srv)
      else
        let '(actor', srv) := actorSend O room actor NEXT_SET srv in
        let '(result, srv) := persist room actor' srv in
        let srv :=
          if bool_decide
               (phase (getGameStateFromActor actor') = SET_SELECTION)
          then startTurnTimer room srv
          else srv in
        (result, srv)
  end.

Definition advanceToNextRound (O : Oracle) (room : string) (srv : Server)
    : Exn GameState * Server :=
  match gameActors srv !! room with
  | None =>
      (Throw (GameError "GAME_NOT_FOUND" "Game not found or not started"),
       srv)
  | Some actor =>
      if negb (bool_decide (snap_value (snapshot actor) = st_round_summary))
      then
        (Throw (GameError "INVALID_PHASE" "Not in round summary phase"), srv)
      else
        let '(actor', srv) := actorSend O room actor NEXT_ROUND srv in
        persist room actor' srv
  end.
End GameService.

(** *** A message handler of the gateway ([game.gateway.ts]) *)

Record Client := mkClient {
  client_id : string;
  data_playerId : option string;
  data_roomCode : option string
}.

(** A value of [client.data] that is set and not the empty string. *)
Definition truthy (o : option string) : option string :=
  match o with
  | Some s => if bool_decide (s = "") then None else Some s
  | None => None
  end.

Module GatewayMessages.

Definition handlePredictionSubmit (O : Oracle) (client : Client)
    (t : PredictionType) (srv : Server) : Server :=
  match truthy (data_playerId client), truthy (data_roomCode client) with
  | Some playerId, Some room =>
      match GameService.submitPrediction O room playerId t srv with
      | (Ok g, srv) =>
          let srv := emit (ToRoom room) (prediction_submitted playerId) srv in
          let allSubmitted :=
            forallb (fun p => negb (bool_decide (prediction p = None)))
              (players g) in
          if allSubmitted then
            emit (ToRoom room) prediction_allSubmitted srv
          else srv
      | (Throw (GameError code message), srv) =>
          emit (ToClient (client_id client)) (room_error message code) srv
      | (Throw _, srv) =>
          emit (ToClient (client_id client))
            (room_error "Failed to submit prediction" "PREDICTION_FAILED")
            srv
      end
  | _, _ =>
      emit (ToClient (client_id client))
        (room_error "Not in a room" "NOT_IN_ROOM") srv
  end.
End GatewayMessages.

(** ** The wording of the specification

    The definitions below follow the specification, not the code; the
    properties compare them with the code. *)

(** The hand of the values sorted as [(low, mid, high)]. *)
Definition SpecHand (low mid high : Z) (h : EvaluatedHand) : Prop :=
  if decide (low = mid /\ mid = high) then
    rank h = TRIPLE /\ primaryValue h = high
  else if decide (mid = low + 1 /\ high = mid + 1) then
    rank h = STRAIGHT /\ primaryValue h = high
  else if decide (low = mid) then
    rank h = DOUBLE /\ primaryValue h = low /\ secondaryValue h = high
  else if decide (mid = high) then
    rank h = DOUBLE /\ primaryValue h = high /\ secondaryValue h = low
  else
    rank h = SINGLE /\ primaryValue h = high /\ secondaryValue h = mid
    /\ tertiaryValue h = low.

(** The four straights. *)
Definition specStraights : list (Z * Z * Z) :=
  [(1, 2, 3); (2, 3, 4); (3, 4, 5); (4, 5, 6)].

(** The ranges of the specification's table, by player count; the MIN of
    two players is unused. *)
Definition specRange (playerCount : nat) (t : PredictionType)
    : option (Z * Z) :=
  match playerCount, t with
  | 2%nat, ZERO => Some (0, 0)
  | 2%nat, MIN => None
  | 2%nat, MORE => Some (6, 6)
  | 2%nat, MAX => Some (12, 12)
  | 3%nat, ZERO => Some (0, 0)
  | 3%nat, MIN => Some (3, 3)
  | 3%nat, MORE => Some (6, 9)
  | 3%nat, MAX => Some (10, 12)
  | 4%nat, ZERO => Some (0, 0)
  | 4%nat, MIN => Some (1, 4)
  | 4%nat, MORE => Some (6, 9)
  | 4%nat, MAX => Some (10, 12)
  | 5%nat, ZERO => Some (0, 0)
  | 5%nat, MIN => Some (1, 4)
  | 5%nat, MORE => Some (5, 8)
  | 5%nat, MAX => Some (10, 12)
  | 6%nat, ZERO => Some (0, 0)
  | 6%nat, MIN => Some (1, 4)
  | 6%nat, MORE => Some (5, 9)
  | 6%nat, MAX => Some (10, 12)
  | _, _ => None
  end.

(** The round total lies in the closed range of the prediction. *)
Definition specInRange (playerCount : nat) (t : PredictionType) (total : Z)
    : Prop :=
  exists lo hi, specRange playerCount t = Some (lo, hi) /\ lo <= total <= hi.

(** ** Concrete rooms, used as examples *)

Definition exampleHost : Player :=
  mkPlayer "host" "Ann" "s1" [] 0 0 0 0 None true false true.

Definition exampleGuest : Player :=
  mkPlayer "guest" "Bob" "s2" [] 0 0 0 0 None true true false.

Definition exampleLobby : GameState :=
  mkGameState "ABCDEF" LOBBY [exampleHost; exampleGuest]
    (mkConfig 4 3 30) 0 1 [] 0 ∅ [] [] [] "host" 0.

Definition exampleOracle : Oracle :=
  mkOracle (fun n => Z.of_nat n * 1501199875790165 + 7)
    (fun n => "die-" +:+ pretty n).

(** A room in the prediction phase in which the host has predicted. *)
Definition examplePredictionRoom : GameState :=
  mkGameState "ABCDEF" PREDICTION
    [withPrediction (Some MORE) exampleHost; exampleGuest]
    (mkConfig 4 3 30) 1 1 ["host"; "guest"] 0 ∅ [] []
    [mkRoll "host" 5; mkRoll "guest" 9] "host" 0.

Definition examplePredictionServer : Server :=
  mkServer
    {[ "ABCDEF" :=
         mkActor
           (mkSnapshot st_prediction (mkContext examplePredictionRoom None 0))
           false ]}
    {[ gameKey "ABCDEF" := examplePredictionRoom ]}
    (mkEntropy 0 0) ∅ [].

Definition exampleHostClient : Client :=
  mkClient "s1" (Some "host") (Some "ABCDEF").

(** The per-placement points of the specification's table; a placement the
    table does not list scores nothing. *)
Definition specPoints (playerCount place : nat) : Z :=
  match playerCount, place with
  | 2%nat, 1%nat => 6 | 2%nat, 2%nat => 0
  | 3%nat, 1%nat => 6 | 3%nat, 2%nat => 3 | 3%nat, 3%nat => 0
  | 4%nat, 1%nat => 6 | 4%nat, 2%nat => 3 | 4%nat, 3%nat => 1
  | 4%nat, 4%nat => 0
  | 5%nat, 1%nat => 6 | 5%nat, 2%nat => 4 | 5%nat, 3%nat => 2
  | 5%nat, 4%nat => 1 | 5%nat, 5%nat => 0
  | 6%nat, 1%nat => 6 | 6%nat, 2%nat => 4 | 6%nat, 3%nat => 3
  | 6%nat, 4%nat => 2 | 6%nat, 5%nat => 1 | 6%nat, 6%nat => 0
  | _, _ => 0
  end.

(** The sum of the points of the placements [k .. k+t-1]. *)
Fixpoint specPointsSum (playerCount k t : nat) : Z :=
  match t with
  | O => 0
  | S t' => specPoints playerCount k + specPointsSum playerCount (S k) t'
  end.

(** Two selections tie when their hands compare equal. *)
Definition tied (a b : PlayerSelection) : bool :=
  compareHands (sel_hand a) (sel_hand b) =? 0.

(** The selections at the front of [l] that tie with [first]. *)
Fixpoint tiePrefix (first : PlayerSelection) (l : list PlayerSelection)
    : list PlayerSelection :=
  match l with
  | [] => []
  | x :: l' => if tied first x then x :: tiePrefix first l' else []
  end.

(** A sorted list cut into its tie groups: maximal runs of neighbours that
    tie. *)
Fixpoint tieGroups (l : list PlayerSelection) : list (list PlayerSelection) :=
  match l with
  | [] => []
  | s :: rest =>
      match tieGroups rest with
      | g :: gs =>
          if default false (tied s <$> head g) then (s :: g) :: gs
          else [s] :: g :: gs
      | [] => [[s]]
      end
  end.

(** The walk over the tie groups: the group at placement [k] with [t]
    members gives each of them placement [k] and the points of the
    placements [k .. k+t-1] divided by [t], the quotient taken through
    [round]; the next group starts at [k + t]. *)
Fixpoint walkWith (round : Q -> Q) (playerCount k : nat)
    (groups : list (list PlayerSelection)) : list SetResult :=
  match groups with
  | [] => []
  | g :: gs =>
      let t := length g in
      map (fun s =>
             {| sr_playerId := sel_playerId s;
                sr_hand := sel_hand s;
                diceUsed := default [] (sel_diceUsed s);
                diceValues := default [] (sel_diceValues s);
                placement := k;
                pointsEarned :=
                  round (inject_Z (specPointsSum playerCount k t)
                           / inject_Z (Z.of_nat t))%Q |}) g
      ++ walkWith round playerCount (k + t) gs
  end.

(** The walk of the specification, which awards the quotient itself. *)
Definition specWalk : nat -> nat -> list (list PlayerSelection)
    -> list SetResult :=
  walkWith (fun q => q).

(** The walk that awards the double nearest to the quotient. *)
Definition roundedWalk : nat -> nat -> list (list PlayerSelection)
    -> list SetResult :=
  walkWith fl.

(** Four selections: a triple of sixes and three straights 3-4-5. *)
Definition exampleSelections : list PlayerSelection :=
  [ mkSelection "P2" (mkHand STRAIGHT 5 0 0 "Straight 3-4-5") None None;
    mkSelection "P1" (mkHand TRIPLE 6 0 0 "Triple 6s") None None;
    mkSelection "P3" (mkHand STRAIGHT 5 0 0 "Straight 3-4-5") None None;
    mkSelection "P4" (mkHand STRAIGHT 5 0 0 "Straight 3-4-5") None None ].

(** The position of a player in the round-1 order, if the player is in
    it. *)
Definition specPosition (order : list string) (playerId : string)
    : option nat :=
  fst <$> list_find (fun x => x = playerId) order.

(** The position of the last occurrence of an id in the round-1 order. *)
Fixpoint lastPosition (order : list string) (playerId : string)
    : option nat :=
  match order with
  | [] => None
  | x :: rest =>
      match lastPosition rest playerId with
      | Some i => Some (S i)
      | None => if decide (x = playerId) then Some 0%nat else None
      end
  end.

(** [a] may go before [b]: a higher cumulative score, or the same score and
    a position that is not later, a player without a position going last. *)
Definition beforeBy (position : string -> option nat) (a b : Player)
    : Prop :=
  (cumulativeScore b < cumulativeScore a)%Q
  \/ ((cumulativeScore a == cumulativeScore b)%Q
      /\ match position (player_id a), position (player_id b) with
         | Some i, Some j => (i <= j)%nat
         | Some _, None => True
         | None, Some _ => False
         | None, None => True
         end).

(** The order of the specification, which reads the position of an id as
    that of its first occurrence. *)
Definition specBefore (order : list string) : Player -> Player -> Prop :=
  beforeBy (specPosition order).

(** Two players with the same score, for an order that names one of them
    twice. *)
Definition exampleTiedPlayers : list Player :=
  [ mkPlayer "a" "A" "s1" [] 3 0 0 0 None true true true;
    mkPlayer "c" "C" "s3" [] 3 0 0 0 None true true false ].

Definition exampleTurnPlayers : list Player :=
  [ mkPlayer "a" "A" "s1" [] 3 0 0 0 None true true true;
    mkPlayer "b" "B" "s2" [] 5 0 0 0 None true true false;
    mkPlayer "c" "C" "s3" [] 3 0 0 0 None true true false;
    mkPlayer "d" "D" "s4" [] 3 0 0 0 None true true false ].

(** ** Playing a game through

    The event sequence of a full game, each event built from the state it is
    sent to: every player submits a prediction; in each set every player, in
    turn order, selects three dice and confirms; [NEXT_SET] follows a set
    and [NEXT_ROUND] the round summary. *)

Record Strategy := mkStrategy {
  choosePrediction : GameState -> string -> PredictionType;
  chooseDice : GameState -> string -> list string
}.

(** Send the event [f] builds from the current state, unless an earlier
    event raised an exception. *)
Definition thenSend (O : Oracle) (f : GameState -> GameMachineEvent)
    (out : Outcome) : Outcome :=
  match out with
  | (Ok s, e) => machine.send O s (f (gameState (snap_context s))) e
  | (Throw err, e) => (Throw err, e)
  end.

Definition submitAll (O : Oracle) (strat : Strategy) (out : Outcome)
    : Outcome :=
  match out with
  | (Ok s, _) =>
      foldl (fun out playerId =>
               thenSend O (fun g =>
                             SUBMIT_PREDICTION playerId
                               (choosePrediction strat g playerId)) out)
        out (map player_id (players (gameState (snap_context s))))
  | _ => out
  end.

Definition playTurn (O : Oracle) (strat : Strategy) (out : Outcome)
    (playerId : string) : Outcome :=
  thenSend O (fun _ => CONFIRM_SELECTION playerId)
    (thenSend O (fun g => SELECT_DICE playerId (chooseDice strat g playerId))
       out).

Definition playSet (O : Oracle) (strat : Strategy) (out : Outcome)
    : Outcome :=
  match out with
  | (Ok s, _) =>
      foldl (playTurn O strat) out (turnOrder (gameState (snap_context s)))
  | _ => out
  end.

Definition playRound (O : Oracle) (strat : Strategy) (out : Outcome)
    : Outcome :=
  let out := submitAll O strat out in
  let out := playSet O strat out in
  let out := thenSend O (fun _ => NEXT_SET) out in
  let out := playSet O strat out in
  let out := thenSend O (fun _ => NEXT_SET) out in
  thenSend O (fun _ => NEXT_ROUND) out.

Definition playGame (O : Oracle) (strat : Strategy) (g : GameState)
    (e : Entropy) (rounds : nat) : Outcome :=
  Nat.iter rounds (playRound O strat)
    (machine.send O (machine.createGameActor g) START_GAME e).

(** The strategy that predicts MORE and takes the first three unspent
    dice. *)
Definition firstUnspent : Strategy :=
  mkStrategy (fun _ _ => MORE)
    (fun g playerId =>
       match findPlayer (players g) playerId with
       | Some p =>
           map die_id (take 3 (filter (fun d => isSpent d = false) (dice p)))
       | None => []
       end).

(** ** States an engine can reach

    An engine starts as the actor created for a room and changes by the
    events delivered to it, whatever they are and whatever randomness is
    left when they arrive. *)

Inductive engineReachable (O : Oracle) (g0 : GameState) : Actor -> Prop :=
| engine_created :
    engineReachable O g0 (mkActor (machine.createGameActor g0) false)
| engine_event a event e :
    engineReachable O g0 a ->
    engineReachable O g0 (fst (machine.deliver O a event e)).

(** No set score and no round score is negative. *)
Definition scoresNonneg (ps : list Player) : Prop :=
  Forall (fun p => (0 <= set1Score p /\ 0 <= set2Score p
                    /\ 0 <= currentRoundScore p)%Q) ps.

(** The same players, in the same order, none with a lower cumulative
    score. *)
Definition scoresGrow (ps ps' : list Player) : Prop :=
  Forall2 (fun p p' => player_id p = player_id p'
                       /\ (cumulativeScore p <= cumulativeScore p')%Q)
    ps ps'.

(** From players without negative scores, a step yields such players again,
    none with a lower cumulative score. *)
Definition okPlayers (ps ps' : list Player) : Prop :=
  scoresNonneg ps -> scoresNonneg ps' /\ scoresGrow ps ps'.

Definition outcomeOK (ps : list Player) (out : Outcome) : Prop :=
  match out with
  | (Ok s, _) => okPlayers ps (players (gameState (snap_context s)))
  | (Throw _, _) => True
  end.

(** ** Notions used to describe a set's results *)

(** The walk over tie groups with the points [getPlacementPoints] gives,
    whatever the player count. *)
Fixpoint groupWalk (playerCount k : nat) (groups : list (list PlayerSelection))
    : list SetResult :=
  match groups with
  | [] => []
  | g :: gs =>
      map (fun s =>
             {| sr_playerId := sel_playerId s;
                sr_hand := sel_hand s;
                diceUsed := default [] (sel_diceUsed s);
                diceValues := default [] (sel_diceValues s);
                placement := k;
                pointsEarned :=
                  fl (inject_Z (pointsLoop (length g) k playerCount 0)
                        / inject_Z (Z.of_nat (length g))) |}) g
      ++ groupWalk playerCount (k + length g) gs
  end.

(** How many selections have a strictly better hand than [s], and how many
    tie with it ([s] included when it is among them). *)
Definition betterCount (selections : list PlayerSelection)
    (s : PlayerSelection) : nat :=
  length (filter (fun x => 0 < compareHands (sel_hand x) (sel_hand s))
            selections).

Definition tiedCount (selections : list PlayerSelection)
    (s : PlayerSelection) : nat :=
  length (filter (fun x => compareHands (sel_hand x) (sel_hand s) = 0)
            selections).

(** Groups of ties, each strictly better than all that follow. *)
Fixpoint GroupsOK (groups : list (list PlayerSelection)) : Prop :=
  match groups with
  | [] => True
  | g :: gs =>
      g <> []
      /\ (forall a b, a ∈ g -> b ∈ g ->
            compareHands (sel_hand a) (sel_hand b) = 0)
      /\ (forall a g' b, a ∈ g -> g' ∈ gs -> b ∈ g' ->
            0 < compareHands (sel_hand a) (sel_hand b))
      /\ GroupsOK gs
  end.

(** The points of a list of results, added up. *)
Definition sumPoints (results : list SetResult) : Q :=
  foldr (fun r acc => (pointsEarned r + acc)%Q) 0%Q results.

(** The points of the placements [k], [k+1], ..., [k+t-1] added up. *)
Definition placementPointsSum (playerCount k t : nat) : Z :=
  foldr Z.add 0 (map (fun p => getPlacementPoints p playerCount) (seq k t)).

(** What one result says about the selection it was made from. *)
Definition standingOf (selections : list PlayerSelection) (n : nat)
    (s : PlayerSelection) (r : SetResult) : Prop :=
  sr_playerId r = sel_playerId s
  /\ sr_hand r = sel_hand s
  /\ diceUsed r = default [] (sel_diceUsed s)
  /\ diceValues r = default [] (sel_diceValues s)
  /\ placement r = S (betterCount selections s)
  /\ pointsEarned r
     = fl (inject_Z (placementPointsSum n (S (betterCount selections s))
                       (tiedCount selections s))
             / inject_Z (Z.of_nat (tiedCount selections s))).

(** A player just dealt: the same player with eleven fresh dice. *)
Definition dealt (p p' : Player) : Prop :=
  (exists ds, p' = withDice ds p)
  /\ map color (dice p') = replicate 9 WHITE ++ [RED; BLUE]
  /\ Forall (fun d => isSpent d = false /\ 1 <= value d <= 6) (dice p').

(** Whether every die id a player has selected is the id of one of the
    player's dice. *)
Definition selectionsKnown (g : GameState) : Prop :=
  Forall (fun p =>
            Forall (fun dieId => is_Some (findDie (dice p) dieId))
              (default [] (pendingSelections g !! player_id p)))
    (players g).

(** ** What a game keeps *)

(** Who a player is, apart from dice, scores and prediction. *)
Definition person (p : Player)
    : string * string * string * bool * bool * bool :=
  (player_id p, name p, socketId p, isConnected p, isReady p, isHost p).

(** The part of a game state that playing does not touch. *)
Definition static (g : GameState)
    : string * GameConfig * string * Z
      * list (string * string * string * bool * bool * bool) :=
  (roomCode g, config g, hostId g, createdAt g, map person (players g)).

(** The round and set counters. *)
Definition roundOf (g : GameState) : Z * Z := (currentRound g, currentSet g).

(** The phase that belongs to a state of the machine. *)
Definition phaseOf (v : StateValue) : GamePhase :=
  match v with
  | st_lobby => LOBBY
  | st_initial_roll => INITIAL_ROLL
  | st_prediction => PREDICTION
  | st_set_selection => SET_SELECTION
  | st_set_reveal => SET_REVEAL
  | st_round_summary => ROUND_SUMMARY
  | st_game_over => GAME_OVER
  end.

(** A value of a game state that a transition's outcome, if it has one,
    shares with the context the transition started from. *)
Definition keeps {T : Type} (F : GameState -> T) (c : GameMachineContext)
    (out : Outcome) : Prop :=
  match out with
  | (Ok s, _) => F (gameState (snap_context s)) = F (gameState c)
  | (Throw _, _) => True
  end.

(** The moves between the machine's states that follow the course of a
    game; staying is one of them. *)
Definition follows (v v' : StateValue) : bool :=
  match v, v' with
  | st_lobby, (st_lobby | st_prediction | st_set_selection) => true
  | st_initial_roll, st_initial_roll => true
  | st_prediction, (st_prediction | st_set_selection) => true
  | st_set_selection, (st_set_selection | st_set_reveal) => true
  | st_set_reveal, (st_set_reveal | st_set_selection | st_round_summary) =>
      true
  | st_round_summary, (st_round_summary | st_prediction | st_game_over) =>
      true
  | st_game_over, st_game_over => true
  | _, _ => false
  end.

(** A snapshot whose game state shows the phase of the machine's state. *)
Definition synced (s : Snapshot) : Prop :=
  phase (gameState (snap_context s)) = phaseOf (snap_value s).

(** Events delivered one after the other. *)
Fixpoint deliverAll (O : Oracle) (events : list GameMachineEvent)
    (a : Actor) (e : Entropy) : Actor * Entropy :=
  match events with
  | [] => (a, e)
  | event :: events' =>
      deliverAll O events' (fst (machine.deliver O a event e))
        (snd (machine.deliver O a event e))
  end.

(** A game of one round for two players in which every choice is left to
    the timers, ended after its summary. *)
Definition exampleTimedOutGame : list GameMachineEvent :=
  [START_GAME; PREDICTION_TIMEOUT; TURN_TIMEOUT; TURN_TIMEOUT; NEXT_SET;
   TURN_TIMEOUT; TURN_TIMEOUT; NEXT_SET; END_GAME].

(** ** Requests to the game service *)

(** What holds of a request's result when the request is turned down with
    a GameError: the server is as it was. *)
Definition turnedDown (srv : Server) (r : Exn GameState * Server) : Prop :=
  forall code message,
    fst r = Throw (GameError code message) -> snd r = srv.

(** What holds of a request's result when the request is served: the state
    returned is the one of the room's actor and the one stored for the
    room. *)
Definition served (room : string) (r : Exn GameState * Server) : Prop :=
  forall g,
    fst r = Ok g ->
    redis (snd r) !! gameKey room = Some g
    /\ exists actor,
         gameActors (snd r) !! room = Some actor
         /\ getGameStateFromActor actor = g.

(** Sending messages and ticking timers leaves actors and stored states
    alone. *)
Definition sameStores (srv srv' : Server) : Prop :=
  gameActors srv' = gameActors srv /\ redis srv' = redis srv.

(** A server whose room "ABCDEF" is in the selection phase of set 1, the
    host being the turn-holder. *)
Definition exampleSelectionServer : Server :=
  mkServer
    {[ "ABCDEF" :=
         fst (deliverAll exampleOracle [START_GAME; PREDICTION_TIMEOUT]
                (mkActor (machine.createGameActor exampleLobby) false)
                (mkEntropy 0 0)) ]}
    ∅ (mkEntropy 100 100) ∅ [].

(** ** Rooms and their host *)

(** Exactly one player carries the host flag, and [hostId] is that
    player's id. *)
Definition hostOK (g : GameState) : Prop :=
  exists p,
    filter (fun q => isHost q = true) (players g) = [p]
    /\ player_id p = hostId g.

(** Every stored room has its one host. *)
Definition roomsOK (store : gmap string GameState) : Prop :=
  map_Forall (fun _ g => hostOK g) store.

(** The context of the example game at the moment both players have a
    confirmed selection in set 1, before the set is revealed. *)
Definition exampleConfirmedContext : GameMachineContext :=
  actions.autoSelectDice
    (snap_context
       (snapshot
          (fst (deliverAll exampleOracle
                  [START_GAME; PREDICTION_TIMEOUT; TURN_TIMEOUT]
                  (mkActor (machine.createGameActor exampleLobby) false)
                  (mkEntropy 0 0))))).

(** ** States for NEXT_SET and TURN_TIMEOUT *)









(** * Properties *)

(** ** Rounding to the nearest double *)

Lemma pow2_pos e : (0 < pow2 e)%Q.
Proof. apply Qpower_0_lt. reflexivity. Qed.

Lemma pow2_add a b : (pow2 (a + b) == pow2 a * pow2 b)%Q.
Proof. apply Qpower_plus. intros H. discriminate H. Qed.

Lemma pow2_le a b : a <= b -> (pow2 a <= pow2 b)%Q.
Proof. intros H. apply Qpower_le_compat_l; [done|]. unfold Qle. simpl. lia. Qed.

Lemma pow2_lt a b : a < b -> (pow2 a < pow2 b)%Q.
Proof. intros H. apply Qpower_lt_compat_l; [done|]. reflexivity. Qed.

Lemma pow2_lt_inv a b : (pow2 a < pow2 b)%Q -> a < b.
Proof. intros H. apply (Qpower_lt_compat_l_inv 2); [done|reflexivity]. Qed.

Lemma pow2_Z k : 0 <= k -> (pow2 k == inject_Z (2 ^ k))%Q.
Proof. intros H. unfold pow2. by rewrite Zpower_Qpower. Qed.

Lemma pow2_succ a : (pow2 (a + 1) == 2 * pow2 a)%Q.
Proof. rewrite pow2_add. change (pow2 1) with 2%Q. ring. Qed.

Lemma pow2_pred a : (pow2 (a - 1) == pow2 a * (1 # 2))%Q.
Proof.
  replace a with ((a - 1) + 1) at 2 by lia. rewrite pow2_succ. ring.
Qed.

(** *** The binade *)

Lemma Q_as_fraction (a : Q) :
  (a == inject_Z (Qnum a) / inject_Z (Zpos (Qden a)))%Q.
Proof.
  destruct a as [n d]. cbn [Qnum Qden]. unfold Qeq, Qdiv, Qmult, Qinv.
  simpl. lia.
Qed.

Lemma fraction_bounds (a N D K Pn Pd : Q) :
  (0 < Pd)%Q -> (0 < K)%Q -> (a * D == N)%Q -> (K * Pd == Pn)%Q ->
  (Pn <= N < 2 * Pn)%Q -> (Pd <= D < 2 * Pd)%Q ->
  (K < 2 * a < 4 * K)%Q.
Proof.
  intros HPd HK HN HP [N1 N2] [D1 D2].
  assert (HD : (0 < D)%Q) by lra.
  split.
  - apply Qnot_le_lt. intros Hle.
    assert (2 * a * D <= K * D)%Q by (apply Qmult_le_compat_r; lra).
    assert (K * D < K * (2 * Pd))%Q
      by (apply (Qmult_lt_l D (2 * Pd) K); [lra|lra]).
    lra.
  - apply Qnot_le_lt. intros Hle.
    assert (4 * K * D <= 2 * a * D)%Q by (apply Qmult_le_compat_r; lra).
    assert (K * Pd <= K * D)%Q
      by (apply (Qmult_le_l Pd D K); [lra|lra]).
    lra.
Qed.

Lemma binade_spec (a : Q) :
  (0 < a)%Q -> (pow2 (binade a) <= a < pow2 (binade a + 1))%Q.
Proof.
  intros Ha.
  assert (Hn : 0 < Qnum a).
  { unfold Qlt in Ha. simpl in Ha. lia. }
  pose proof (Z.log2_spec (Qnum a) Hn) as [Hn1 Hn2].
  pose proof (Z.log2_spec (Zpos (Qden a)) ltac:(done)) as [Hd1 Hd2].
  pose proof (Z.log2_nonneg (Qnum a)) as Hln.
  pose proof (Z.log2_nonneg (Zpos (Qden a))) as Hld.
  set (ln := Z.log2 (Qnum a)) in *.
  set (ld := Z.log2 (Zpos (Qden a))) in *.
  rewrite Z.pow_succ_r in Hn2, Hd2 by done.
  pose proof (pow2_Z ln Hln) as En. pose proof (pow2_Z ld Hld) as Ed.
  pose proof (pow2_pos ln) as Pn. pose proof (pow2_pos ld) as Pd.
  assert (Hnum : (pow2 ln <= inject_Z (Qnum a) < 2 * pow2 ln)%Q).
  { rewrite En. split.
    - by rewrite <- Zle_Qle.
    - assert (2 * inject_Z (2 ^ ln) == inject_Z (2 * 2 ^ ln))%Q as ->
        by (rewrite inject_Z_mult; reflexivity).
      by rewrite <- Zlt_Qlt. }
  assert (Hden : (pow2 ld <= inject_Z (Zpos (Qden a)) < 2 * pow2 ld)%Q).
  { rewrite Ed. split.
    - by rewrite <- Zle_Qle.
    - assert (2 * inject_Z (2 ^ ld) == inject_Z (2 * 2 ^ ld))%Q as ->
        by (rewrite inject_Z_mult; reflexivity).
      by rewrite <- Zlt_Qlt. }
  assert (Hk : (pow2 (ln - ld) == pow2 ln / pow2 ld)%Q).
  { unfold pow2. apply Qpower_minus. intros H; discriminate H. }
  pose proof (pow2_pos (ln - ld)) as Pk.
  assert (Hfrac : (a * inject_Z (Zpos (Qden a)) == inject_Z (Qnum a))%Q).
  { rewrite (Q_as_fraction a) at 1. field. intros H; discriminate H. }
  set (N := inject_Z (Qnum a)) in *. set (D := inject_Z (Zpos (Qden a))) in *.
  assert (Hk' : (pow2 (ln - ld) * pow2 ld == pow2 ln)%Q).
  { rewrite Hk. field. lra. }
  set (K := pow2 (ln - ld)) in *.
  destruct (fraction_bounds a N D K (pow2 ln) (pow2 ld))
    as [Hlo Hhi]; try done.
  unfold binade. fold ln ld. fold K.
  destruct (Qle_bool K a) eqn:E.
  - apply Qle_bool_iff in E. split; [done|].
    rewrite pow2_succ. fold K. lra.
  - assert (a < K)%Q as Hlt.
    { apply Qnot_le_lt. intros Hle. apply Qle_bool_iff in Hle. congruence. }
    replace (ln - ld - 1 + 1) with (ln - ld) by lia.
    rewrite pow2_pred. fold K. split; [lra|done].
Qed.

Lemma binade_unique (a : Q) (b : Z) :
  (pow2 b <= a < pow2 (b + 1))%Q -> binade a = b.
Proof.
  intros [H1 H2].
  assert (0 < a)%Q as Ha by (pose proof (pow2_pos b); lra).
  destruct (binade_spec a Ha) as [H3 H4].
  assert (b < binade a + 1).
  { apply pow2_lt_inv. lra. }
  assert (binade a < b + 1).
  { apply pow2_lt_inv. lra. }
  lia.
Qed.

Lemma binade_mono (a b : Q) :
  (0 < a)%Q -> (a <= b)%Q -> binade a <= binade b.
Proof.
  intros Ha Hab.
  destruct (binade_spec a Ha) as [H1 H2].
  destruct (binade_spec b ltac:(lra)) as [H3 H4].
  assert (binade a < binade b + 1); [|lia].
  apply pow2_lt_inv. lra.
Qed.

Lemma binade_Qeq (a b : Q) : (0 < a)%Q -> (a == b)%Q -> binade a = binade b.
Proof.
  intros Ha Hab. symmetry. apply binade_unique. rewrite <- Hab.
  by apply binade_spec.
Qed.

(** *** Rounding to an integer *)

Lemma Qfloor_bounds (x : Q) :
  (inject_Z (Qfloor x) <= x < inject_Z (Qfloor x) + 1)%Q.
Proof.
  split; [apply Qfloor_le|].
  pose proof (Qlt_floor x) as H. rewrite inject_Z_plus in H. exact H.
Qed.

Lemma roundHalfEven_cases (x : Q) :
  let n := Qfloor x in
  (roundHalfEven x = n /\ (x - inject_Z n <= 1 # 2)%Q)
  \/ (roundHalfEven x = n + 1 /\ (1 # 2 <= x - inject_Z n)%Q).
Proof.
  intros n. unfold roundHalfEven. fold n.
  destruct (Qcompare_spec (x - inject_Z n) (1 # 2)) as [E|E|E].
  - destruct (Z.even n); [left|right]; (split; [done|lra]).
  - left. split; [done|lra].
  - right. split; [done|lra].
Qed.

Lemma roundHalfEven_error (x : Q) :
  (x - (1 # 2) <= inject_Z (roundHalfEven x) <= x + (1 # 2))%Q.
Proof.
  pose proof (Qfloor_bounds x) as [H1 H2].
  destruct (roundHalfEven_cases x) as [[-> H]|[-> H]].
  - lra.
  - rewrite inject_Z_plus. change (inject_Z 1) with 1%Q. lra.
Qed.

Lemma roundHalfEven_Qeq (x y : Q) :
  (x == y)%Q -> roundHalfEven x = roundHalfEven y.
Proof.
  intros H. unfold roundHalfEven. rewrite (Qfloor_comp _ _ H).
  assert ((x - inject_Z (Qfloor y) ?= 1 # 2)
          = (y - inject_Z (Qfloor y) ?= 1 # 2))%Q as ->; [|done].
  apply Qcompare_comp; [by rewrite H|done].
Qed.

Lemma roundHalfEven_Z (m : Z) : roundHalfEven (inject_Z m) = m.
Proof.
  unfold roundHalfEven. rewrite Qfloor_Z.
  assert ((inject_Z m - inject_Z m ?= 1 # 2) = Lt)%Q as ->; [|done].
  rewrite <- Qlt_alt. generalize (inject_Z m). intros q. lra.
Qed.

Lemma roundHalfEven_mono (x y : Q) :
  (x <= y)%Q -> roundHalfEven x <= roundHalfEven y.
Proof.
  intros Hxy.
  pose proof (Qfloor_resp_le _ _ Hxy) as Hfl.
  pose proof (Qfloor_bounds x) as [X1 X2].
  pose proof (Qfloor_bounds y) as [Y1 Y2].
  destruct (Z.eq_dec (Qfloor x) (Qfloor y)) as [E|E].
  - unfold roundHalfEven. rewrite E.
    destruct (Qcompare_spec (x - inject_Z (Qfloor y)) (1 # 2)) as [Ex|Ex|Ex];
      destruct (Qcompare_spec (y - inject_Z (Qfloor y)) (1 # 2))
        as [Ey|Ey|Ey];
      try lia; try (exfalso; lra);
      destruct (Z.even (Qfloor y)); try lia; exfalso; lra.
  - destruct (roundHalfEven_cases x) as [[-> _]|[-> _]];
      destruct (roundHalfEven_cases y) as [[-> _]|[-> _]]; lia.
Qed.

Lemma roundHalfEven_le (x : Q) (m : Z) :
  (x <= inject_Z m)%Q -> roundHalfEven x <= m.
Proof.
  intros H. rewrite <- (roundHalfEven_Z m). by apply roundHalfEven_mono.
Qed.

Lemma roundHalfEven_ge (x : Q) (m : Z) :
  (inject_Z m <= x)%Q -> m <= roundHalfEven x.
Proof.
  intros H. rewrite <- (roundHalfEven_Z m) at 1. by apply roundHalfEven_mono.
Qed.

(** *** Rounding to a double *)

Lemma Qnum_pos (q : Q) : (0 < q)%Q <-> 0 < Qnum q.
Proof. unfold Qlt. simpl. lia. Qed.

Lemma Qnum_neg (q : Q) : (q < 0)%Q <-> Qnum q < 0.
Proof. unfold Qlt. simpl. lia. Qed.

Lemma Qnum_zero (q : Q) : (q == 0)%Q <-> Qnum q = 0.
Proof. unfold Qeq. simpl. lia. Qed.

Lemma fl_pos (q : Q) : (0 < q)%Q -> fl q = flPos q.
Proof.
  intros H%Qnum_pos. unfold fl. destruct (Qnum q); done.
Qed.

Lemma fl_neg (q : Q) : (q < 0)%Q -> fl q = (- flPos (- q))%Q.
Proof.
  intros H%Qnum_neg. unfold fl. destruct (Qnum q); done.
Qed.

Lemma fl_zero (q : Q) : (q == 0)%Q -> fl q = 0%Q.
Proof.
  intros H%Qnum_zero. unfold fl. by rewrite H.
Qed.

Lemma scaled_pos (a : Q) (e : Z) : (0 < a)%Q -> (0 < a / pow2 e)%Q.
Proof.
  intros Ha. pose proof (pow2_pos e) as He.
  unfold Qdiv. apply Qmult_lt_0_compat; [done|]. by apply Qinv_lt_0_compat.
Qed.

Lemma scaled_le (a b : Q) (e : Z) :
  (a <= b)%Q -> (a / pow2 e <= b / pow2 e)%Q.
Proof.
  intros H. pose proof (pow2_pos e) as He. unfold Qdiv.
  apply Qmult_le_compat_r; [done|]. apply Qlt_le_weak.
  by apply Qinv_lt_0_compat.
Qed.

Lemma scaled_pow2 (b e : Z) :
  e <= b -> (pow2 b / pow2 e == inject_Z (2 ^ (b - e)))%Q.
Proof.
  intros H. rewrite <- pow2_Z by lia. unfold pow2.
  rewrite Qpower_minus; [reflexivity|]. intros E. discriminate E.
Qed.

Lemma flPos_eq (a : Q) :
  (flPos a
   == inject_Z (roundHalfEven (a / pow2 (quantum a))) * pow2 (quantum a))%Q.
Proof. apply Qred_correct. Qed.

Lemma flPos_nonneg (a : Q) : (0 < a)%Q -> (0 <= flPos a)%Q.
Proof.
  intros Ha. rewrite flPos_eq.
  pose proof (pow2_pos (quantum a)) as He.
  apply Qmult_le_0_compat; [|lra].
  change 0%Q with (inject_Z 0). rewrite <- Zle_Qle.
  apply roundHalfEven_ge. change (inject_Z 0) with 0%Q.
  apply Qlt_le_weak. by apply scaled_pos.
Qed.

Lemma fl_nonneg (q : Q) : (0 <= q)%Q -> (0 <= fl q)%Q.
Proof.
  intros H. destruct (Qlt_le_dec 0 q) as [Hq|Hq].
  - rewrite fl_pos by done. by apply flPos_nonneg.
  - rewrite fl_zero by lra. lra.
Qed.

Lemma flPos_Qeq (a b : Q) : (0 < a)%Q -> (a == b)%Q -> flPos a = flPos b.
Proof.
  intros Ha Hab. unfold flPos, quantum.
  rewrite (binade_Qeq a b Ha Hab).
  set (e := Z.max _ _).
  by rewrite (roundHalfEven_Qeq (a / pow2 e) (b / pow2 e))
    by (by rewrite Hab).
Qed.

Lemma fl_Qeq (a b : Q) : (a == b)%Q -> fl a = fl b.
Proof.
  intros Hab.
  destruct (Q_dec a 0) as [[H|H]|H].
  - rewrite !fl_neg by lra. f_equal. apply flPos_Qeq; [lra|by rewrite Hab].
  - rewrite !fl_pos by lra. by apply flPos_Qeq.
  - rewrite !fl_zero; [done|lra|done].
Qed.

(** A multiple of the quantum that bounds [a] bounds its double. *)
Lemma flPos_le_multiple (a : Q) (m : Z) :
  (0 < a)%Q -> (a <= inject_Z m * pow2 (quantum a))%Q ->
  (flPos a <= inject_Z m * pow2 (quantum a))%Q.
Proof.
  intros Ha H. rewrite flPos_eq. pose proof (pow2_pos (quantum a)) as He.
  apply Qmult_le_compat_r; [|lra]. rewrite <- Zle_Qle.
  apply roundHalfEven_le.
  apply Qle_shift_div_r; done.
Qed.

Lemma flPos_ge_multiple (a : Q) (m : Z) :
  (0 < a)%Q -> (inject_Z m * pow2 (quantum a) <= a)%Q ->
  (inject_Z m * pow2 (quantum a) <= flPos a)%Q.
Proof.
  intros Ha H. rewrite flPos_eq. pose proof (pow2_pos (quantum a)) as He.
  apply Qmult_le_compat_r; [|lra]. rewrite <- Zle_Qle.
  apply roundHalfEven_ge.
  apply Qle_shift_div_l; done.
Qed.

Lemma pow2_multiple (b e : Z) :
  e <= b -> (pow2 b == inject_Z (2 ^ (b - e)) * pow2 e)%Q.
Proof.
  intros H. rewrite <- pow2_Z by lia. rewrite <- pow2_add.
  by replace (b - e + e) with b by lia.
Qed.

Lemma quantum_mono (a b : Q) :
  (0 < a)%Q -> (a <= b)%Q -> quantum a <= quantum b.
Proof.
  intros Ha Hab. unfold quantum.
  pose proof (binade_mono a b Ha Hab). lia.
Qed.

Lemma flPos_mono (a b : Q) :
  (0 < a)%Q -> (a <= b)%Q -> (flPos a <= flPos b)%Q.
Proof.
  intros Ha Hab.
  assert (Hb : (0 < b)%Q) by lra.
  pose proof (quantum_mono a b Ha Hab) as Hq.
  destruct (Z.eq_dec (quantum a) (quantum b)) as [E|E].
  - rewrite !flPos_eq. rewrite E. pose proof (pow2_pos (quantum b)) as He.
    apply Qmult_le_compat_r; [|lra]. rewrite <- Zle_Qle.
    apply roundHalfEven_mono. by apply scaled_le.
  - (* [a] lies below the binade of [b] *)
    assert (Hlt : quantum a < quantum b) by lia.
    assert (Hbq : quantum b = binade b - 52) by (unfold quantum in *; lia).
    assert (Hba : binade a < binade b) by (unfold quantum in *; lia).
    destruct (binade_spec a Ha) as [_ A2].
    destruct (binade_spec b Hb) as [B1 _].
    pose proof (pow2_le (binade a + 1) (binade b) ltac:(lia)) as Hp.
    apply Qle_trans with (pow2 (binade b)).
    + rewrite (pow2_multiple (binade b) (quantum a))
        by (unfold quantum in *; lia).
      apply flPos_le_multiple; [done|].
      rewrite <- pow2_multiple by (unfold quantum in *; lia). lra.
    + rewrite (pow2_multiple (binade b) (quantum b)) by lia.
      apply flPos_ge_multiple; [done|].
      rewrite <- pow2_multiple by lia. done.
Qed.

Lemma fl_mono (a b : Q) : (a <= b)%Q -> (fl a <= fl b)%Q.
Proof.
  intros Hab.
  destruct (Q_dec a 0) as [[Ha|Ha]|Ha]; destruct (Q_dec b 0) as [[Hb|Hb]|Hb];
    try lra.
  - rewrite !fl_neg by done.
    pose proof (flPos_mono (- b) (- a) ltac:(lra) ltac:(lra)). lra.
  - rewrite fl_neg, fl_pos by done.
    pose proof (flPos_nonneg (- a) ltac:(lra)).
    pose proof (flPos_nonneg b ltac:(lra)). lra.
  - rewrite fl_neg by done. rewrite (fl_zero b) by done.
    pose proof (flPos_nonneg (- a) ltac:(lra)). lra.
  - rewrite !fl_pos by done. by apply flPos_mono.
  - rewrite (fl_zero a) by done. apply fl_nonneg. lra.
  - rewrite (fl_zero a), (fl_zero b) by done. lra.
Qed.

(** Rounding cannot reach the next multiple of the quantum from more than
    half a quantum below it. *)
Lemma flPos_below (a : Q) (m : Z) :
  (0 < a)%Q -> (a <= (inject_Z m - (3 # 4)) * pow2 (quantum a))%Q ->
  (flPos a <= (inject_Z m - 1) * pow2 (quantum a))%Q.
Proof.
  intros Ha H. rewrite flPos_eq. pose proof (pow2_pos (quantum a)) as He.
  set (q := quantum a) in *.
  apply Qmult_le_compat_r; [|lra].
  assert (Hx : (a / pow2 q <= inject_Z m - (3 # 4))%Q)
    by (by apply Qle_shift_div_r).
  pose proof (roundHalfEven_error (a / pow2 q)) as [_ Hr].
  assert (Hlt : (inject_Z (roundHalfEven (a / pow2 q)) < inject_Z m)%Q)
    by lra.
  rewrite <- Zlt_Qlt in Hlt.
  assert (inject_Z m - 1 == inject_Z (m - 1))%Q as ->.
  { unfold Zminus. rewrite inject_Z_plus. reflexivity. }
  rewrite <- Zle_Qle. lia.
Qed.

Lemma pow2_inverse (q : Z) : (pow2 (- q) * pow2 q == 1)%Q.
Proof. rewrite <- pow2_add. by replace (- q + q) with 0 by lia. Qed.

(** The product of a number below one that has 53 bits with a small
    integer stays below the integer after rounding. *)
Lemma fl_scaled_lt (r : Q) (n b : Z) :
  (0 <= r <= 1 - pow2 (-53))%Q -> 0 < n -> 0 <= b <= 52 ->
  n <= 2 ^ (b + 1) -> 3 * 2 ^ b <= 2 * n ->
  (0 <= fl (r * inject_Z n) < inject_Z n)%Q.
Proof.
  intros [Hr0 Hr1] Hn Hb Hn1 Hn2.
  assert (HnQ : (0 < inject_Z n)%Q).
  { change 0%Q with (inject_Z 0). by rewrite <- Zlt_Qlt. }
  set (nq := inject_Z n) in *.
  assert (Ha0 : (0 <= r * nq)%Q) by (apply Qmult_le_0_compat; lra).
  split; [by apply fl_nonneg|].
  destruct (Qlt_le_dec 0 (r * nq)) as [Ha|Ha];
    [|rewrite fl_zero by lra; done].
  rewrite fl_pos by done.
  set (a := (r * nq)%Q) in *.
  assert (Hle : (a <= nq - nq * pow2 (-53))%Q).
  { unfold a.
    assert (r * nq <= (1 - pow2 (-53)) * nq)%Q
      by (apply Qmult_le_compat_r; lra).
    lra. }
  pose proof (pow2_pos (-53)) as P53.
  assert (Hnb : (nq <= pow2 (b + 1))%Q).
  { rewrite (pow2_Z (b + 1)) by lia. unfold nq. by rewrite <- Zle_Qle. }
  assert (Hnb' : (3 * pow2 b <= 2 * nq)%Q).
  { rewrite (pow2_Z b) by lia. unfold nq.
    change 3%Q with (inject_Z 3). change 2%Q with (inject_Z 2).
    rewrite <- !inject_Z_mult. by rewrite <- Zle_Qle. }
  assert (Hbin : binade a <= b).
  { destruct (binade_spec a Ha) as [B1 _].
    assert (binade a < b + 1); [|lia].
    apply pow2_lt_inv.
    assert (0 < nq * pow2 (-53))%Q by (apply Qmult_lt_0_compat; lra).
    lra. }
  assert (Hq : quantum a <= b - 52) by (unfold quantum; lia).
  set (q := quantum a) in *.
  pose proof (pow2_pos q) as Pq.
  pose proof (pow2_le q (b - 52) Hq) as Pqb.
  assert (Hb52 : (pow2 (b - 52) == pow2 b * (4 * pow2 (-54)))%Q).
  { replace (b - 52) with (b + (2 + -54)) by lia.
    rewrite !pow2_add. reflexivity. }
  assert (H53 : (pow2 (-53) == 2 * pow2 (-54))%Q).
  { replace (-53) with (-54 + 1) by lia. by rewrite pow2_succ. }
  pose proof (pow2_pos (-54)) as P54. pose proof (pow2_pos b) as Pb.
  assert (Hgap : ((3 # 4) * pow2 q <= nq * pow2 (-53))%Q).
  { rewrite H53.
    assert (3 * pow2 b * pow2 (-54) <= 2 * nq * pow2 (-54))%Q
      by (apply Qmult_le_compat_r; lra).
    lra. }
  set (m := n * 2 ^ (- q)).
  assert (Hm : (inject_Z m * pow2 q == nq)%Q).
  { unfold m. rewrite inject_Z_mult. rewrite <- (pow2_Z (- q)) by lia.
    fold nq. rewrite <- Qmult_assoc, pow2_inverse. ring. }
  pose proof (flPos_below a m Ha) as Hfl. fold q in Hfl.
  assert (flPos a <= (inject_Z m - 1) * pow2 q)%Q; [|lra].
  apply Hfl. lra.
Qed.

(** In the normal range the double is within one part in [2^53] of the
    rational it rounds. *)
Lemma flPos_error (a : Q) :
  (pow2 (-1022) <= a)%Q ->
  (a - a * pow2 (-53) <= flPos a <= a + a * pow2 (-53))%Q.
Proof.
  intros Hlo. pose proof (pow2_pos (-1022)) as P.
  assert (Ha : (0 < a)%Q) by lra.
  destruct (binade_spec a Ha) as [B1 B2].
  assert (Hb : -1022 <= binade a).
  { assert (-1022 < binade a + 1); [|lia]. apply pow2_lt_inv. lra. }
  assert (Hq : quantum a = binade a - 52) by (unfold quantum; lia).
  rewrite flPos_eq. rewrite Hq. set (q := binade a - 52).
  pose proof (pow2_pos q) as Pq.
  pose proof (roundHalfEven_error (a / pow2 q)) as [R1 R2].
  set (m := inject_Z (roundHalfEven (a / pow2 q))) in *.
  assert (Hx : (a / pow2 q * pow2 q == a)%Q) by (field; lra).
  set (x := (a / pow2 q)%Q) in *.
  assert (Hhalf : ((1 # 2) * pow2 q <= a * pow2 (-53))%Q).
  { assert (pow2 q == pow2 (binade a) * (2 * pow2 (-53)))%Q as ->.
    { unfold q. replace (binade a - 52) with (binade a + (1 + -53)) by lia.
      rewrite !pow2_add. reflexivity. }
    pose proof (pow2_pos (-53)) as P53.
    assert (pow2 (binade a) * pow2 (-53) <= a * pow2 (-53))%Q
      by (apply Qmult_le_compat_r; lra).
    lra. }
  assert ((x - (1 # 2)) * pow2 q <= m * pow2 q)%Q
    by (apply Qmult_le_compat_r; lra).
  assert (m * pow2 q <= (x + (1 # 2)) * pow2 q)%Q
    by (apply Qmult_le_compat_r; lra).
  split; lra.
Qed.

(** *** Doubles stay as they are *)

(** An integer multiple of a power of two that is no finer than the
    spacing of the doubles around it is a double. *)
Lemma flPos_multiple (x : Q) (m e : Z) :
  (0 < x)%Q -> (x == inject_Z m * pow2 e)%Q -> quantum x <= e ->
  (flPos x == x)%Q.
Proof.
  intros Hx Hm He. rewrite flPos_eq.
  set (q := quantum x) in *. pose proof (pow2_pos q) as Pq.
  assert (Hs : (x / pow2 q == inject_Z (m * 2 ^ (e - q)))%Q).
  { rewrite Hm, (pow2_multiple e q He), inject_Z_mult. field. lra. }
  rewrite (roundHalfEven_Qeq _ _ Hs), roundHalfEven_Z, <- Hs.
  field. lra.
Qed.

Lemma flPos_idempotent (a : Q) :
  (0 < a)%Q ->
  (flPos a == 0)%Q
  \/ ((0 < flPos a)%Q /\ (flPos (flPos a) == flPos a)%Q).
Proof.
  intros Ha.
  pose proof (flPos_eq a) as E.
  set (q := quantum a) in *. set (m := roundHalfEven (a / pow2 q)) in *.
  pose proof (pow2_pos q) as Pq.
  destruct (binade_spec a Ha) as [B1 B2].
  assert (Hq1 : binade a - 52 <= q) by (unfold q, quantum; lia).
  assert (Hq2 : -1074 <= q) by (unfold q, quantum; lia).
  assert (Hm0 : 0 <= m).
  { apply roundHalfEven_ge. change (inject_Z 0) with 0%Q.
    apply Qlt_le_weak. by apply scaled_pos. }
  assert (Hm1 : m <= 2 ^ 53).
  { apply roundHalfEven_le. apply Qle_shift_div_r; [done|].
    rewrite <- (pow2_Z 53), <- pow2_add by lia.
    pose proof (pow2_le (binade a + 1) (53 + q) ltac:(lia)). lra. }
  destruct (Z.eq_dec m 0) as [Hz|Hz].
  { left. rewrite E, Hz. change (inject_Z 0) with 0%Q. ring. }
  right.
  assert (Hpos : (0 < flPos a)%Q).
  { rewrite E. apply Qmult_lt_0_compat; [|done].
    change 0%Q with (inject_Z 0). rewrite <- Zlt_Qlt. lia. }
  split; [done|].
  destruct (Z.eq_dec m (2 ^ 53)) as [Htop|Htop].
  - (* the next power of two *)
    assert (Ep : (flPos a == pow2 (q + 53))%Q).
    { rewrite E, Htop, <- (pow2_Z 53), <- pow2_add by lia.
      by replace (53 + q) with (q + 53) by lia. }
    apply (flPos_multiple _ (2 ^ 52) (q + 1)); [done| |].
    + rewrite Ep, <- (pow2_Z 52), <- pow2_add by lia.
      by replace (52 + (q + 1)) with (q + 53) by lia.
    + assert (binade (flPos a) = q + 53) as Hb.
      { apply binade_unique. rewrite Ep. split; [apply Qle_refl|].
        apply pow2_lt. lia. }
      unfold quantum. rewrite Hb. lia.
  - apply (flPos_multiple _ m q); [done|done|].
    assert (binade (flPos a) < q + 53) as Hb.
    { destruct (binade_spec _ Hpos) as [F1 _].
      apply pow2_lt_inv. eapply Qle_lt_trans; [exact F1|].
      rewrite E. replace (q + 53) with (53 + q) by lia.
      rewrite pow2_add, (pow2_Z 53) by lia.
      apply Qmult_lt_compat_r; [done|]. rewrite <- Zlt_Qlt. lia. }
    unfold quantum. lia.
Qed.

Lemma fl_idempotent (q : Q) : (fl (fl q) == fl q)%Q.
Proof.
  destruct (Q_dec q 0) as [[H|H]|H].
  - rewrite (fl_neg q H).
    destruct (flPos_idempotent (- q) ltac:(lra)) as [Hz|[Hp Hi]].
    + rewrite (fl_zero (- flPos (- q))) by lra. lra.
    + rewrite fl_neg by lra.
      rewrite (flPos_Qeq (- - flPos (- q)) (flPos (- q))) by lra.
      lra.
  - rewrite (fl_pos q H).
    destruct (flPos_idempotent q H) as [Hz|[Hp Hi]].
    + rewrite (fl_zero (flPos q)) by done. lra.
    + by rewrite fl_pos.
  - rewrite (fl_zero q H). reflexivity.
Qed.

Lemma fl_is_double (q : Q) : is_double (fl q) = true.
Proof. unfold is_double. apply Qeq_bool_iff, fl_idempotent. Qed.

(** *** Sums of doubles *)

Lemma is_double_eq (a : Q) : is_double a = true -> (fl a == a)%Q.
Proof. unfold is_double. apply Qeq_bool_eq. Qed.

Lemma js_add_nonneg (a b : Q) :
  (0 <= a)%Q -> (0 <= b)%Q -> (0 <= js_add a b)%Q.
Proof.
  intros Ha Hb. unfold js_add.
  destruct (is_double a && is_double b); [apply fl_nonneg|]; lra.
Qed.

(** On doubles [js_add] is the rounded sum, and a double again. *)
Lemma js_add_double (a b : Q) :
  is_double a = true -> is_double b = true ->
  js_add a b = fl (a + b) /\ is_double (js_add a b) = true.
Proof.
  intros Ha Hb. unfold js_add. rewrite Ha, Hb. cbn [andb].
  split; [done|apply fl_is_double].
Qed.

Lemma js_add_ge (a b : Q) : (0 <= b)%Q -> (a <= js_add a b)%Q.
Proof.
  intros Hb. unfold js_add.
  destruct (is_double a) eqn:Ha; cbn [andb]; [|lra].
  destruct (is_double b); [|lra].
  apply is_double_eq in Ha. rewrite <- Ha at 1. apply fl_mono. lra.
Qed.

(** ** Sorting *)

Lemma sortSign_numZ z : sortSign (numZ z) = (z ?= 0).
Proof.
  unfold sortSign, numZ, Qcompare. simpl. by rewrite Z.mul_1_r.
Qed.

Section JsSortFacts.
Context {A : Type} (cmp : A -> A -> JsNumber).

Lemma js_insert_perm x l : js_insert cmp x l ≡ₚ x :: l.
Proof.
  induction l as [|y l IH]; simpl; [done|].
  destruct (sortSign (cmp x y)); try done.
  rewrite IH. apply Permutation_swap.
Qed.

Lemma js_sort_perm l : js_sort cmp l ≡ₚ l.
Proof.
  induction l as [|x l IH]; simpl; [done|].
  by rewrite js_insert_perm, IH.
Qed.

Lemma js_sort_length l : length (js_sort cmp l) = length l.
Proof. by rewrite js_sort_perm. Qed.

Lemma js_sort_elem_of x l : x ∈ js_sort cmp l <-> x ∈ l.
Proof. by rewrite js_sort_perm. Qed.

(** With a comparator that is a total preorder on the elements at hand,
    the result is sorted. *)
Lemma js_insert_sorted (P : A -> Prop) x l :
  (forall a b c, P a -> P b -> P c ->
     sort_le cmp a b -> sort_le cmp b c -> sort_le cmp a c) ->
  (forall a b, P a -> P b -> sort_le cmp a b \/ sort_le cmp b a) ->
  P x -> Forall P l ->
  StronglySorted (sort_le cmp) l ->
  StronglySorted (sort_le cmp) (js_insert cmp x l).
Proof.
  intros Htrans Htot Hx HP Hs.
  induction Hs as [|y l Hs IH Hy]; simpl.
  - repeat constructor.
  - apply Forall_cons in HP as [HPy HPl].
    destruct (sortSign (cmp x y)) eqn:Hc.
    + constructor; [by constructor|].
      assert (sort_le cmp x y) by (unfold sort_le; congruence).
      constructor; [done|].
      rewrite Forall_forall in Hy, HPl |- *. intros z Hz.
      eapply (Htrans x y z); eauto.
    + constructor; [by constructor|].
      assert (sort_le cmp x y) by (unfold sort_le; congruence).
      constructor; [done|].
      rewrite Forall_forall in Hy, HPl |- *. intros z Hz.
      eapply (Htrans x y z); eauto.
    + constructor; [by apply IH|].
      assert (sort_le cmp y x) as Hyx.
      { destruct (Htot x y Hx HPy) as [H|H]; [|done].
        unfold sort_le in H. congruence. }
      rewrite Forall_forall in Hy |- *. intros z Hz.
      rewrite js_insert_perm in Hz. apply elem_of_cons in Hz as [->|Hz]; auto.
Qed.

Lemma js_sort_sorted (P : A -> Prop) l :
  (forall a b c, P a -> P b -> P c ->
     sort_le cmp a b -> sort_le cmp b c -> sort_le cmp a c) ->
  (forall a b, P a -> P b -> sort_le cmp a b \/ sort_le cmp b a) ->
  Forall P l ->
  StronglySorted (sort_le cmp) (js_sort cmp l).
Proof.
  intros Htrans Htot HP.
  induction HP as [|x l Hx HP IH]; simpl; [constructor|].
  eapply js_insert_sorted; eauto.
  rewrite Forall_forall in HP |- *. intros z Hz.
  apply HP. by rewrite js_sort_perm in Hz.
Qed.
End JsSortFacts.

Lemma StronglySorted_mono {A} (R1 R2 : A -> A -> Prop) (l : list A) :
  (forall x y, x ∈ l -> y ∈ l -> R1 x y -> R2 x y) ->
  StronglySorted R1 l -> StronglySorted R2 l.
Proof.
  intros Himp Hs. induction Hs as [|x l Hs IH Hx]; constructor.
  - apply IH. intros a b Ha Hb. apply Himp; by apply elem_of_cons; right.
  - rewrite Forall_forall in Hx |- *. intros y Hy.
    apply Himp; [by left | by right | by apply Hx].
Qed.

Lemma sort_le_Z (x y : Z) : sort_le (fun a b => numZ (a - b)) x y <-> x <= y.
Proof.
  unfold sort_le. rewrite sortSign_numZ.
  destruct (Z.compare_spec (x - y) 0); split; intros; try done; lia.
Qed.

Lemma js_sort_Z_sorted (l : list Z) :
  StronglySorted Z.le (js_sort (fun a b => numZ (a - b)) l).
Proof.
  eapply StronglySorted_mono; [intros x y _ _; apply sort_le_Z|].
  eapply (js_sort_sorted _ (fun _ => True)).
  - intros a b c _ _ _. rewrite !sort_le_Z. lia.
  - intros a b _ _. rewrite !sort_le_Z. lia.
  - by apply Forall_forall.
Qed.

(** Sorting numbers yields the one ascending arrangement of them. *)
Lemma js_sort_Z_unique (l s : list Z) :
  s ≡ₚ l -> StronglySorted Z.le s ->
  js_sort (fun a b => numZ (a - b)) l = s.
Proof.
  intros Hp Hs. apply (StronglySorted_unique Z.le).
  - apply js_sort_Z_sorted.
  - done.
  - by rewrite js_sort_perm.
Qed.

(** ** Hand evaluation *)

Lemma evaluateHand_sorted (dice : list Die) (low mid high : Z) :
  length dice = 3%nat ->
  [low; mid; high] ≡ₚ map value dice ->
  low <= mid <= high ->
  js_sort (fun a b => numZ (a - b)) (map value dice) = [low; mid; high].
Proof.
  intros _ Hp Hle. apply js_sort_Z_unique; [done|].
  repeat constructor; lia.
Qed.

Lemma straight_iff (low mid high : Z) :
  1 <= low -> high <= 6 ->
  (mid = low + 1 /\ high = mid + 1) <-> (low, mid, high) ∈ specStraights.
Proof.
  intros Hl Hh. unfold specStraights.
  rewrite !elem_of_cons, elem_of_nil. split.
  - intros [-> ->].
    assert (low = 1 \/ low = 2 \/ low = 3 \/ low = 4) as [H|[H|[H|H]]]
      by lia; subst low; simpl; tauto.
  - intros [H|[H|[H|[H|[]]]]]; injection H as -> -> ->; lia.
Qed.

(** C2: for three dice with faces 1 to 6 whose values sort to (low, mid,
    high), [evaluateHand] returns the hand of the cascade TRIPLE, STRAIGHT,
    DOUBLE (low pair), DOUBLE (high pair), SINGLE with the stated primary,
    secondary and tertiary values; the straights are exactly 1-2-3, 2-3-4,
    3-4-5 and 4-5-6, and 5-6-1 and 1-3-5 are SINGLE. *)
Theorem evaluateHand_cascade (dice : list Die) (low mid high : Z) :
  length dice = 3%nat ->
  Forall (fun d => 1 <= value d <= 6) dice ->
  [low; mid; high] ≡ₚ map value dice ->
  low <= mid <= high ->
  exists h,
    evaluateHand dice = Ok h
    /\ SpecHand low mid high h
    /\ (rank h = STRAIGHT <-> (low, mid, high) ∈ specStraights)
    /\ ((low, mid, high) = (1, 5, 6) \/ (low, mid, high) = (1, 3, 5) ->
        rank h = SINGLE).
Proof.
  intros Hlen Hrange Hp Hle.
  assert (Hb : Forall (fun v => 1 <= v <= 6) [low; mid; high]).
  { rewrite Hp. by apply Forall_fmap. }
  apply Forall_cons in Hb as [Hlow Hb].
  apply Forall_cons in Hb as [Hmid Hb].
  apply Forall_cons in Hb as [Hhigh _].
  unfold evaluateHand.
  rewrite Hlen, (evaluateHand_sorted dice low mid high Hlen Hp Hle).
  cbn [Nat.eqb negb nth].
  pose proof (straight_iff low mid high ltac:(lia) ltac:(lia)) as Hst.
  unfold SpecHand.
  destruct (Z.eqb_spec low mid) as [E1|E1];
    destruct (Z.eqb_spec mid high) as [E2|E2];
    destruct (Z.eqb_spec mid (low + 1)) as [E3|E3];
    destruct (Z.eqb_spec high (mid + 1)) as [E4|E4];
    cbn [andb]; try (exfalso; lia);
    (eexists; split; [reflexivity|]);
    cbn [rank primaryValue secondaryValue tertiaryValue];
    (split; [repeat case_decide; intuition lia|]);
    (split; [rewrite <- Hst; split; [intros H; try discriminate H; (split; lia)
                    | intros [? ?]; try reflexivity; exfalso; lia]
            | intros [H|H]; injection H as -> -> ->; try reflexivity;
              exfalso; lia]).
Qed.

Lemma evaluateHand_cascade_witness :
  exists h,
    evaluateHand [mkDie "w1" WHITE 5 false true; mkDie "r" RED 6 false false;
                  mkDie "w2" WHITE 1 false true] = Ok h
    /\ SpecHand 1 5 6 h
    /\ (rank h = STRAIGHT <-> (1, 5, 6) ∈ specStraights)
    /\ ((1, 5, 6) = (1, 5, 6) \/ (1, 5, 6) = (1, 3, 5) -> rank h = SINGLE).
Proof.
  apply (evaluateHand_cascade
           [mkDie "w1" WHITE 5 false true; mkDie "r" RED 6 false false;
            mkDie "w2" WHITE 1 false true] 1 5 6).
  - reflexivity.
  - repeat constructor; simpl; lia.
  - simpl. change ([1] ++ [5; 6] ≡ₚ [5; 6] ++ [1]). apply Permutation_app_comm.
  - lia.
Defined.

(** ** Prediction bonus *)

Lemma Qltb_inject_Z (a b : Z) : Qltb (inject_Z a) (inject_Z b) = (a <? b).
Proof.
  unfold Qltb, Qle_bool. simpl. rewrite !Z.mul_1_r.
  destruct (Z.leb_spec b a), (Z.ltb_spec a b); simpl; try reflexivity; lia.
Qed.

Lemma getPredictionRange_table (t : PredictionType) (playerCount : nat) :
  (2 <= playerCount <= 6)%nat ->
  match specRange playerCount t with
  | Some r => getPredictionRange t playerCount = r
  | None => getPredictionRange t playerCount = (-1, -1)
  end.
Proof.
  intros H.
  assert (playerCount = 2 \/ playerCount = 3 \/ playerCount = 4
          \/ playerCount = 5 \/ playerCount = 6)%nat
    as [E|[E|[E|[E|E]]]] by lia;
    subst playerCount; destruct t; vm_compute; reflexivity.
Qed.

(** C4: for a round total in 0..12 and 2 to 6 players,
    [calculatePredictionBonus] returns 40 for ZERO with the total in ZERO's
    range, the round total itself for MIN, MORE and MAX with the total in the
    prediction's range, and 0 otherwise; the ranges are those of the table
    (for 4 players MIN = [1,4], MORE = [6,9], MAX = [10,12]). *)
Theorem calculatePredictionBonus_spec (t : PredictionType) (total : Z)
    (playerCount : nat) :
  0 <= total <= 12 ->
  (2 <= playerCount <= 6)%nat ->
  let b := calculatePredictionBonus t (inject_Z total) playerCount in
  (t = ZERO -> specInRange playerCount t total -> b = 40%Q)
  /\ (t <> ZERO -> specInRange playerCount t total -> b = inject_Z total)
  /\ (~ specInRange playerCount t total -> b = 0%Q)
  /\ (playerCount = 4%nat ->
      specRange playerCount MIN = Some (1, 4)
      /\ specRange playerCount MORE = Some (6, 9)
      /\ specRange playerCount MAX = Some (10, 12)).
Proof.
  intros Ht Hn b. subst b. unfold calculatePredictionBonus, specInRange.
  pose proof (getPredictionRange_table t playerCount Hn) as Hr.
  destruct (specRange playerCount t) as [[lo hi]|] eqn:Hs; rewrite Hr.
  - rewrite !Qltb_inject_Z.
    destruct (Z.ltb_spec total lo), (Z.ltb_spec hi total); cbn [orb];
      (split; [|split; [|split]]);
      try (intros ? (lo' & hi' & [= <- <-] & ?); try lia);
      try (intros Hnot; try reflexivity; exfalso; apply Hnot; eauto with lia);
      try (case_decide; [reflexivity || congruence | reflexivity || congruence]);
      try (intros ->; done).
  - rewrite !Qltb_inject_Z.
    destruct (Z.ltb_spec total (-1)); [lia|].
    destruct (Z.ltb_spec (-1) total); [|lia]. cbn [orb].
    (split; [|split; [|split]]);
      try (intros ? (lo' & hi' & [=] & ?)); try done.
    intros ->. done.
Qed.

Lemma calculatePredictionBonus_spec_witness :
  calculatePredictionBonus MORE (inject_Z 7) 4 = inject_Z 7.
Proof.
  destruct (calculatePredictionBonus_spec MORE 7 4 ltac:(lia) ltac:(lia))
    as (_ & H & _).
  apply H; [done | exists 6, 9; split; [reflexivity | lia]].
Defined.

(** ** Room registry *)

(** C10: [canStartGame] answers [canStart = true] exactly when the room
    exists, is in the LOBBY phase, has at least 2 players, and every player
    is ready or is the host; a room whose host is not ready can start. *)
Theorem canStartGame_iff :
  (forall (store : gmap string GameState) (room : string),
     canStart (RoomService.canStartGame store room) = true <->
     exists g,
       store !! gameKey room = Some g
       /\ phase g = LOBBY
       /\ (2 <= length (players g))%nat
       /\ Forall (fun p => isReady p = true \/ isHost p = true) (players g))
  /\ (isHost exampleHost = true
      /\ isReady exampleHost = false
      /\ exampleHost ∈ players exampleLobby
      /\ canStart
           (RoomService.canStartGame
              {[ gameKey "ABCDEF" := exampleLobby ]} "ABCDEF") = true).
Proof.
  split.
  - intros store room. unfold RoomService.canStartGame, MIN_PLAYERS.
    destruct (store !! gameKey room) as [g|] eqn:Hg.
    + case_bool_decide as Hp; cbn [negb].
      * destruct (Nat.ltb_spec (length (players g)) 2) as [Hl|Hl].
        { split; [done|]. intros (g' & [= <-] & _ & ? & _). lia. }
        destruct (forallb _ (players g)) eqn:Hall; cbn [negb canStart].
        { split; [intros _|done]. exists g. repeat split; try done.
          rewrite forallb_forall in Hall. apply Forall_forall.
          intros p Hp'. apply list_elem_of_In in Hp'.
          specialize (Hall p Hp'). by apply orb_true_iff in Hall. }
        { split; [done|]. intros (g' & [= <-] & _ & _ & Hf).
          assert (forallb (fun p => isReady p || isHost p) (players g) = true)
            as Hall'; [|congruence].
          apply forallb_forall. intros p Hp'. apply list_elem_of_In in Hp'.
          rewrite Forall_forall in Hf. apply orb_true_iff. by apply Hf. }
      * split; [done|]. by intros (g' & [= <-] & ? & _).
    + split; [done|]. by intros (g' & [=] & _).
  - repeat split; try reflexivity.
    apply elem_of_cons. by left.
Qed.

(** ** Requests the service rejects *)

(** C9: in the prediction phase, a [prediction:submit] of a player whose
    prediction is already set changes neither the actors nor the store, and
    sends one message, the error PREDICTION_ALREADY_SUBMITTED, to the
    socket of the caller. *)
Theorem submitPrediction_twice (O : Oracle) (srv : Server) (client : Client)
    (room playerId : string) (t : PredictionType) (actor : Actor)
    (player : Player) :
  truthy (data_playerId client) = Some playerId ->
  truthy (data_roomCode client) = Some room ->
  gameActors srv !! room = Some actor ->
  snap_value (snapshot actor) = st_prediction ->
  findPlayer (players (getGameStateFromActor actor)) playerId = Some player ->
  prediction player <> None ->
  GameService.submitPrediction O room playerId t srv
  = (Throw (GameError "PREDICTION_ALREADY_SUBMITTED"
              "Prediction already submitted"), srv)
  /\ GatewayMessages.handlePredictionSubmit O client t srv
     = emit (ToClient (client_id client))
         (room_error "Prediction already submitted"
            "PREDICTION_ALREADY_SUBMITTED") srv
  /\ (let srv' := GatewayMessages.handlePredictionSubmit O client t srv in
      gameActors srv' = gameActors srv
      /\ redis srv' = redis srv
      /\ entropy srv' = entropy srv
      /\ outbox srv'
         = outbox srv
           ++ [(ToClient (client_id client),
                room_error "Prediction already submitted"
                  "PREDICTION_ALREADY_SUBMITTED")]).
Proof.
  intros Hp Hr Ha Hv Hf Hn.
  assert (Hs : GameService.submitPrediction O room playerId t srv
               = (Throw (GameError "PREDICTION_ALREADY_SUBMITTED"
                           "Prediction already submitted"), srv)).
  { unfold GameService.submitPrediction. rewrite Ha, Hv.
    rewrite bool_decide_eq_true_2 by done. cbn [negb].
    rewrite Hf. rewrite bool_decide_eq_false_2 by done. reflexivity. }
  assert (Hh : GatewayMessages.handlePredictionSubmit O client t srv
               = emit (ToClient (client_id client))
                   (room_error "Prediction already submitted"
                      "PREDICTION_ALREADY_SUBMITTED") srv).
  { unfold GatewayMessages.handlePredictionSubmit.
    rewrite Hp, Hr, Hs. reflexivity. }
  split; [done|]. split; [done|]. cbn zeta. rewrite Hh. done.
Qed.

Lemma submitPrediction_twice_witness :
  GameService.submitPrediction exampleOracle "ABCDEF" "host" ZERO
    examplePredictionServer
  = (Throw (GameError "PREDICTION_ALREADY_SUBMITTED"
              "Prediction already submitted"), examplePredictionServer).
Proof.
  refine (proj1 (submitPrediction_twice exampleOracle examplePredictionServer
                   exampleHostClient "ABCDEF" "host" ZERO
                   (mkActor
                      (mkSnapshot st_prediction
                         (mkContext examplePredictionRoom None 0)) false)
                   (withPrediction (Some MORE) exampleHost) _ _ _ _ _ _));
    try reflexivity.
  discriminate.
Defined.

(** ** Set scoring *)

Lemma compareHands_zero (a b : EvaluatedHand) :
  compareHands a b = 0 <->
  rankValue (rank a) = rankValue (rank b)
  /\ primaryValue a = primaryValue b
  /\ secondaryValue a = secondaryValue b
  /\ tertiaryValue a = tertiaryValue b.
Proof.
  unfold compareHands.
  destruct (Z.eqb_spec (rankValue (rank a)) (rankValue (rank b)));
    destruct (Z.eqb_spec (primaryValue a) (primaryValue b));
    destruct (Z.eqb_spec (secondaryValue a) (secondaryValue b));
    cbn [negb]; lia.
Qed.

Lemma compareHands_eq_l (a b c : EvaluatedHand) :
  compareHands a b = 0 -> compareHands a c = compareHands b c.
Proof.
  intros (E1 & E2 & E3 & E4)%compareHands_zero.
  unfold compareHands. by rewrite E1, E2, E3, E4.
Qed.

Lemma compareHands_sym (a b : EvaluatedHand) :
  compareHands a b = 0 -> compareHands b a = 0.
Proof. rewrite !compareHands_zero. intuition congruence. Qed.

Lemma compareHands_flip (a b : EvaluatedHand) :
  compareHands b a = - compareHands a b.
Proof.
  unfold compareHands.
  destruct (Z.eqb_spec (rankValue (rank a)) (rankValue (rank b)));
    destruct (Z.eqb_spec (rankValue (rank b)) (rankValue (rank a)));
    destruct (Z.eqb_spec (primaryValue a) (primaryValue b));
    destruct (Z.eqb_spec (primaryValue b) (primaryValue a));
    destruct (Z.eqb_spec (secondaryValue a) (secondaryValue b));
    destruct (Z.eqb_spec (secondaryValue b) (secondaryValue a));
    cbn [negb]; lia.
Qed.

Lemma compareHands_trans (a b c : EvaluatedHand) :
  0 <= compareHands a b -> 0 <= compareHands b c -> 0 <= compareHands a c.
Proof.
  unfold compareHands.
  destruct (Z.eqb_spec (rankValue (rank a)) (rankValue (rank b)));
    destruct (Z.eqb_spec (rankValue (rank b)) (rankValue (rank c)));
    destruct (Z.eqb_spec (rankValue (rank a)) (rankValue (rank c)));
    destruct (Z.eqb_spec (primaryValue a) (primaryValue b));
    destruct (Z.eqb_spec (primaryValue b) (primaryValue c));
    destruct (Z.eqb_spec (primaryValue a) (primaryValue c));
    destruct (Z.eqb_spec (secondaryValue a) (secondaryValue b));
    destruct (Z.eqb_spec (secondaryValue b) (secondaryValue c));
    destruct (Z.eqb_spec (secondaryValue a) (secondaryValue c));
    cbn [negb]; lia.
Qed.

Lemma tied_sym a b : tied a b = true -> tied b a = true.
Proof. unfold tied. rewrite !Z.eqb_eq. apply compareHands_sym. Qed.

Lemma tied_eq_l a b c : tied a b = true -> tied a c = tied b c.
Proof.
  unfold tied. rewrite Z.eqb_eq. intros H.
  by rewrite (compareHands_eq_l _ _ _ H).
Qed.

Lemma tied_trans a b c : tied a b = true -> tied b c = true -> tied a c = true.
Proof. intros H1 H2. by rewrite (tied_eq_l _ _ _ H1). Qed.

Lemma sort_le_hand (x y : PlayerSelection) :
  sort_le (fun a b => numZ (compareHands (sel_hand b) (sel_hand a))) x y
  <-> 0 <= compareHands (sel_hand x) (sel_hand y).
Proof.
  unfold sort_le. rewrite sortSign_numZ.
  rewrite (compareHands_flip (sel_hand x) (sel_hand y)).
  destruct (Z.compare_spec (- compareHands (sel_hand x) (sel_hand y)) 0);
    split; intros; try done; lia.
Qed.

Lemma sortedByHand_perm selections : sortedByHand selections ≡ₚ selections.
Proof. apply js_sort_perm. Qed.

Lemma sortedByHand_sorted selections :
  StronglySorted
    (fun a b => 0 <= compareHands (sel_hand a) (sel_hand b))
    (sortedByHand selections).
Proof.
  eapply StronglySorted_mono; [intros x y _ _; apply sort_le_hand|].
  eapply (js_sort_sorted _ (fun _ => True)).
  - intros a b c _ _ _. rewrite !sort_le_hand. apply compareHands_trans.
  - intros a b _ _. rewrite !sort_le_hand.
    rewrite (compareHands_flip (sel_hand a) (sel_hand b)). lia.
  - by apply Forall_forall.
Qed.

Lemma getPlacementPoints_spec (place playerCount : nat) :
  (2 <= playerCount <= 6)%nat ->
  getPlacementPoints place playerCount = specPoints playerCount place.
Proof.
  intros H.
  assert (place = 0 \/ place = 1 \/ place = 2 \/ place = 3 \/ place = 4
          \/ place = 5 \/ place = 6 \/ 7 <= place)%nat
    as Hp by lia.
  assert (playerCount = 2 \/ playerCount = 3 \/ playerCount = 4
          \/ playerCount = 5 \/ playerCount = 6)%nat
    as [E|[E|[E|[E|E]]]] by lia; subst playerCount;
    (destruct Hp as [E|[E|[E|[E|[E|[E|[E|E]]]]]]];
     [subst place; vm_compute; reflexivity ..|]);
    unfold getPlacementPoints, PLACEMENT_POINTS_BY_PLAYER_COUNT;
    repeat (rewrite list_to_map_cons
            || (rewrite lookup_insert_ne by lia)
            || rewrite lookup_insert_eq
            || rewrite list_to_map_nil
            || rewrite lookup_empty);
    do 7 (destruct place as [|place]; [lia|]); reflexivity.
Qed.

Lemma pointsLoop_spec (playerCount count k : nat) (acc : Z) :
  (2 <= playerCount <= 6)%nat ->
  pointsLoop count k playerCount acc
  = acc + specPointsSum playerCount k count.
Proof.
  intros H. revert k acc.
  induction count as [|count IH]; intros k acc; simpl; [lia|].
  rewrite IH, getPlacementPoints_spec by done. lia.
Qed.
Lemma drop_lookup_cons {A} (l : list A) (i : nat) (x : A) :
  l !! i = Some x -> drop i l = x :: drop (S i) l.
Proof.
  revert i. induction l as [|y l IH]; intros [|i] H; simplify_eq/=; auto.
Qed.

Lemma tieScan_spec (fuel : nat) (sorted : list PlayerSelection)
    (first : PlayerSelection) (acc : list PlayerSelection) (j : nat) :
  (length (drop j sorted) <= fuel)%nat ->
  tieScan fuel sorted first acc j
  = (acc ++ tiePrefix first (drop j sorted),
     (j + length (tiePrefix first (drop j sorted)))%nat).
Proof.
  revert acc j. induction fuel as [|fuel IH]; intros acc j Hf.
  - destruct (drop j sorted); [|simpl in Hf; lia].
    simpl. by rewrite app_nil_r, Nat.add_0_r.
  - simpl. destruct (sorted !! j) as [sj|] eqn:Hj.
    + rewrite (drop_lookup_cons _ _ _ Hj) in Hf |- *. simpl in Hf.
      cbn [tiePrefix]. unfold tied at 1 2.
      destruct (compareHands (sel_hand first) (sel_hand sj) =? 0).
      * rewrite IH by lia. rewrite <- app_assoc. simpl.
        f_equal. lia.
      * simpl. by rewrite app_nil_r, Nat.add_0_r.
    + apply lookup_ge_None in Hj. rewrite drop_ge by done.
      simpl. by rewrite app_nil_r, Nat.add_0_r.
Qed.

Lemma tiePrefix_eq a b l : tied a b = true -> tiePrefix a l = tiePrefix b l.
Proof.
  intros H. induction l as [|x l IH]; simpl; [done|].
  by rewrite (tied_eq_l _ _ _ H), IH.
Qed.

Lemma tieGroups_cons (s : PlayerSelection) (rest : list PlayerSelection) :
  tieGroups (s :: rest)
  = (s :: tiePrefix s rest)
      :: tieGroups (drop (length (tiePrefix s rest)) rest).
Proof.
  revert s. induction rest as [|y rest IH]; intros s; [done|].
  change (tieGroups (s :: y :: rest))
    with (match tieGroups (y :: rest) with
          | g :: gs =>
              if default false (tied s <$> head g) then (s :: g) :: gs
              else [s] :: g :: gs
          | [] => [[s]]
          end).
  rewrite (IH y). cbn [tiePrefix head fmap option_fmap option_map default].
  destruct (tied s y) eqn:Ht.
  - cbn [length drop]. by rewrite (tiePrefix_eq _ _ _ Ht).
  - cbn [length drop]. by rewrite (IH y).
Qed.

Lemma tiePrefix_length first l : (length (tiePrefix first l) <= length l)%nat.
Proof.
  induction l as [|x l IH]; simpl; [lia|].
  destruct (tied first x); simpl; lia.
Qed.

Lemma placementLoop_spec (fuel : nat) (sorted : list PlayerSelection)
    (playerCount : nat) (results : list SetResult) (k i : nat) :
  (2 <= playerCount <= 6)%nat ->
  (length (drop i sorted) <= fuel)%nat ->
  placementLoop fuel sorted playerCount results k i
  = results ++ walkWith fl playerCount k (tieGroups (drop i sorted)).
Proof.
  intros Hn. revert results k i.
  induction fuel as [|fuel IH]; intros results k i Hf.
  - destruct (drop i sorted); [|simpl in Hf; lia].
    simpl. by rewrite app_nil_r.
  - simpl. destruct (sorted !! i) as [si|] eqn:Hi.
    + rewrite tieScan_spec by (rewrite length_drop; lia).
      rewrite (drop_lookup_cons _ _ _ Hi) in Hf |- *. simpl in Hf.
      rewrite tieGroups_cons. cbn [walkWith].
      pose proof (tiePrefix_length si (drop (S i) sorted)) as Hlen.
      rewrite IH.
      * rewrite drop_drop, pointsLoop_spec by done.
        rewrite <- app_assoc. cbn [app length].
        rewrite Z.add_0_l.
        replace (S i + length (tiePrefix si (drop (S i) sorted)))%nat
          with (length (tiePrefix si (drop (S i) sorted)) + S i)%nat by lia.
        replace (k + S (length (tiePrefix si (drop (S i) sorted))))%nat
          with (k + S (length (tiePrefix si (drop (S i) sorted))))%nat by lia.
        reflexivity.
      * rewrite length_drop in *. lia.
    + apply lookup_ge_None in Hi. rewrite drop_ge by done.
      simpl. by rewrite app_nil_r.
Qed.
Lemma tieGroups_concat l : concat (tieGroups l) = l.
Proof.
  induction l as [|s rest IH]; [done|]. cbn [tieGroups].
  destruct (tieGroups rest) as [|g gs]; simpl in *; [by subst|].
  destruct (default false (tied s <$> head g)); simpl; by subst.
Qed.

Lemma tieGroups_nonempty l g : g ∈ tieGroups l -> g <> [].
Proof.
  revert g. induction l as [|s rest IH]; intros g Hg.
  { by apply elem_of_nil in Hg. }
  cbn [tieGroups] in Hg.
  destruct (tieGroups rest) as [|g0 gs] eqn:E.
  - by apply list_elem_of_singleton in Hg as ->.
  - destruct (default false (tied s <$> head g0)).
    + apply elem_of_cons in Hg as [->|Hg]; [done|]. apply IH. by right.
    + apply elem_of_cons in Hg as [->|Hg]; [done|]. by apply IH.
Qed.

Lemma tied_refl x : tied x x = true.
Proof. unfold tied. by apply Z.eqb_eq, compareHands_zero. Qed.

Lemma tieGroups_tied l g a b :
  g ∈ tieGroups l -> a ∈ g -> b ∈ g -> tied a b = true.
Proof.
  revert g a b. induction l as [|s rest IH]; intros g a b Hg Ha Hb.
  { by apply elem_of_nil in Hg. }
  cbn [tieGroups] in Hg.
  pose proof (tieGroups_nonempty rest) as Hne.
  destruct (tieGroups rest) as [|g0 gs] eqn:E.
  - apply list_elem_of_singleton in Hg as ->.
    apply list_elem_of_singleton in Ha as ->.
    apply list_elem_of_singleton in Hb as ->. apply tied_refl.
  - destruct g0 as [|y g0]; [by exfalso; apply (Hne []); [left|]|].
    cbn [head fmap option_fmap option_map default] in Hg.
    assert (Hy : forall x, x ∈ y :: g0 -> tied y x = true).
    { intros x Hx. apply (IH (y :: g0)); [by left|by left|done]. }
    destruct (tied s y) eqn:Ht.
    + apply elem_of_cons in Hg as [->|Hg]; [|apply (IH g); [by right|done..]].
      assert (Hs : forall x, x ∈ s :: y :: g0 -> tied s x = true).
      { intros x [->|Hx]%elem_of_cons; [apply tied_refl|].
        eapply tied_trans; [exact Ht|by apply Hy]. }
      eapply tied_trans; [apply tied_sym, Hs, Ha | by apply Hs].
    + apply elem_of_cons in Hg as [->|Hg]; [|by apply (IH g)].
      apply list_elem_of_singleton in Ha as ->.
      apply list_elem_of_singleton in Hb as ->. apply tied_refl.
Qed.

(** Neighbouring groups do not tie. *)
Lemma tieGroups_next l i g g' a b :
  tieGroups l !! i = Some g -> tieGroups l !! S i = Some g' ->
  a ∈ g -> b ∈ g' -> tied a b = false.
Proof.
  revert i g g' a b.
  induction l as [|s rest IH]; intros i g g' a b Hg Hg' Ha Hb.
  { done. }
  cbn [tieGroups] in Hg, Hg'.
  pose proof (tieGroups_tied rest) as Htd.
  pose proof (tieGroups_nonempty rest) as Hne.
  destruct (tieGroups rest) as [|g0 gs] eqn:E.
  - destruct i; done.
  - destruct g0 as [|y g0]; [by exfalso; apply (Hne []); [left|]|].
    cbn [head fmap option_fmap option_map default] in Hg, Hg'.
    assert (Hy : forall x, x ∈ y :: g0 -> tied y x = true).
    { intros x Hx. apply (Htd (y :: g0)); [by left|by left|done]. }
    destruct (tied s y) eqn:Ht.
    + destruct i as [|i].
      * simplify_eq/=.
        assert (tied y b = false) as Hyb.
        { apply (IH 0%nat (y :: g0) g' y b); [done|done|by left|done]. }
        assert (tied a y = true) as Hay.
        { apply elem_of_cons in Ha as [->|Ha]; [done|].
          by apply tied_sym, Hy. }
        by rewrite (tied_eq_l _ _ _ Hay).
      * simpl in Hg, Hg'. by apply (IH (S i) g g' a b).
    + destruct i as [|i].
      * simplify_eq/=. apply list_elem_of_singleton in Ha as ->.
        destruct (tied s b) eqn:Hab; [|done].
        rewrite <- Ht. symmetry.
        rewrite (tied_eq_l s b y Hab). apply tied_sym. by apply Hy.
      * simpl in Hg, Hg'. by apply (IH i g g' a b).
Qed.

Lemma compareHands_squeeze (a x b : EvaluatedHand) :
  0 <= compareHands a x -> 0 <= compareHands x b -> compareHands a b = 0 ->
  compareHands a x = 0.
Proof.
  unfold compareHands.
  destruct (Z.eqb_spec (rankValue (rank a)) (rankValue (rank b)));
    destruct (Z.eqb_spec (rankValue (rank x)) (rankValue (rank b)));
    destruct (Z.eqb_spec (rankValue (rank a)) (rankValue (rank x)));
    destruct (Z.eqb_spec (primaryValue a) (primaryValue b));
    destruct (Z.eqb_spec (primaryValue x) (primaryValue b));
    destruct (Z.eqb_spec (primaryValue a) (primaryValue x));
    destruct (Z.eqb_spec (secondaryValue a) (secondaryValue b));
    destruct (Z.eqb_spec (secondaryValue x) (secondaryValue b));
    destruct (Z.eqb_spec (secondaryValue a) (secondaryValue x));
    cbn [negb]; lia.
Qed.

Lemma elem_of_concat {A} (x : A) (gs : list (list A)) :
  x ∈ concat gs <-> exists g, g ∈ gs /\ x ∈ g.
Proof.
  rewrite list_elem_of_In, in_concat.
  split; intros (g & H1 & H2); exists g; by rewrite ?list_elem_of_In in *.
Qed.

Lemma concat_lookup_order {A} (R : A -> A -> Prop) (gs : list (list A))
    (i j : nat) (g g' : list A) (a b : A) :
  StronglySorted R (concat gs) -> (i < j)%nat ->
  gs !! i = Some g -> gs !! j = Some g' -> a ∈ g -> b ∈ g' -> R a b.
Proof.
  intros Hs Hij Hi Hj Ha Hb.
  rewrite <- (take_drop j gs), concat_app in Hs.
  eapply StronglySorted_app_1_elem_of; [exact Hs| |].
  - apply elem_of_concat. exists g. split; [|done].
    apply list_elem_of_lookup. exists i. rewrite lookup_take_lt; done.
  - apply elem_of_concat. exists g'. split; [|done].
    apply list_elem_of_lookup. exists 0%nat.
    by rewrite lookup_drop, Nat.add_0_r.
Qed.

Lemma tieGroups_strict l i j g g' a b :
  StronglySorted (fun a b => 0 <= compareHands (sel_hand a) (sel_hand b)) l ->
  (i < j)%nat ->
  tieGroups l !! i = Some g -> tieGroups l !! j = Some g' ->
  a ∈ g -> b ∈ g' ->
  0 < compareHands (sel_hand a) (sel_hand b).
Proof.
  intros Hs Hij Hi Hj Ha Hb.
  set (R := fun a b : PlayerSelection =>
              0 <= compareHands (sel_hand a) (sel_hand b)) in *.
  assert (Hs' : StronglySorted R (concat (tieGroups l)))
    by by rewrite tieGroups_concat.
  assert (Hab : R a b) by (eapply concat_lookup_order; eauto).
  destruct (Z.eq_dec (compareHands (sel_hand a) (sel_hand b)) 0) as [E|E];
    [exfalso|unfold R in Hab; lia].
  destruct (tieGroups l !! S i) as [gx|] eqn:Hx.
  2:{ apply lookup_ge_None in Hx. apply lookup_lt_Some in Hj. lia. }
  assert (gx <> []) as Hne.
  { eapply tieGroups_nonempty, list_elem_of_lookup_2, Hx. }
  destruct gx as [|x gx]; [done|].
  assert (R a x) as Hax.
  { apply (concat_lookup_order R (tieGroups l) i (S i) g (x :: gx) a x Hs');
      [lia|done|done|done|by left]. }
  assert (R x b) as Hxb.
  { destruct (decide (S i = j)) as [<-|Hne'].
    - rewrite Hx in Hj. injection Hj as <-. unfold R.
      assert (tied x b = true) as Ht.
      { eapply tieGroups_tied; [eapply list_elem_of_lookup_2, Hx|by left|done]. }
      unfold tied in Ht. apply Z.eqb_eq in Ht. lia.
    - apply (concat_lookup_order R (tieGroups l) (S i) j (x :: gx) g' x b Hs');
        [lia|done|done|by left|done]. }
  assert (tied a x = false) as Hn.
  { apply (tieGroups_next l i g (x :: gx) a x Hi Hx Ha). by left. }
  unfold tied in Hn. apply Z.eqb_neq in Hn. apply Hn.
  eapply compareHands_squeeze; eauto.
Qed.
(** C3, amended: for a non-empty list of selections and 2 to 6 players,
    [calculateSetPlacements] sorts the selections by hand, best first, and
    walks the tie groups of the sorted list: a group of [t] members at
    placement [k] gives each member placement [k] and the double nearest to
    the points of the placements [k .. k+t-1] of the table divided by [t],
    and the next group starts at placement [k + t].  The tie groups are the
    runs of equal hands: they make up the sorted list, the members of a
    group tie, and a member of an earlier group beats every member of a
    later one. *)
Theorem calculateSetPlacements_walk (selections : list PlayerSelection)
    (playerCount : nat) :
  selections <> [] ->
  (2 <= playerCount <= 6)%nat ->
  let sorted := sortedByHand selections in
  let groups := tieGroups sorted in
  sorted ≡ₚ selections
  /\ StronglySorted
       (fun a b => 0 <= compareHands (sel_hand a) (sel_hand b)) sorted
  /\ concat groups = sorted
  /\ (forall g a b, g ∈ groups -> a ∈ g -> b ∈ g ->
        compareHands (sel_hand a) (sel_hand b) = 0)
  /\ (forall i j g g' a b, (i < j)%nat ->
        groups !! i = Some g -> groups !! j = Some g' ->
        a ∈ g -> b ∈ g' ->
        0 < compareHands (sel_hand a) (sel_hand b))
  /\ calculateSetPlacements selections (Some playerCount)
     = roundedWalk playerCount 1 groups.
Proof.
  intros Hne Hn sorted groups.
  split; [apply sortedByHand_perm|].
  split; [apply sortedByHand_sorted|].
  split; [apply tieGroups_concat|].
  split.
  { intros g a b Hg Ha Hb.
    pose proof (tieGroups_tied sorted g a b Hg Ha Hb) as Ht.
    unfold tied in Ht. by apply Z.eqb_eq in Ht. }
  split.
  { intros i j g g' a b. apply tieGroups_strict, sortedByHand_sorted. }
  unfold calculateSetPlacements, roundedWalk.
  destruct selections as [|s selections]; [done|].
  cbn [length Nat.eqb default].
  rewrite placementLoop_spec; [|done|by rewrite drop_0].
  by rewrite drop_0.
Qed.

Lemma calculateSetPlacements_walk_witness :
  map (fun r => (sr_playerId r, placement r, pointsEarned r))
    (calculateSetPlacements exampleSelections (Some 4%nat))
  = [("P1", 1%nat, 6%Q);
     ("P2", 2%nat, (6004799503160661 # 4503599627370496)%Q);
     ("P3", 2%nat, (6004799503160661 # 4503599627370496)%Q);
     ("P4", 2%nat, (6004799503160661 # 4503599627370496)%Q)].
Proof.
  destruct (calculateSetPlacements_walk exampleSelections 4)
    as (_ & _ & _ & _ & _ & ->); [discriminate|lia|].
  vm_compute. reflexivity.
Defined.

(** C3 as stated fails for [exampleSelections] and four players.  The three
    straights tie at placement 2 and share the 3 + 1 + 0 points of the
    placements 2 to 4, so that the walk of the specification awards each of
    them 4/3; the code awards 6004799503160661 / 2^52, the double that the
    division returns, which is not 4/3. *)
Lemma calculateSetPlacements_walk_counterexample :
  map (fun r => (sr_playerId r, placement r, pointsEarned r))
    (specWalk 4 1 (tieGroups (sortedByHand exampleSelections)))
  = [("P1", 1%nat, 6%Q); ("P2", 2%nat, (4 # 3)%Q); ("P3", 2%nat, (4 # 3)%Q);
     ("P4", 2%nat, (4 # 3)%Q)]
  /\ map (fun r => (sr_playerId r, placement r, pointsEarned r))
       (calculateSetPlacements exampleSelections (Some 4%nat))
     = [("P1", 1%nat, 6%Q);
        ("P2", 2%nat, (6004799503160661 # 4503599627370496)%Q);
        ("P3", 2%nat, (6004799503160661 # 4503599627370496)%Q);
        ("P4", 2%nat, (6004799503160661 # 4503599627370496)%Q)]
  /\ ~ Forall2 (fun r s => (pointsEarned r == pointsEarned s)%Q)
        (calculateSetPlacements exampleSelections (Some 4%nat))
        (specWalk 4 1 (tieGroups (sortedByHand exampleSelections))).
Proof.
  split; [vm_compute; reflexivity|].
  split; [vm_compute; reflexivity|].
  intros H.
  apply (Forall2_fmap_2 pointsEarned pointsEarned Qeq) in H.
  assert (E1 : pointsEarned <$>
                 calculateSetPlacements exampleSelections (Some 4%nat)
               = [6%Q; (6004799503160661 # 4503599627370496)%Q;
                  (6004799503160661 # 4503599627370496)%Q;
                  (6004799503160661 # 4503599627370496)%Q])
    by (vm_compute; reflexivity).
  assert (E2 : pointsEarned <$>
                 specWalk 4 1 (tieGroups (sortedByHand exampleSelections))
               = [6%Q; (4 # 3)%Q; (4 # 3)%Q; (4 # 3)%Q])
    by (vm_compute; reflexivity).
  rewrite E1, E2 in H.
  apply Forall2_cons_1 in H as [_ H].
  apply Forall2_cons_1 in H as [H _].
  unfold Qeq in H. simpl in H. discriminate H.
Qed.

(** ** Turn order *)

Lemma originalOrderMap_offset (order : list string) (m : gmap string nat)
    (k : nat) (playerId : string) :
  foldl (fun m '(index, playerId) => <[playerId := index]> m) m
    (imap (fun i x => ((k + i)%nat, x)) order) !! playerId
  = match lastPosition order playerId with
    | Some i => Some (k + i)%nat
    | None => m !! playerId
    end.
Proof.
  revert m k.
  induction order as [|x order IH]; intros m k; [done|].
  rewrite imap_cons. cbn [foldl lastPosition].
  rewrite (imap_ext _ (fun i y => ((S k + i)%nat, y))).
  2:{ intros i y _. simpl. f_equal. lia. }
  rewrite IH.
  destruct (lastPosition order playerId) as [i|].
  - f_equal. lia.
  - case_decide as Hd.
    + subst x. by rewrite Nat.add_0_r, lookup_insert_eq.
    + by rewrite lookup_insert_ne.
Qed.

(** The map built from the order holds, for each id, the position of its
    last occurrence: a later [set] replaces an earlier one. *)
Lemma originalOrderMap_position (order : list string) (playerId : string) :
  originalOrderMap order !! playerId = lastPosition order playerId.
Proof.
  unfold originalOrderMap.
  rewrite (imap_ext _ (fun i x => ((0 + i)%nat, x)) order) by done.
  rewrite originalOrderMap_offset.
  destruct (lastPosition order playerId) as [i|]; simpl; [done|].
  apply lookup_empty.
Qed.

Lemma lastPosition_None (order : list string) (playerId : string) :
  lastPosition order playerId = None <-> playerId ∉ order.
Proof.
  induction order as [|x order IH]; simpl.
  - split; [intros _; apply not_elem_of_nil|done].
  - rewrite not_elem_of_cons.
    destruct (lastPosition order playerId) as [i|].
    + split; [done|]. intros [_ H]. by apply IH in H.
    + case_decide as Hd.
      * split; [done|]. intros [H _]. by subst.
      * split; [|done]. intros _. split; [congruence|]. by apply IH.
Qed.

Lemma lastPosition_Some (order : list string) (playerId : string)
    (i : nat) :
  lastPosition order playerId = Some i
  <-> order !! i = Some playerId
      /\ forall j, (i < j)%nat -> order !! j <> Some playerId.
Proof.
  revert i. induction order as [|x order IH]; intros i; simpl.
  - split; [done|]. by intros [H _].
  - destruct (lastPosition order playerId) as [i'|] eqn:E.
    + split.
      * intros [= <-]. destruct (proj1 (IH i') eq_refl) as [H1 H2].
        split; [done|]. intros [|j] Hj; [lia|]. simpl. apply H2. lia.
      * intros [H1 H2]. f_equal.
        destruct (proj1 (IH i') eq_refl) as [H3 H4].
        destruct i as [|i].
        { exfalso. apply (H2 (S i')); [lia|done]. }
        simpl in H1. f_equal.
        destruct (Nat.lt_trichotomy i i') as [Hlt|[Heq|Hgt]]; [|done|].
        -- exfalso. apply (H2 (S i')); [lia|done].
        -- exfalso. by apply (H4 i).
    + apply lastPosition_None in E. case_decide as Hd.
      * subst x. split.
        -- intros [= <-]. split; [done|]. intros [|j] Hj; [lia|]. simpl.
           intros Hl. apply E. by eapply list_elem_of_lookup_2.
        -- intros [H1 _]. destruct i as [|i]; [done|]. simpl in H1.
           exfalso. apply E. by eapply list_elem_of_lookup_2.
      * split; [done|]. intros [H1 _]. destruct i as [|i].
        -- simpl in H1. congruence.
        -- simpl in H1. exfalso. apply E. by eapply list_elem_of_lookup_2.
Qed.

(** In an order without a repeated id the last occurrence is the first. *)
Lemma lastPosition_NoDup (order : list string) (playerId : string) :
  NoDup order -> lastPosition order playerId = specPosition order playerId.
Proof.
  intros Hnd. unfold specPosition.
  induction Hnd as [|x order Hx Hnd IH]; [done|].
  cbn [lastPosition list_find]. rewrite IH.
  destruct (decide (x = playerId)) as [->|Hne].
  - destruct (list_find (fun y => y = playerId) order) as [[i y]|] eqn:Hf;
      [|done].
    apply list_find_Some in Hf as (Hl & -> & _).
    exfalso. apply Hx. by eapply list_elem_of_lookup_2.
  - by destruct (list_find (fun y => y = playerId) order) as [[i y]|].
Qed.

Lemma sortSign_Num_le (q : Q) : sortSign (Num q) <> Gt <-> (q <= 0)%Q.
Proof.
  simpl. rewrite <- Qgt_alt. split; intros H.
  - apply Qnot_lt_le. exact H.
  - apply Qle_not_lt. exact H.
Qed.

Lemma sort_le_turnOrder (order : list string) (a b : Player) :
  sort_le (turnOrderCompare (originalOrderMap order)) a b
  <-> beforeBy (lastPosition order) a b.
Proof.
  unfold sort_le, turnOrderCompare, beforeBy.
  rewrite !originalOrderMap_position.
  destruct (Qeq_bool (cumulativeScore b) (cumulativeScore a)) eqn:He;
    cbn [negb].
  - apply Qeq_bool_iff in He.
    destruct (lastPosition order (player_id a)) as [i|],
             (lastPosition order (player_id b)) as [j|];
      cbn [indexOrInfinity js_sub numZ].
    + rewrite sortSign_Num_le. unfold Qminus, Qle. simpl.
      rewrite !Z.mul_1_r. split.
      * intros H. right. split; [by symmetry|]. lia.
      * intros [H|[_ H]]; [|lia]. rewrite He in H. by apply Qlt_irrefl in H.
    + simpl. split; [intros _|done]. right. split; [by symmetry|done].
    + simpl. split; [done|].
      intros [H|[_ []]]. rewrite He in H. by apply Qlt_irrefl in H.
    + simpl. split; [intros _|done]. right. split; [by symmetry|done].
  - apply Qeq_bool_neq in He. rewrite sortSign_Num_le. split.
    + intros H. left.
      apply Qle_lteq in H as [H|H].
      * lra.
      * exfalso. apply He. lra.
    + intros [H|[H _]]; [lra|]. exfalso. apply He. by symmetry.
Qed.

Lemma beforeBy_trans (position : string -> option nat) (a b c : Player) :
  beforeBy position a b -> beforeBy position b c -> beforeBy position a c.
Proof.
  unfold beforeBy.
  destruct (position (player_id a)), (position (player_id b)),
           (position (player_id c));
    intros [H1|[H1 H1']] [H2|[H2 H2']];
    try (left; lra); try done;
    right; (split; [lra|try done; lia]).
Qed.

Lemma beforeBy_total (position : string -> option nat) (a b : Player) :
  beforeBy position a b \/ beforeBy position b a.
Proof.
  unfold beforeBy.
  destruct (Q_dec (cumulativeScore a) (cumulativeScore b)) as [[H|H]|H].
  - right. by left.
  - left. by left.
  - destruct (position (player_id a)) as [i|],
             (position (player_id b)) as [j|].
    + destruct (Nat.le_ge_cases i j).
      * left. right. done.
      * right. right. split; [by symmetry|done].
    + left. right. done.
    + right. right. split; [by symmetry|done].
    + left. right. done.
Qed.

Lemma calculateTurnOrder_sorted (players : list Player)
    (order : list string) :
  StronglySorted (beforeBy (lastPosition order))
    (js_sort (turnOrderCompare (originalOrderMap order)) players).
Proof.
  eapply StronglySorted_mono;
    [intros x y _ _; by apply sort_le_turnOrder|].
  eapply (js_sort_sorted _ (fun _ => True)).
  - intros a b c _ _ _. rewrite !sort_le_turnOrder.
    apply beforeBy_trans.
  - intros a b _ _. rewrite !sort_le_turnOrder.
    apply beforeBy_total.
  - by apply Forall_forall.
Qed.

Lemma beforeBy_ext (p q : string -> option nat) (l : list Player) :
  (forall playerId, p playerId = q playerId) ->
  StronglySorted (beforeBy p) l -> StronglySorted (beforeBy q) l.
Proof.
  intros Hpq. apply StronglySorted_mono. intros x y _ _.
  unfold beforeBy. by rewrite !Hpq.
Qed.
Lemma allocArray_spec (h : gmap nat JsArray) (a : JsArray) :
  let '(r, h') := allocArray h a in
  h !! r = None /\ h' !! r = Some a
  /\ (forall k, k <> r -> h' !! k = h !! k).
Proof.
  unfold allocArray. split; [|split].
  - apply not_elem_of_dom, is_fresh.
  - apply lookup_insert_eq.
  - intros k Hk. by apply lookup_insert_ne.
Qed.

Lemma calculateInitialTurnOrder_store_spec (h : gmap nat JsArray) (r : nat)
    (rolls : list RollResult) :
  h !! r = Some (ArrRolls rolls) ->
  exists out h',
    calculateInitialTurnOrder_store h r = Some (out, h')
    /\ h' !! out = Some (ArrIds (calculateInitialTurnOrder rolls))
    /\ (forall k a, h !! k = Some a -> h' !! k = Some a).
Proof.
  intros Hr. unfold calculateInitialTurnOrder_store. rewrite Hr.
  pose proof (allocArray_spec h (ArrRolls rolls)) as H1.
  destruct (allocArray h (ArrRolls rolls)) as [copy h1].
  destruct H1 as (Hfresh & Hcopy & Hkeep).
  unfold sortArrayInPlace. rewrite lookup_alter_eq, Hcopy. cbn [fmap option_fmap option_map].
  set (h2 := alter _ copy h1).
  pose proof (allocArray_spec h2
    (ArrIds (map roll_playerId
       (js_sort (fun a b => numZ (roll a - roll b)) rolls)))) as H2.
  destruct (allocArray h2 _) as [out h'].
  destruct H2 as (Hfresh2 & Hout & Hkeep2).
  exists out, h'. split; [done|]. split; [done|].
  intros k a Hk.
  assert (k <> copy) by congruence.
  assert (h2 !! k = Some a) as Hk2.
  { unfold h2. rewrite lookup_alter_ne by done. rewrite Hkeep by done. done. }
  rewrite Hkeep2; [done|congruence].
Qed.

Lemma calculateTurnOrder_store_spec (h : gmap nat JsArray) (rp ro : nat)
    (players : list Player) (order : list string) :
  h !! rp = Some (ArrPlayers players) ->
  h !! ro = Some (ArrIds order) ->
  exists out h',
    calculateTurnOrder_store h rp ro = Some (out, h')
    /\ h' !! out = Some (ArrIds (calculateTurnOrder players order))
    /\ (forall k a, h !! k = Some a -> h' !! k = Some a).
Proof.
  intros Hp Ho. unfold calculateTurnOrder_store. rewrite Hp, Ho.
  pose proof (allocArray_spec h (ArrPlayers players)) as H1.
  destruct (allocArray h (ArrPlayers players)) as [copy h1].
  destruct H1 as (Hfresh & Hcopy & Hkeep).
  unfold sortArrayInPlace. rewrite lookup_alter_eq, Hcopy. cbn [fmap option_fmap option_map].
  set (h2 := alter _ copy h1).
  pose proof (allocArray_spec h2
    (ArrIds (map player_id
       (js_sort (turnOrderCompare (originalOrderMap order)) players)))) as H2.
  destruct (allocArray h2 _) as [out h'].
  destruct H2 as (Hfresh2 & Hout & Hkeep2).
  exists out, h'. split; [done|]. split; [done|].
  intros k a Hk.
  assert (k <> copy) by congruence.
  assert (h2 !! k = Some a) as Hk2.
  { unfold h2. rewrite lookup_alter_ne by done. rewrite Hkeep by done. done. }
  rewrite Hkeep2; [done|congruence].
Qed.

(** C8, amended: for every list of players and every round-1 order,
    [calculateTurnOrder] returns the ids of the players arranged by
    cumulative score, highest first, ties by the earlier position in the
    round-1 order and players missing from it last, where an id that the
    order names more than once has the position of its last occurrence; for
    an order of distinct ids that is the position of the id, as the
    specification has it.  Run on arrays in a store, [calculateTurnOrder]
    and [calculateInitialTurnOrder] leave every array that was there, their
    arguments included, as it was. *)
Theorem calculateTurnOrder_spec (players : list Player)
    (order : list string) :
  (exists sorted,
     calculateTurnOrder players order = map player_id sorted
     /\ sorted ≡ₚ players
     /\ StronglySorted (beforeBy (lastPosition order)) sorted
     /\ (NoDup order -> StronglySorted (specBefore order) sorted))
  /\ (forall playerId,
        (lastPosition order playerId = None <-> playerId ∉ order)
        /\ forall i,
             lastPosition order playerId = Some i
             <-> order !! i = Some playerId
                 /\ forall j, (i < j)%nat -> order !! j <> Some playerId)
  /\ (forall h rp ro,
        h !! rp = Some (ArrPlayers players) ->
        h !! ro = Some (ArrIds order) ->
        exists out h',
          calculateTurnOrder_store h rp ro = Some (out, h')
          /\ h' !! out = Some (ArrIds (calculateTurnOrder players order))
          /\ h' !! rp = Some (ArrPlayers players)
          /\ h' !! ro = Some (ArrIds order)
          /\ (forall k a, h !! k = Some a -> h' !! k = Some a))
  /\ (forall h r rolls,
        h !! r = Some (ArrRolls rolls) ->
        exists out h',
          calculateInitialTurnOrder_store h r = Some (out, h')
          /\ h' !! out = Some (ArrIds (calculateInitialTurnOrder rolls))
          /\ h' !! r = Some (ArrRolls rolls)
          /\ (forall k a, h !! k = Some a -> h' !! k = Some a)).
Proof.
  split; [|split; [|split]].
  - exists (js_sort (turnOrderCompare (originalOrderMap order)) players).
    split; [done|]. split; [apply js_sort_perm|].
    split; [apply calculateTurnOrder_sorted|].
    intros Hnd. apply (beforeBy_ext (lastPosition order)).
    + intros playerId. by apply lastPosition_NoDup.
    + apply calculateTurnOrder_sorted.
  - intros playerId. split; [apply lastPosition_None|].
    intros i. apply lastPosition_Some.
  - intros h rp ro Hp Ho.
    destruct (calculateTurnOrder_store_spec h rp ro players order Hp Ho)
      as (out & h' & E & Hout & Hkeep).
    exists out, h'. repeat split; auto.
  - intros h r rolls Hr.
    destruct (calculateInitialTurnOrder_store_spec h r rolls Hr)
      as (out & h' & E & Hout & Hkeep).
    exists out, h'. repeat split; auto.
Qed.

Lemma calculateTurnOrder_spec_witness :
  calculateTurnOrder exampleTurnPlayers ["c"; "a"] = ["b"; "c"; "a"; "d"]
  /\ calculateTurnOrder exampleTiedPlayers ["a"; "c"; "a"] = ["c"; "a"]
  /\ exists sorted,
       calculateTurnOrder exampleTurnPlayers ["c"; "a"] = map player_id sorted
       /\ sorted ≡ₚ exampleTurnPlayers
       /\ StronglySorted (specBefore ["c"; "a"]) sorted.
Proof.
  split; [vm_compute; reflexivity|].
  split; [vm_compute; reflexivity|].
  destruct (calculateTurnOrder_spec exampleTurnPlayers ["c"; "a"])
    as ((sorted & E & Hperm & _ & Hsorted) & _).
  exists sorted. split; [exact E|]. split; [exact Hperm|].
  apply Hsorted.
  apply NoDup_cons. split; [|apply NoDup_cons; split; [|apply NoDup_nil_2]].
  - intros [E'|H]%elem_of_cons; [discriminate|by apply elem_of_nil in H].
  - intros H. by apply elem_of_nil in H.
Defined.

(** C8 as stated fails for the two players of [exampleTiedPlayers], who
    have the same score, and the order a, c, a.  The earlier position in
    that order is that of a, at its start, so that a should go first; the
    code reads a at its last occurrence, after c, and returns c, a. *)
Lemma calculateTurnOrder_spec_counterexample :
  calculateTurnOrder exampleTiedPlayers ["a"; "c"; "a"] = ["c"; "a"]
  /\ specPosition ["a"; "c"; "a"] "a" = Some 0%nat
  /\ specPosition ["a"; "c"; "a"] "c" = Some 1%nat
  /\ ~ exists sorted,
        calculateTurnOrder exampleTiedPlayers ["a"; "c"; "a"]
        = map player_id sorted
        /\ sorted ≡ₚ exampleTiedPlayers
        /\ StronglySorted (specBefore ["a"; "c"; "a"]) sorted.
Proof.
  assert (E : calculateTurnOrder exampleTiedPlayers ["a"; "c"; "a"]
              = ["c"; "a"]) by (vm_compute; reflexivity).
  split; [exact E|]. split; [reflexivity|]. split; [reflexivity|].
  intros (sorted & Hmap & Hperm & Hsorted). rewrite E in Hmap.
  destruct sorted as [|x [|y [|z sorted]]]; try discriminate Hmap.
  injection Hmap as Hx Hy.
  apply StronglySorted_inv in Hsorted as [_ Hxy].
  apply Forall_cons_1 in Hxy as [Hxy _].
  assert (x ∈ exampleTiedPlayers) as Hxin by (rewrite <- Hperm; by left).
  assert (y ∈ exampleTiedPlayers) as Hyin
    by (rewrite <- Hperm; right; by left).
  unfold exampleTiedPlayers in Hxin, Hyin.
  apply elem_of_cons in Hxin as [->|Hxin]; [discriminate Hx|].
  apply elem_of_cons in Hxin as [->|Hxin]; [|by apply elem_of_nil in Hxin].
  apply elem_of_cons in Hyin as [->|Hyin].
  2:{ apply elem_of_cons in Hyin as [->|Hyin]; [discriminate Hy|].
      by apply elem_of_nil in Hyin. }
  destruct Hxy as [Hlt|[_ Hpos]].
  - unfold Qlt in Hlt. simpl in Hlt. lia.
  - vm_compute in Hpos. lia.
Qed.

(** * Further properties *)

(** ** Scores never decrease *)

Lemma getPlacementPoints_nonneg (place playerCount : nat) :
  0 <= getPlacementPoints place playerCount.
Proof.
  assert (Hrow : forall (row : gmap nat Z),
             map_Forall (fun _ v => 0 <= v) row ->
             0 <= default 0 (row !! place)).
  { intros row Hrow. destruct (row !! place) as [v|] eqn:E; simpl; [|lia].
    by apply (Hrow place v). }
  assert (Htab : map_Forall (fun _ row => map_Forall (fun _ v => 0 <= v) row)
                   PLACEMENT_POINTS_BY_PLAYER_COUNT).
  { unfold PLACEMENT_POINTS_BY_PLAYER_COUNT.
    repeat (rewrite list_to_map_cons || rewrite list_to_map_nil).
    repeat first [ lia | apply map_Forall_empty
                 | apply map_Forall_insert_2 ]. }
  unfold getPlacementPoints.
  destruct (PLACEMENT_POINTS_BY_PLAYER_COUNT !! playerCount) as [row|] eqn:E.
  - apply Hrow. by apply (Htab playerCount row).
  - destruct (PLACEMENT_POINTS_BY_PLAYER_COUNT !! 4%nat) as [row|] eqn:E4;
      simpl; [|lia].
    apply Hrow. by apply (Htab 4%nat row).
Qed.

Lemma pointsLoop_nonneg (count p n : nat) (acc : Z) :
  0 <= acc -> 0 <= pointsLoop count p n acc.
Proof.
  revert p acc. induction count as [|count IH]; intros p acc Hacc; [done|].
  simpl. apply IH. pose proof (getPlacementPoints_nonneg p n). lia.
Qed.

Lemma Qdiv_nonneg (a b : Z) :
  0 <= a -> 0 <= b -> (0 <= inject_Z a / inject_Z b)%Q.
Proof.
  intros Ha Hb. unfold Qdiv. apply Qmult_le_0_compat.
  - change 0%Q with (inject_Z 0). by rewrite <- Zle_Qle.
  - apply Qinv_le_0_compat. change 0%Q with (inject_Z 0).
    by rewrite <- Zle_Qle.
Qed.

Lemma placementLoop_nonneg (fuel : nat) (sorted : list PlayerSelection)
    (n : nat) (results : list SetResult) (k i : nat) :
  Forall (fun r => (0 <= pointsEarned r)%Q) results ->
  Forall (fun r => (0 <= pointsEarned r)%Q)
    (placementLoop fuel sorted n results k i).
Proof.
  revert results k i. induction fuel as [|fuel IH]; intros results k i Hr.
  { done. }
  simpl. destruct (sorted !! i) as [si|]; [|done].
  destruct (tieScan _ _ _ _ _) as [tiedPlayers j].
  apply IH. apply Forall_app. split; [done|].
  apply Forall_fmap, Forall_forall. intros x _. simpl.
  apply fl_nonneg, Qdiv_nonneg; [by apply pointsLoop_nonneg|lia].
Qed.

Lemma calculateSetPlacements_nonneg selections playerCount :
  Forall (fun r => (0 <= pointsEarned r)%Q)
    (calculateSetPlacements selections playerCount).
Proof.
  unfold calculateSetPlacements.
  destruct (length selections =? 0)%nat; [done|].
  by apply placementLoop_nonneg.
Qed.

Lemma Qltb_false (x y : Q) : Qltb x y = false -> (y <= x)%Q.
Proof.
  unfold Qltb. intros H. apply negb_false_iff in H.
  by apply Qle_bool_iff.
Qed.

Lemma calculatePredictionBonus_nonneg t (roundTotal : Q) n :
  (0 <= roundTotal)%Q -> (0 <= calculatePredictionBonus t roundTotal n)%Q.
Proof.
  intros H. unfold calculatePredictionBonus.
  destruct (getPredictionRange t n) as [lo hi].
  destruct (Qltb roundTotal (inject_Z lo) || Qltb (inject_Z hi) roundTotal);
    [done|].
  case_decide; [done|done].
Qed.
Lemma scoresGrow_refl ps : scoresGrow ps ps.
Proof.
  apply Forall2_same_length_lookup_2; [done|].
  intros i p p' H1 H2. simplify_eq. split; [done|apply Qle_refl].
Qed.

Lemma scoresGrow_trans ps1 ps2 ps3 :
  scoresGrow ps1 ps2 -> scoresGrow ps2 ps3 -> scoresGrow ps1 ps3.
Proof.
  unfold scoresGrow. intros H1. revert ps3.
  induction H1 as [|p q ps qs [E1 L1] H1 IH]; intros ps3 H2;
    inversion H2 as [|? r ? rs [E2 L2] H2']; subst; constructor.
  - split; [congruence|]. eapply Qle_trans; eauto.
  - by apply IH.
Qed.

Lemma okPlayers_refl ps : okPlayers ps ps.
Proof. intros H. split; [done|apply scoresGrow_refl]. Qed.

Lemma okPlayers_trans ps1 ps2 ps3 :
  okPlayers ps1 ps2 -> okPlayers ps2 ps3 -> okPlayers ps1 ps3.
Proof.
  intros H1 H2 H. destruct (H1 H) as [N2 G2]. destruct (H2 N2) as [N3 G3].
  split; [done|]. eapply scoresGrow_trans; eauto.
Qed.

Lemma outcomeOK_trans ps ps' out :
  okPlayers ps ps' -> outcomeOK ps' out -> outcomeOK ps out.
Proof.
  destruct out as [[s|err] e]; simpl; [|done].
  apply okPlayers_trans.
Qed.

Lemma okPlayers_map (f : Player -> Player) ps :
  (scoresNonneg ps -> forall p, p ∈ ps ->
     player_id (f p) = player_id p
     /\ (cumulativeScore p <= cumulativeScore (f p))%Q
     /\ (0 <= set1Score (f p) /\ 0 <= set2Score (f p)
         /\ 0 <= currentRoundScore (f p))%Q) ->
  okPlayers ps (map f ps).
Proof.
  intros Hf Hn. specialize (Hf Hn). split.
  - apply Forall_fmap, Forall_forall. intros p Hp. by apply Hf.
  - apply Forall2_fmap_r, Forall2_same_length_lookup_2; [done|].
    intros i p p' H1 H2. simplify_eq.
    destruct (Hf p) as (E & L & _); [by eapply list_elem_of_lookup_2|].
    done.
Qed.

(** A step that keeps every score. *)
Lemma okPlayers_same ps ps' :
  Forall2 (fun p p' =>
             player_id p' = player_id p
             /\ cumulativeScore p' = cumulativeScore p
             /\ set1Score p' = set1Score p
             /\ set2Score p' = set2Score p
             /\ currentRoundScore p' = currentRoundScore p) ps ps' ->
  okPlayers ps ps'.
Proof.
  intros H Hn. split.
  - unfold scoresNonneg in *. rewrite Forall_forall in Hn.
    apply Forall_forall. intros p' Hp'.
    apply list_elem_of_lookup in Hp' as [i Hi].
    destruct (Forall2_lookup_r _ _ _ _ _ H Hi) as (p & Hp & _ & _ & -> & -> & ->).
    apply Hn. by eapply list_elem_of_lookup_2.
  - eapply Forall2_impl; [exact H|].
    intros p p' (-> & -> & _). split; [done|apply Qle_refl].
Qed.

Lemma mapRand_Forall2 {A B} (R : A -> B -> Prop)
    (f : A -> Entropy -> B * Entropy) (l : list A) (e : Entropy) :
  (forall x e0, R x (fst (f x e0))) ->
  Forall2 R l (fst (mapRand f l e)).
Proof.
  intros Hf. revert e. induction l as [|x l IH]; intros e; simpl.
  { constructor. }
  specialize (Hf x e). destruct (f x e) as [y e1].
  specialize (IH e1). destruct (mapRand f l e1) as [ys e2].
  simpl in *. by constructor.
Qed.

Lemma map_Forall2_same {A B} (R : A -> B -> Prop) (f : A -> B)
    (l : list A) :
  (forall x, R x (f x)) -> Forall2 R l (map f l).
Proof.
  intros Hf. apply Forall2_fmap_r, Forall2_same_length_lookup_2; [done|].
  intros i x y H1 H2. simplify_eq. apply Hf.
Qed.

Lemma exn_mapM_Ok {A B} (f : A -> Exn B) (l : list A) (ys : list B) :
  exn_mapM f l = Ok ys <-> Forall2 (fun x y => f x = Ok y) l ys.
Proof.
  revert ys. induction l as [|x l IH]; intros ys; simpl.
  - split.
    + intros [= <-]. constructor.
    + intros H. by inversion H.
  - split.
    + intros H. destruct (f x) as [y|err] eqn:E; [|discriminate].
      destruct (exn_mapM f l) as [zs|err] eqn:E2; [|discriminate].
      injection H as <-. constructor; [done|]. by apply IH.
    + intros H. inversion H as [|? y ? zs Hy Hzs]; subst.
      rewrite Hy. apply IH in Hzs. by rewrite Hzs.
Qed.
Local Abbreviation pl c := (players (gameState c)).

Lemma processSetSelection_scores c c' :
  actions.processSetSelection c = Ok c' -> okPlayers (pl c) (pl c').
Proof.
  unfold actions.processSetSelection. intros H.
  destruct (exn_mapM _ _) as [selections|err]; simplify_eq/=.
  apply okPlayers_map. intros Hn p Hp.
  unfold scoresNonneg in Hn. rewrite Forall_forall in Hn.
  destruct (Hn p Hp) as (H1 & H2 & H3).
  unfold actions.creditPlayer. cbn [player_id cumulativeScore set1Score
    set2Score currentRoundScore].
  split; [done|]. split; [apply Qle_refl|].
  set (results := calculateSetPlacements selections _).
  assert (Hpts : (0 <= match List.find
                    (fun r => bool_decide (sr_playerId r = player_id p))
                    results with
                  | Some r => pointsEarned r
                  | None => 0
                  end)%Q).
  { destruct (List.find _ results) as [r|] eqn:Hf; [|apply Qle_refl].
    apply find_some in Hf as [Hin _].
    pose proof (calculateSetPlacements_nonneg selections
                  (Some (length (pl c)))) as Hall.
    rewrite Forall_forall in Hall. apply Hall. by apply list_elem_of_In. }
  destruct (currentSet (gameState c) =? 1), (currentSet (gameState c) =? 2);
    repeat split; try done; try lra; by apply js_add_nonneg.
Qed.

Lemma processPredictions_scores c c' :
  actions.processPredictions c = Ok c' -> okPlayers (pl c) (pl c').
Proof.
  unfold actions.processPredictions. intros H.
  destruct (exn_mapM _ _) as [outcomes|err] eqn:Hm; simplify_eq/=.
  apply okPlayers_map. intros Hn p Hp.
  unfold scoresNonneg in Hn. rewrite Forall_forall in Hn.
  destruct (Hn p Hp) as (H1 & H2 & H3).
  cbn [withCumulativeScore player_id cumulativeScore set1Score set2Score
       currentRoundScore].
  split; [done|]. split; [|done].
  assert (Hall : Forall (fun o => (0 <= bonus o)%Q) outcomes).
  { apply exn_mapM_Ok in Hm. apply Forall_forall. intros o Ho.
    apply list_elem_of_lookup in Ho as [i Hi].
    destruct (Forall2_lookup_r _ _ _ _ _ Hm Hi) as (q & Hq & Hout).
    destruct (Hn q) as (_ & _ & Hcur); [by eapply list_elem_of_lookup_2|].
    unfold actions.predictionOutcome in Hout.
    destruct (prediction q) as [t|]; [|discriminate].
    injection Hout as <-. simpl.
    by apply calculatePredictionBonus_nonneg. }
  destruct (List.find _ outcomes) as [o|] eqn:Hf.
  - apply find_some in Hf as [Hin _].
    rewrite Forall_forall in Hall.
    assert (0 <= bonus o)%Q by (apply Hall; by apply list_elem_of_In).
    eapply Qle_trans; [by apply (js_add_ge _ (currentRoundScore p))|].
    by apply js_add_ge.
  - eapply Qle_trans; [by apply (js_add_ge _ (currentRoundScore p))|].
    apply js_add_ge, Qle_refl.
Qed.

Lemma rollAllDice_scores O c e :
  okPlayers (pl c) (pl (fst (actions.rollAllDice O c e))).
Proof.
  unfold actions.rollAllDice.
  pose proof (mapRand_Forall2
    (fun p p' : Player =>
       player_id p' = player_id p /\ cumulativeScore p' = cumulativeScore p
       /\ set1Score p' = set1Score p /\ set2Score p' = set2Score p
       /\ currentRoundScore p' = currentRoundScore p)
    (fun player e0 =>
       let '(ds, e') := actions.generatePlayerDice O e0 in
       (withDice ds player, e')) (pl c) e) as H.
  destruct (mapRand _ (pl c) e) as [ps e1]. simpl in *.
  apply okPlayers_same, H. intros x e0.
  by destruct (actions.generatePlayerDice O e0).
Qed.

Lemma advanceRound_scores O c e :
  okPlayers (pl c) (pl (fst (actions.advanceRound O c e))).
Proof.
  unfold actions.advanceRound. cbn [gameState assignGameState players
    withPendingSelections withSetResults withCurrentTurnIndex withCurrentSet
    withCurrentRound].
  pose proof (mapRand_Forall2
    (fun p p' : Player =>
       player_id p' = player_id p /\ cumulativeScore p' = cumulativeScore p
       /\ set1Score p' = set1Score p /\ set2Score p' = set2Score p
       /\ currentRoundScore p' = currentRoundScore p)
    (fun player e0 =>
       let '(ds, e') := actions.generatePlayerDice O e0 in
       (withDice ds player, e')) (pl c) e) as H.
  destruct (mapRand _ (pl c) e) as [ps e1]. simpl in *.
  apply okPlayers_same, H. intros x e0.
  by destruct (actions.generatePlayerDice O e0).
Qed.

Lemma autoSubmitPredictions_scores O c e :
  okPlayers (pl c) (pl (fst (actions.autoSubmitPredictions O c e))).
Proof.
  unfold actions.autoSubmitPredictions.
  set (f := fun (player : Player) (e0 : Entropy) => _).
  pose proof (mapRand_Forall2
    (fun p p' : Player =>
       player_id p' = player_id p /\ cumulativeScore p' = cumulativeScore p
       /\ set1Score p' = set1Score p /\ set2Score p' = set2Score p
       /\ currentRoundScore p' = currentRoundScore p) f (pl c) e) as H.
  destruct (mapRand f (pl c) e) as [ps e1]. simpl in *.
  apply okPlayers_same, H. intros x e0. unfold f.
  destruct (prediction x); [done|].
  by destruct (Math_random O e0).
Qed.

Lemma resetPlayerRoundState_scores c :
  okPlayers (pl c) (pl (actions.resetPlayerRoundState c)).
Proof.
  simpl. apply okPlayers_map. intros _ p _. simpl.
  repeat split; try done; apply Qle_refl.
Qed.

Lemma storePrediction_scores c playerId t :
  okPlayers (pl c) (pl (actions.storePrediction c playerId t)).
Proof.
  simpl. apply okPlayers_same, map_Forall2_same. intros p.
  by case_bool_decide.
Qed.
Lemma players_setTurnOrder c : pl (actions.setTurnOrder c) = pl c.
Proof.
  unfold actions.setTurnOrder.
  by destruct ((currentRound (gameState c) =? 1) && _).
Qed.

Lemma players_confirmSelection c playerId :
  pl (actions.confirmSelection c playerId) = pl c.
Proof. unfold actions.confirmSelection. by case_bool_decide. Qed.

Lemma players_autoSelectDice c : pl (actions.autoSelectDice c) = pl c.
Proof.
  unfold actions.autoSelectDice.
  destruct (turnOrder (gameState c) !! _) as [pid|]; [|done].
  by destruct (findPlayer _ pid).
Qed.

Lemma always_set_selection_scores c e :
  outcomeOK (pl c) (machine.always_set_selection c e).
Proof.
  unfold machine.always_set_selection.
  destruct (guards.allSelectionsConfirmed c).
  - destruct (actions.processSetSelection c) as [c'|err] eqn:E; simpl; [|done].
    by apply processSetSelection_scores.
  - simpl. apply okPlayers_refl.
Qed.

Lemma enter_set_selection_scores c e :
  outcomeOK (pl c) (machine.enter_set_selection c e).
Proof. apply (always_set_selection_scores (actions.setPhase SET_SELECTION c)). Qed.

Lemma always_prediction_scores c e :
  outcomeOK (pl c) (machine.always_prediction c e).
Proof.
  unfold machine.always_prediction.
  destruct (guards.allPredictionsSubmitted c).
  - apply (enter_set_selection_scores (machine.clearPendingSelections c)).
  - simpl. apply okPlayers_refl.
Qed.

Lemma enter_prediction_scores c e :
  outcomeOK (pl c) (machine.enter_prediction c e).
Proof. apply (always_prediction_scores (actions.setPhase PREDICTION c)). Qed.

Lemma always_initial_roll_scores O c e :
  outcomeOK (pl c) (machine.always_initial_roll O c e).
Proof.
  unfold machine.always_initial_roll.
  destruct (guards.allPlayersRolled c); [|apply okPlayers_refl].
  pose proof (rollAllDice_scores O (actions.setTurnOrder c) e) as H.
  destruct (actions.rollAllDice O (actions.setTurnOrder c) e) as [c2 e1].
  rewrite players_setTurnOrder in H.
  eapply outcomeOK_trans; [exact H|]. apply enter_prediction_scores.
Qed.

Lemma enter_initial_roll_scores O c e :
  outcomeOK (pl c) (machine.enter_initial_roll O c e).
Proof.
  unfold machine.enter_initial_roll.
  assert (pl (fst (actions.rollInitialTurnOrder O
                     (actions.setPhase INITIAL_ROLL c) e)) = pl c) as H.
  { unfold actions.rollInitialTurnOrder. by destruct (mapRand _ _ _). }
  destruct (actions.rollInitialTurnOrder O _ e) as [c2 e1].
  simpl in H. rewrite <- H. apply always_initial_roll_scores.
Qed.

Lemma enter_round_summary_scores c e :
  outcomeOK (pl c) (machine.enter_round_summary c e).
Proof.
  unfold machine.enter_round_summary.
  destruct (actions.processPredictions _) as [c'|err] eqn:E; simpl; [|done].
  by apply processPredictions_scores in E.
Qed.

Lemma send_scores O s event e :
  outcomeOK (pl (snap_context s)) (machine.send O s event e).
Proof.
  unfold machine.send.
  destruct (snap_value s), event; try apply okPlayers_refl.
  - apply (enter_initial_roll_scores O (machine.initializeRound1 _)).
  - eapply outcomeOK_trans; [apply storePrediction_scores|].
    apply always_prediction_scores.
  - pose proof (autoSubmitPredictions_scores O (snap_context s) e) as H.
    destruct (actions.autoSubmitPredictions O (snap_context s) e) as [c e1].
    eapply outcomeOK_trans; [exact H|]. apply always_prediction_scores.
  - apply (always_set_selection_scores (actions.storeDiceSelection _ _ _)).
  - pose proof (always_set_selection_scores
                  (actions.confirmSelection (snap_context s) playerId) e) as H.
    by rewrite players_confirmSelection in H.
  - pose proof (always_set_selection_scores
                  (actions.autoSelectDice (snap_context s)) e) as H.
    by rewrite players_autoSelectDice in H.
  - destruct (guards.isSet1 _).
    + apply (enter_set_selection_scores (actions.advanceSet _)).
    + destruct (guards.isSet2 _); [|apply okPlayers_refl].
      apply enter_round_summary_scores.
  - destruct (guards.hasMoreRounds _).
    + pose proof (advanceRound_scores O (snap_context s) e) as H.
      destruct (actions.advanceRound O (snap_context s) e) as [c1 e1].
      eapply outcomeOK_trans; [exact H|].
      eapply outcomeOK_trans; [apply resetPlayerRoundState_scores|].
      pose proof (enter_prediction_scores
                    (actions.setTurnOrder (actions.resetPlayerRoundState c1))
                    e1) as H2.
      by rewrite players_setTurnOrder in H2.
    + destruct (guards.isGameOver _); apply okPlayers_refl.
Qed.

Lemma deliver_scores O a event e :
  okPlayers (players (getGameStateFromActor a))
    (players (getGameStateFromActor (fst (machine.deliver O a event e)))).
Proof.
  unfold machine.deliver, getGameStateFromActor.
  destruct (stopped a); [apply okPlayers_refl|].
  pose proof (send_scores O (snapshot a) event e) as H.
  destruct (machine.send O (snapshot a) event e) as [[s'|err] e'];
    simpl in *; [done|apply okPlayers_refl].
Qed.

Lemma engineReachable_nonneg O g0 a :
  scoresNonneg (players g0) -> engineReachable O g0 a ->
  scoresNonneg (players (getGameStateFromActor a)).
Proof.
  intros H0 Hr. induction Hr as [|a event e Hr IH]; [done|].
  by apply (deliver_scores O a event e).
Qed.

(** Every event delivered to an engine in a reachable state leaves the
    players in place and each of them with a cumulative score that is not
    lower than before. *)
Theorem cumulativeScore_monotone (O : Oracle) (g0 : GameState) (a : Actor)
    (event : GameMachineEvent) (e : Entropy) :
  scoresNonneg (players g0) ->
  engineReachable O g0 a ->
  Forall2 (fun p p' => player_id p = player_id p'
                       /\ (cumulativeScore p <= cumulativeScore p')%Q)
    (players (getGameStateFromActor a))
    (players (getGameStateFromActor (fst (machine.deliver O a event e)))).
Proof.
  intros H0 Hr.
  apply (deliver_scores O a event e).
  by eapply engineReachable_nonneg.
Qed.

Lemma cumulativeScore_monotone_witness :
  Forall2 (fun p p' => player_id p = player_id p'
                       /\ (cumulativeScore p <= cumulativeScore p')%Q)
    (players exampleLobby)
    (players
       (getGameStateFromActor
          (fst (machine.deliver exampleOracle
                  (mkActor (machine.createGameActor exampleLobby) false)
                  START_GAME (mkEntropy 0 0))))).
Proof.
  apply (cumulativeScore_monotone exampleOracle exampleLobby
           (mkActor (machine.createGameActor exampleLobby) false)
           START_GAME (mkEntropy 0 0)).
  - unfold scoresNonneg, exampleLobby, exampleHost, exampleGuest.
    cbn [players set1Score set2Score currentRoundScore].
    repeat (apply Forall_cons; split;
            [cbn [set1Score set2Score currentRoundScore];
             repeat split; apply Qle_refl|]).
    apply Forall_nil_2.
  - apply engine_created.
Defined.

(** ** Scores over a whole run *)

Lemma deliverAll_scores O events a e :
  okPlayers (players (getGameStateFromActor a))
    (players (getGameStateFromActor (fst (deliverAll O events a e)))).
Proof.
  revert a e. induction events as [|event events IH]; intros a e.
  - apply okPlayers_refl.
  - cbn [deliverAll]. eapply okPlayers_trans; [apply deliver_scores|].
    apply IH.
Qed.

(** C7: an engine is created with the players of a room, none of whom has
    a negative set or round score (the registry creates players with all
    scores zero), and its state changes by the events delivered to it.  In
    every state the engine can reach in this way, whatever event arrives next
    leaves the players in place and each of them with a cumulative score
    that is not lower than before; the same holds from any such state to
    the state after any further sequence of events. *)
Theorem cumulativeScore_never_decreases (O : Oracle) (g0 : GameState)
    (a : Actor) :
  scoresNonneg (players g0) ->
  engineReachable O g0 a ->
  (forall event e,
     Forall2 (fun p p' => player_id p = player_id p'
                          /\ (cumulativeScore p <= cumulativeScore p')%Q)
       (players (getGameStateFromActor a))
       (players (getGameStateFromActor (fst (machine.deliver O a event e)))))
  /\ (forall events e,
        Forall2 (fun p p' => player_id p = player_id p'
                             /\ (cumulativeScore p <= cumulativeScore p')%Q)
          (players (getGameStateFromActor a))
          (players (getGameStateFromActor (fst (deliverAll O events a e))))).
Proof.
  intros H0 Hr.
  pose proof (engineReachable_nonneg O g0 a H0 Hr) as Hn.
  split.
  - intros event e. by apply (deliver_scores O a event e).
  - intros events e. by apply (deliverAll_scores O events a e).
Qed.

Lemma cumulativeScore_never_decreases_witness :
  Forall2 (fun p p' => player_id p = player_id p'
                       /\ (cumulativeScore p <= cumulativeScore p')%Q)
    (players exampleLobby)
    (players
       (getGameStateFromActor
          (fst (deliverAll exampleOracle exampleTimedOutGame
                  (mkActor (machine.createGameActor exampleLobby) false)
                  (mkEntropy 0 0))))).
Proof.
  apply (cumulativeScore_never_decreases exampleOracle exampleLobby
           (mkActor (machine.createGameActor exampleLobby) false)).
  - unfold scoresNonneg, exampleLobby, exampleHost, exampleGuest.
    cbn [players set1Score set2Score currentRoundScore].
    repeat (apply Forall_cons; split;
            [cbn [set1Score set2Score currentRoundScore];
             repeat split; apply Qle_refl|]).
    apply Forall_nil_2.
  - apply engine_created.
Defined.

(** ** More on hands *)

Lemma js_sort_Z_perm_eq (l l' : list Z) :
  l ≡ₚ l' ->
  js_sort (fun a b => numZ (a - b)) l = js_sort (fun a b => numZ (a - b)) l'.
Proof.
  intros Hp. apply js_sort_Z_unique; [|apply js_sort_Z_sorted].
  by rewrite js_sort_perm.
Qed.

(** [evaluateHand] looks at the values of the dice only, and not at their
    order: two lists of dice with the same values in some order get the same
    result, be it a hand or the exception. *)
Theorem evaluateHand_permutation (dice dice' : list Die) :
  map value dice ≡ₚ map value dice' ->
  evaluateHand dice = evaluateHand dice'.
Proof.
  intros Hp. unfold evaluateHand.
  assert (length dice = length dice') as <-.
  { rewrite <- (length_map value dice), <- (length_map value dice').
    by rewrite Hp. }
  by rewrite (js_sort_Z_perm_eq _ _ Hp).
Qed.

Lemma evaluateHand_permutation_witness :
  evaluateHand [mkDie "a" WHITE 4 false true; mkDie "b" RED 6 false false;
                mkDie "c" WHITE 5 false true]
  = evaluateHand [mkDie "x" BLUE 6 true true; mkDie "y" WHITE 5 false true;
                  mkDie "z" WHITE 4 false true].
Proof.
  apply evaluateHand_permutation. simpl.
  change ([4] ++ [6; 5] ≡ₚ [6; 5] ++ [4]). apply Permutation_app_comm.
Defined.

(** [evaluateHand] returns a hand exactly for three dice; any other number
    of dice raises the error "Hand must contain exactly 3 dice".  The hand
    of three dice takes its values from the dice: the primary value is the
    value of one of them, and the secondary and tertiary values are values
    of the dice or 0. *)
Theorem evaluateHand_three (dice : list Die) :
  (length dice <> 3%nat ->
   evaluateHand dice = Throw (Error "Hand must contain exactly 3 dice"))
  /\ (length dice = 3%nat ->
      exists h, evaluateHand dice = Ok h
        /\ primaryValue h ∈ map value dice
        /\ (secondaryValue h = 0 \/ secondaryValue h ∈ map value dice)
        /\ (tertiaryValue h = 0 \/ tertiaryValue h ∈ map value dice)).
Proof.
  split.
  - intros Hlen. unfold evaluateHand.
    destruct (Nat.eqb_spec (length dice) 3); [done|reflexivity].
  - intros Hlen. unfold evaluateHand. rewrite Hlen. cbn [Nat.eqb negb].
    set (values := js_sort _ (map value dice)).
    assert (Hperm : values ≡ₚ map value dice) by apply js_sort_perm.
    assert (Hl : length values = 3%nat).
    { unfold values. by rewrite js_sort_length, length_map. }
    destruct values as [|low [|mid [|high [|]]]]; try discriminate.
    cbn [nth].
    assert (low ∈ map value dice) by (rewrite <- Hperm; left).
    assert (mid ∈ map value dice) by (rewrite <- Hperm; right; left).
    assert (high ∈ map value dice)
      by (rewrite <- Hperm; right; right; left).
    repeat match goal with
           | |- context [if ?b then _ else _] => destruct b
           end;
      eexists; (split; [reflexivity|]); cbn; auto.
Qed.

(** [compareHands] orders hands as a total preorder: a hand ties with
    itself, swapping the arguments flips the sign, "not worse than" is
    transitive, two hands tie exactly when rank and the three values agree
    (the description plays no part), and a higher rank wins whatever the
    values. *)
Theorem compareHands_order :
  (forall a, compareHands a a = 0)
  /\ (forall a b, compareHands b a = - compareHands a b)
  /\ (forall a b c,
        0 <= compareHands a b -> 0 <= compareHands b c ->
        0 <= compareHands a c)
  /\ (forall a b,
        compareHands a b = 0 <->
        rank a = rank b /\ primaryValue a = primaryValue b
        /\ secondaryValue a = secondaryValue b
        /\ tertiaryValue a = tertiaryValue b)
  /\ (forall a b,
        rankValue (rank b) < rankValue (rank a) -> 0 < compareHands a b)
  /\ rankValue SINGLE < rankValue DOUBLE < rankValue STRAIGHT
     /\ rankValue STRAIGHT < rankValue TRIPLE.
Proof.
  split; [|split; [|split; [|split; [|split]]]].
  - intros a. by apply compareHands_zero.
  - apply compareHands_flip.
  - apply compareHands_trans.
  - intros a b. rewrite compareHands_zero. split.
    + intros (Hr & ? & ? & ?). repeat split; try done.
      destruct (rank a), (rank b); simpl in Hr; congruence.
    + intros (-> & ? & ? & ?). done.
  - intros a b Hr. unfold compareHands.
    destruct (Z.eqb_spec (rankValue (rank a)) (rankValue (rank b)));
      cbn [negb]; lia.
  - simpl. lia.
Qed.

(** ** A set's results, for any number of players *)

Lemma pointsLoop_sum (playerCount count k : nat) (acc : Z) :
  pointsLoop count k playerCount acc
  = acc + placementPointsSum playerCount k count.
Proof.
  unfold placementPointsSum. revert k acc.
  induction count as [|count IH]; intros k acc; simpl; [lia|].
  rewrite IH. lia.
Qed.

Lemma placementPointsSum_app (n k a b : nat) :
  placementPointsSum n k (a + b)
  = placementPointsSum n k a + placementPointsSum n (k + a) b.
Proof.
  unfold placementPointsSum. revert k.
  induction a as [|a IH]; intros k; simpl.
  - by rewrite Nat.add_0_r.
  - rewrite IH. replace (S k + a)%nat with (k + S a)%nat by lia. lia.
Qed.

Lemma placementLoop_walk (fuel : nat) (sorted : list PlayerSelection)
    (playerCount : nat) (results : list SetResult) (k i : nat) :
  (length (drop i sorted) <= fuel)%nat ->
  placementLoop fuel sorted playerCount results k i
  = results ++ groupWalk playerCount k (tieGroups (drop i sorted)).
Proof.
  revert results k i.
  induction fuel as [|fuel IH]; intros results k i Hf.
  - destruct (drop i sorted); [|simpl in Hf; lia].
    simpl. by rewrite app_nil_r.
  - simpl. destruct (sorted !! i) as [si|] eqn:Hi.
    + rewrite tieScan_spec by (rewrite length_drop; lia).
      rewrite (drop_lookup_cons _ _ _ Hi) in Hf |- *. simpl in Hf.
      rewrite tieGroups_cons. cbn [groupWalk].
      pose proof (tiePrefix_length si (drop (S i) sorted)) as Hlen.
      rewrite IH.
      * rewrite drop_drop.
        rewrite <- app_assoc. cbn [app length].
        replace (S i + length (tiePrefix si (drop (S i) sorted)))%nat
          with (length (tiePrefix si (drop (S i) sorted)) + S i)%nat by lia.
        reflexivity.
      * rewrite length_drop in *. lia.
    + apply lookup_ge_None in Hi. rewrite drop_ge by done.
      simpl. by rewrite app_nil_r.
Qed.

Lemma GroupsOK_lookup (gs : list (list PlayerSelection)) :
  (forall g, g ∈ gs -> g <> []) ->
  (forall g a b, g ∈ gs -> a ∈ g -> b ∈ g ->
     compareHands (sel_hand a) (sel_hand b) = 0) ->
  (forall i j g g' a b, (i < j)%nat ->
     gs !! i = Some g -> gs !! j = Some g' -> a ∈ g -> b ∈ g' ->
     0 < compareHands (sel_hand a) (sel_hand b)) ->
  GroupsOK gs.
Proof.
  induction gs as [|g gs IH]; intros Hne Ht Hs; [done|].
  cbn [GroupsOK]. split; [apply Hne; by left|].
  split; [intros a b; apply Ht; by left|].
  split.
  - intros a g' b Ha Hg' Hb.
    apply list_elem_of_lookup in Hg' as [j Hj].
    apply (Hs 0%nat (S j) g g' a b); [lia|done|done|done|done].
  - apply IH.
    + intros g' Hg'. apply Hne. by right.
    + intros g' a b Hg'. apply Ht. by right.
    + intros i j g1 g2 a b Hij Hi Hj.
      apply (Hs (S i) (S j) g1 g2 a b); [lia|done|done].
Qed.

Lemma GroupsOK_tieGroups (l : list PlayerSelection) :
  StronglySorted (fun a b => 0 <= compareHands (sel_hand a) (sel_hand b)) l ->
  GroupsOK (tieGroups l).
Proof.
  intros Hs. apply GroupsOK_lookup.
  - apply tieGroups_nonempty.
  - intros g a b Hg Ha Hb.
    pose proof (tieGroups_tied l g a b Hg Ha Hb) as Ht.
    unfold tied in Ht. by apply Z.eqb_eq in Ht.
  - intros i j g g' a b Hij Hi Hj Ha Hb.
    by apply (tieGroups_strict l i j g g' a b).
Qed.

Lemma filter_length_all {A} (P : A -> Prop) `{!forall x, Decision (P x)}
    (l : list A) :
  (forall x, x ∈ l -> P x) -> length (filter P l) = length l.
Proof.
  induction l as [|x l IH]; intros Hall; [done|].
  rewrite filter_cons_True by (apply Hall; by left). simpl.
  rewrite IH; [done|]. intros y Hy. apply Hall. by right.
Qed.

Lemma filter_length_none {A} (P : A -> Prop) `{!forall x, Decision (P x)}
    (l : list A) :
  (forall x, x ∈ l -> ~ P x) -> length (filter P l) = 0%nat.
Proof.
  induction l as [|x l IH]; intros Hall; [done|].
  rewrite filter_cons_False by (apply Hall; by left).
  apply IH. intros y Hy. apply Hall. by right.
Qed.

Lemma groupWalk_standings (n : nat) (selections pre : list PlayerSelection)
    (gs : list (list PlayerSelection)) :
  selections ≡ₚ pre ++ concat gs ->
  (forall x g s, x ∈ pre -> g ∈ gs -> s ∈ g ->
     0 < compareHands (sel_hand x) (sel_hand s)) ->
  GroupsOK gs ->
  Forall2 (standingOf selections n) (concat gs)
    (groupWalk n (S (length pre)) gs).
Proof.
  revert pre. induction gs as [|g gs IH]; intros pre Hp Hpre Hok;
    [constructor|].
  cbn [concat groupWalk]. destruct Hok as (Hne & Htie & Hlater & Hok).
  apply Forall2_app.
  - apply Forall2_fmap_r, Forall_Forall2_diag, Forall_forall.
    intros s Hs.
    assert (Hb : betterCount selections s = length pre).
    { unfold betterCount. rewrite Hp. cbn [concat].
      rewrite !filter_app, !length_app.
      rewrite (filter_length_all _ pre).
      2:{ intros x Hx. apply (Hpre x g s Hx); [by left|done]. }
      rewrite (filter_length_none _ g).
      2:{ intros x Hx. rewrite (Htie x s Hx Hs). lia. }
      rewrite (filter_length_none _ (concat gs)); [lia|].
      intros x (g' & Hg' & Hx)%elem_of_concat.
      pose proof (Hlater s g' x Hs Hg' Hx) as Hlt.
      rewrite compareHands_flip. lia. }
    assert (Ht : tiedCount selections s = length g).
    { unfold tiedCount. rewrite Hp. cbn [concat].
      rewrite !filter_app, !length_app.
      rewrite (filter_length_none _ pre).
      2:{ intros x Hx.
          pose proof (Hpre x g s Hx (ltac:(by left)) Hs). lia. }
      rewrite (filter_length_all _ g).
      2:{ intros x Hx. by apply Htie. }
      rewrite (filter_length_none _ (concat gs)); [lia|].
      intros x (g' & Hg' & Hx)%elem_of_concat.
      pose proof (Hlater s g' x Hs Hg' Hx) as Hlt.
      rewrite compareHands_flip. lia. }
    unfold standingOf. cbn. rewrite Hb, Ht, pointsLoop_sum, Z.add_0_l.
    done.
  - replace (S (length pre) + length g)%nat
      with (S (length (pre ++ g))) by (rewrite length_app; lia).
    apply IH.
    + rewrite Hp. cbn [concat]. by rewrite app_assoc.
    + intros x g' s [Hx|Hx]%elem_of_app Hg' Hs.
      * apply (Hpre x g' s Hx); [by right|done].
      * by apply (Hlater x g' s).
    + done.
Qed.

(** The results of a set, stated for each player directly, whatever the
    number of players: the results follow the selections sorted by hand,
    best first; a player's placement is one more than the number of
    selections with a strictly better hand; the points are the double
    nearest to those of the placements the tied players occupy together
    divided by the number of tied players. *)
Theorem calculateSetPlacements_standings
    (selections : list PlayerSelection) (playerCount : option nat) :
  sortedByHand selections ≡ₚ selections
  /\ StronglySorted
       (fun a b => 0 <= compareHands (sel_hand a) (sel_hand b))
       (sortedByHand selections)
  /\ Forall2
       (standingOf selections (default (length selections) playerCount))
       (sortedByHand selections)
       (calculateSetPlacements selections playerCount).
Proof.
  split; [apply sortedByHand_perm|].
  split; [apply sortedByHand_sorted|].
  unfold calculateSetPlacements.
  destruct (Nat.eqb_spec (length selections) 0) as [H0|H0].
  { destruct selections; [|done]. constructor. }
  rewrite placementLoop_walk by (by rewrite drop_0).
  rewrite drop_0. cbn [app].
  rewrite <- (tieGroups_concat (sortedByHand selections)) at 1.
  apply (groupWalk_standings _ selections []).
  - cbn [app]. by rewrite tieGroups_concat, sortedByHand_perm.
  - intros x g s Hx. by apply elem_of_nil in Hx.
  - apply GroupsOK_tieGroups, sortedByHand_sorted.
Qed.

Lemma sumPoints_app (l1 l2 : list SetResult) :
  (sumPoints (l1 ++ l2) == sumPoints l1 + sumPoints l2)%Q.
Proof.
  unfold sumPoints. induction l1 as [|r l1 IH]; simpl; [ring|].
  rewrite IH. ring.
Qed.

Lemma sumPoints_const {A} (f : A -> SetResult) (c : Q) (l : list A) :
  (forall x, pointsEarned (f x) = c) ->
  (sumPoints (map f l) == inject_Z (Z.of_nat (length l)) * c)%Q.
Proof.
  intros Hc. unfold sumPoints. induction l as [|x l IH].
  - simpl. ring.
  - cbn [map foldr length]. rewrite IH, Hc.
    rewrite Nat2Z.inj_succ. unfold Z.succ. rewrite inject_Z_plus. ring.
Qed.

(** The shares of a tie group add up to the points shared out, within one
    part in [2^53]. *)
Lemma share_error (S : Z) (t : nat) :
  0 <= S -> (0 < t)%nat -> Z.of_nat t < 2 ^ 32 ->
  (inject_Z S - inject_Z S * pow2 (-53)
   <= inject_Z (Z.of_nat t) * fl (inject_Z S / inject_Z (Z.of_nat t))
   <= inject_Z S + inject_Z S * pow2 (-53))%Q.
Proof.
  intros HS Ht Hlen.
  assert (Htq : (1 <= inject_Z (Z.of_nat t) <= pow2 32)%Q).
  { split.
    - change 1%Q with (inject_Z 1). rewrite <- Zle_Qle. lia.
    - rewrite (pow2_Z 32) by lia. rewrite <- Zle_Qle. lia. }
  set (tq := inject_Z (Z.of_nat t)) in *.
  assert (Hx : (inject_Z S / tq * tq == inject_Z S)%Q) by (field; lra).
  destruct (Z.eq_dec S 0) as [->|Hne].
  - rewrite fl_zero by (change (inject_Z 0) with 0%Q; field; lra).
    change (inject_Z 0) with 0%Q. lra.
  - assert (HSq : (1 <= inject_Z S)%Q).
    { change 1%Q with (inject_Z 1). rewrite <- Zle_Qle. lia. }
    set (x := (inject_Z S / tq)%Q) in *. clearbody x tq.
    assert (Hinv : (pow2 (-32) * pow2 32 == 1)%Q)
      by apply (pow2_inverse 32).
    pose proof (pow2_pos (-32)) as P32.
    pose proof (pow2_le (-1022) (-32) ltac:(lia)) as Ple.
    assert (Hlo : (pow2 (-32) <= x)%Q).
    { apply Qnot_lt_le. intros Hlt.
      assert (x * tq < pow2 (-32) * tq)%Q
        by (apply Qmult_lt_compat_r; lra).
      assert (pow2 (-32) * tq <= pow2 (-32) * pow2 32)%Q
        by (apply (Qmult_le_l tq (pow2 32) (pow2 (-32))); lra).
      lra. }
    rewrite fl_pos by lra.
    destruct (flPos_error x ltac:(lra)) as [E1 E2].
    pose proof (pow2_pos (-53)) as P53.
    assert (tq * (x - x * pow2 (-53)) <= tq * flPos x)%Q
      by (apply (Qmult_le_l _ _ tq); lra).
    assert (tq * flPos x <= tq * (x + x * pow2 (-53)))%Q
      by (apply (Qmult_le_l _ _ tq); lra).
    assert (tq * (x * pow2 (-53)) == inject_Z S * pow2 (-53))%Q
      by (rewrite <- Hx; ring).
    split; lra.
Qed.

Lemma placementPointsSum_nonneg (n k t : nat) :
  0 <= placementPointsSum n k t.
Proof.
  rewrite <- (Z.add_0_l (placementPointsSum n k t)), <- pointsLoop_sum.
  by apply pointsLoop_nonneg.
Qed.

Lemma groupWalk_total (n k : nat) (gs : list (list PlayerSelection)) :
  (forall g, g ∈ gs -> g <> []) ->
  Z.of_nat (length (concat gs)) < 2 ^ 32 ->
  let total := inject_Z (placementPointsSum n k (length (concat gs))) in
  (total - total * pow2 (-53) <= sumPoints (groupWalk n k gs)
   <= total + total * pow2 (-53))%Q.
Proof.
  revert k. induction gs as [|g gs IH]; intros k Hne Hlen.
  - cbn -[pow2]. change (inject_Z 0) with 0%Q. split; lra.
  - cbn [groupWalk concat] in *. rewrite length_app in Hlen.
    cbn zeta. rewrite sumPoints_app.
    assert (forall g', g' ∈ gs -> g' <> []) as Hne'
      by (intros g' Hg'; apply Hne; by right).
    specialize (IH (k + length g)%nat Hne' ltac:(lia)).
    cbn zeta in IH.
    rewrite length_app, placementPointsSum_app, inject_Z_plus.
    match goal with
    | |- context [sumPoints (map ?f g)] =>
        rewrite (sumPoints_const f _ g (fun _ => eq_refl))
    end.
    rewrite pointsLoop_sum, Z.add_0_l.
    assert (g <> []) as Hg by (apply Hne; by left).
    pose proof (share_error (placementPointsSum n k (length g)) (length g)
                  (placementPointsSum_nonneg _ _ _)
                  ltac:(destruct g; [done|simpl; lia]) ltac:(lia))
      as [S1 S2].
    destruct IH as [I1 I2].
    split; lra.
Qed.

(** Ties share points out and, up to the rounding of the shares, neither
    create nor lose any: for fewer than [2^32] selections (the bound of a
    JavaScript array) the points of all results of a set add up to the
    points of the placements 1 to the number of selections, within one part
    in [2^53] of them. *)
Theorem calculateSetPlacements_total
    (selections : list PlayerSelection) (playerCount : option nat) :
  Z.of_nat (length selections) < 2 ^ 32 ->
  let total :=
    inject_Z
      (placementPointsSum (default (length selections) playerCount) 1
         (length selections)) in
  (total - total * pow2 (-53)
   <= sumPoints (calculateSetPlacements selections playerCount)
   <= total + total * pow2 (-53))%Q.
Proof.
  intros Hlen. unfold calculateSetPlacements.
  destruct (Nat.eqb_spec (length selections) 0) as [H0|H0].
  { rewrite H0. cbn -[pow2]. change (inject_Z 0) with 0%Q. split; lra. }
  rewrite placementLoop_walk by (by rewrite drop_0).
  rewrite drop_0. cbn [app].
  pose proof (groupWalk_total
                (default (length selections) playerCount) 1
                (tieGroups (sortedByHand selections))
                (tieGroups_nonempty _)) as H.
  cbn zeta in H. rewrite tieGroups_concat in H.
  rewrite (Permutation_length (sortedByHand_perm selections)) in H.
  by apply H.
Qed.

Lemma calculateSetPlacements_total_witness :
  (10 - 10 * pow2 (-53)
   <= sumPoints (calculateSetPlacements exampleSelections None)
   <= 10 + 10 * pow2 (-53))%Q.
Proof.
  apply (calculateSetPlacements_total exampleSelections None).
  vm_compute. reflexivity.
Defined.

(** ** The scoring tables *)

Lemma placement_table_missing (n : nat) :
  ~ (2 <= n <= 6)%nat -> PLACEMENT_POINTS_BY_PLAYER_COUNT !! n = None.
Proof.
  intros H. unfold PLACEMENT_POINTS_BY_PLAYER_COUNT.
  cbn [list_to_map foldr uncurry fst snd].
  rewrite !lookup_insert_ne by lia. apply lookup_empty.
Qed.

Lemma prediction_table_missing (n : nat) :
  ~ (2 <= n <= 6)%nat -> PREDICTION_RANGES_BY_PLAYER_COUNT !! n = None.
Proof.
  intros H. unfold PREDICTION_RANGES_BY_PLAYER_COUNT.
  cbn [list_to_map foldr uncurry fst snd].
  rewrite !lookup_insert_ne by lia. apply lookup_empty.
Qed.

Lemma playerCount_cases (n : nat) :
  (n = 2 \/ n = 3 \/ n = 4 \/ n = 5 \/ n = 6 \/ ~ (2 <= n <= 6))%nat.
Proof. lia. Qed.

Lemma getPlacementPoints_fallback (p n : nat) :
  ~ (2 <= n <= 6)%nat -> getPlacementPoints p n = getPlacementPoints p 4.
Proof.
  intros H. unfold getPlacementPoints at 1.
  by rewrite (placement_table_missing n H).
Qed.

Lemma getPredictionRange_fallback (t : PredictionType) (n : nat) :
  ~ (2 <= n <= 6)%nat -> getPredictionRange t n = getPredictionRange t 4.
Proof.
  intros H. pose proof (prediction_table_missing n H) as Hm.
  unfold getPredictionRange at 1. unfold PredictionRanges in *.
  by rewrite Hm.
Qed.

(** A player count without a row of its own (fewer than 2 or more than 6)
    is scored by the rules for 4 players, both for placement points and for
    prediction ranges. *)
Theorem scoring_tables_fallback (n : nat) :
  ~ (2 <= n <= 6)%nat ->
  (forall p, getPlacementPoints p n = getPlacementPoints p 4)
  /\ (forall t, getPredictionRange t n = getPredictionRange t 4)
  /\ (forall t total,
        calculatePredictionBonus t total n
        = calculatePredictionBonus t total 4).
Proof.
  intros H. split; [|split].
  - intros p. by apply getPlacementPoints_fallback.
  - intros t. by apply getPredictionRange_fallback.
  - intros t total. unfold calculatePredictionBonus.
    by rewrite (getPredictionRange_fallback t n H).
Qed.

Lemma scoring_tables_fallback_witness :
  (forall p, getPlacementPoints p 9 = getPlacementPoints p 4)
  /\ (forall t, getPredictionRange t 9 = getPredictionRange t 4)
  /\ (forall t total,
        calculatePredictionBonus t total 9
        = calculatePredictionBonus t total 4).
Proof. apply (scoring_tables_fallback 9). lia. Defined.

Lemma placement_row_far (p n : nat) (row : gmap nat Z) :
  (7 <= p)%nat -> PLACEMENT_POINTS_BY_PLAYER_COUNT !! n = Some row ->
  row !! p = None.
Proof.
  intros Hp. unfold PLACEMENT_POINTS_BY_PLAYER_COUNT.
  cbn [list_to_map foldr uncurry fst snd].
  intros Hrow.
  repeat (apply lookup_insert_Some in Hrow as [[<- <-]|[_ Hrow]];
          [cbn [list_to_map foldr uncurry fst snd];
           rewrite !lookup_insert_ne by lia; apply lookup_empty|]).
  by rewrite lookup_empty in Hrow.
Qed.

Lemma getPlacementPoints_far (p n : nat) :
  (7 <= p)%nat -> getPlacementPoints p n = 0.
Proof.
  intros Hp. unfold getPlacementPoints.
  destruct (PLACEMENT_POINTS_BY_PLAYER_COUNT !! n) as [row|] eqn:E.
  - by rewrite (placement_row_far p n row Hp E).
  - destruct (PLACEMENT_POINTS_BY_PLAYER_COUNT !! 4%nat) as [row|] eqn:E4;
      [|done].
    cbn [mbind option_bind default]. by rewrite (placement_row_far p 4 row Hp E4).
Qed.

(** The placement points: first place is worth 6 for any player count,
    a worse place is never worth more than a better one, no place is worth
    more than 6 or less than 0, and the place 0 is worth nothing.  With two
    players or more, every place from the number of players on is worth
    nothing.  With fewer than two players, whom the row for four players
    scores, the places worth nothing are the place 0 and the places from 4
    on. *)
Theorem getPlacementPoints_shape (n : nat) :
  getPlacementPoints 1 n = 6
  /\ (forall p, 0 <= getPlacementPoints p n <= 6)
  /\ (forall p q, (1 <= p <= q)%nat ->
        getPlacementPoints q n <= getPlacementPoints p n)
  /\ getPlacementPoints 0 n = 0
  /\ (forall p, (2 <= n <= p)%nat -> getPlacementPoints p n = 0)
  /\ ((n < 2)%nat ->
      forall p, getPlacementPoints p n = 0 <-> (p = 0 \/ 4 <= p)%nat).
Proof.
  assert (Hcases : forall p : nat,
            (p = 0 \/ p = 1 \/ p = 2 \/ p = 3 \/ p = 4 \/ p = 5 \/ p = 6
             \/ 7 <= p)%nat) by lia.
  assert (Hsmall : forall m p, (m = 2 \/ m = 3 \/ m = 4 \/ m = 5 \/ m = 6)%nat ->
            (p < 7)%nat ->
            0 <= getPlacementPoints p m <= 6
            /\ (forall q, (1 <= p <= q)%nat -> (q < 7)%nat ->
                  getPlacementPoints q m <= getPlacementPoints p m)
            /\ ((m <= p)%nat -> getPlacementPoints p m = 0)).
  { intros m p Hm Hp.
    assert (p = 0 \/ p = 1 \/ p = 2 \/ p = 3 \/ p = 4 \/ p = 5 \/ p = 6)%nat
      as Hp' by lia.
    destruct Hm as [E|[E|[E|[E|E]]]]; subst m;
      destruct Hp' as [E|[E|[E|[E|[E|[E|E]]]]]]; subst p;
      (split; [by vm_compute|]);
      (split; [|intros ?; try lia; by vm_compute]);
      intros q Hq1 Hq2;
      (assert (q = 1 \/ q = 2 \/ q = 3 \/ q = 4 \/ q = 5 \/ q = 6)%nat
         as [E|[E|[E|[E|[E|E]]]]] by lia; subst q; try lia; by vm_compute). }
  assert (Hall : forall m, (m = 2 \/ m = 3 \/ m = 4 \/ m = 5 \/ m = 6)%nat ->
            getPlacementPoints 1 m = 6
            /\ (forall p, 0 <= getPlacementPoints p m <= 6)
            /\ (forall p q, (1 <= p <= q)%nat ->
                  getPlacementPoints q m <= getPlacementPoints p m)
            /\ getPlacementPoints 0 m = 0
            /\ (forall p, (m <= p)%nat -> getPlacementPoints p m = 0)).
  { intros m Hm. split.
    { destruct Hm as [E|[E|[E|[E|E]]]]; subst m; by vm_compute. }
    split.
    { intros p. destruct (decide (p < 7)%nat) as [Hp|Hp].
      - by apply Hsmall.
      - rewrite getPlacementPoints_far by lia. lia. }
    split.
    { intros p q Hpq. destruct (decide (q < 7)%nat) as [Hq|Hq].
      - apply (Hsmall m p Hm); lia.
      - rewrite (getPlacementPoints_far q) by lia.
        destruct (decide (p < 7)%nat) as [Hp|Hp].
        + by apply Hsmall.
        + rewrite getPlacementPoints_far by lia. lia. }
    split.
    { destruct Hm as [E|[E|[E|[E|E]]]]; subst m; by vm_compute. }
    intros p Hp. destruct (decide (p < 7)%nat) as [Hp7|Hp7].
    - by apply Hsmall.
    - apply getPlacementPoints_far. lia. }
  destruct (playerCount_cases n) as [E|[E|[E|[E|[E|E]]]]].
  1-5: (destruct (Hall n ltac:(lia)) as (H1 & H2 & H3 & H4 & H5);
        split; [done|]; split; [done|]; split; [done|]; split; [done|];
        split; [intros p Hp; apply H5; lia|lia]).
  destruct (Hall 4%nat ltac:(lia)) as (H1 & H2 & H3 & H4 & H5).
  split; [by rewrite getPlacementPoints_fallback|].
  split; [intros p; by rewrite getPlacementPoints_fallback|].
  split; [intros p q Hpq; rewrite !(getPlacementPoints_fallback _ n E);
          by apply H3|].
  split; [by rewrite getPlacementPoints_fallback|].
  split; [intros p Hp; apply getPlacementPoints_far; lia|].
  intros _ p. rewrite (getPlacementPoints_fallback _ n E).
  destruct (decide (4 <= p)%nat) as [Hp|Hp].
  - split; [by right|]. intros _. by apply H5.
  - assert (p = 0 \/ p = 1 \/ p = 2 \/ p = 3)%nat
      as [ -> | [ -> | [ -> | -> ] ] ] by lia.
    + split; [by left|done].
    + split; [by vm_compute|lia].
    + split; [by vm_compute|lia].
    + split; [by vm_compute|lia].
Qed.

(** ** Prediction bonuses for any round total *)

Lemma Qltb_true (x y : Q) : Qltb x y = true -> (x < y)%Q.
Proof.
  unfold Qltb. intros H%negb_true_iff. apply Qnot_le_lt.
  intros Hle%Qle_bool_iff. congruence.
Qed.

Lemma Qltb_lt (x y : Q) : (x < y)%Q -> Qltb x y = true.
Proof.
  intros H. destruct (Qltb x y) eqn:E; [done|].
  apply Qltb_false in E. lra.
Qed.

Lemma calculatePredictionBonus_pos (t : PredictionType) (total : Q)
    (n : nat) :
  (0 < calculatePredictionBonus t total n)%Q ->
  (inject_Z (getPredictionRange t n).1 <= total
   <= inject_Z (getPredictionRange t n).2)%Q.
Proof.
  unfold calculatePredictionBonus.
  destruct (getPredictionRange t n) as [lo hi]. cbn [fst snd].
  destruct (Qltb total (inject_Z lo)) eqn:E1; [cbn; lra|].
  destruct (Qltb (inject_Z hi) total) eqn:E2; [cbn; lra|].
  intros _. split; by apply Qltb_false.
Qed.

Lemma getPredictionRange_disjoint (t1 t2 : PredictionType) (n : nat) :
  t1 <> t2 ->
  (getPredictionRange t1 n).2 < (getPredictionRange t2 n).1
  \/ (getPredictionRange t2 n).2 < (getPredictionRange t1 n).1.
Proof.
  intros Hne.
  destruct (playerCount_cases n) as [E|[E|[E|[E|[E|E]]]]];
    [subst n ..|rewrite !(getPredictionRange_fallback _ n E)];
    destruct t1, t2; try done; vm_compute; (by left) || (by right).
Qed.

(** Whatever the round total, whole or fractional, and whatever the number
    of players, at most one prediction type earns a bonus. *)
Theorem calculatePredictionBonus_exclusive (t1 t2 : PredictionType)
    (total : Q) (n : nat) :
  (0 < calculatePredictionBonus t1 total n)%Q ->
  (0 < calculatePredictionBonus t2 total n)%Q ->
  t1 = t2.
Proof.
  intros H1%calculatePredictionBonus_pos H2%calculatePredictionBonus_pos.
  destruct (decide (t1 = t2)) as [|Hne]; [done|exfalso].
  destruct (getPredictionRange_disjoint t1 t2 n Hne) as [Hlt|Hlt].
  - assert (inject_Z (getPredictionRange t2 n).1
            <= inject_Z (getPredictionRange t1 n).2)%Q as Hle by lra.
    rewrite <- Zle_Qle in Hle. lia.
  - assert (inject_Z (getPredictionRange t1 n).1
            <= inject_Z (getPredictionRange t2 n).2)%Q as Hle by lra.
    rewrite <- Zle_Qle in Hle. lia.
Qed.

Lemma calculatePredictionBonus_exclusive_witness :
  (0 < calculatePredictionBonus MORE 7 4)%Q /\ MORE = MORE.
Proof.
  split; [by vm_compute|].
  apply (calculatePredictionBonus_exclusive MORE MORE 7 4); by vm_compute.
Defined.

(** A prediction type that [getAvailablePredictions] does not offer for a
    player count (MIN with two players) earns nothing, whatever the round
    total. *)
Theorem unavailable_prediction_earns_nothing (t : PredictionType)
    (total : Q) (n : nat) :
  (0 <= total)%Q ->
  t ∉ getAvailablePredictions n ->
  calculatePredictionBonus t total n = 0%Q.
Proof.
  intros Htot Hnot. unfold getAvailablePredictions in Hnot.
  destruct (Nat.eqb_spec n 2) as [->|_].
  - destruct t; try (exfalso; apply Hnot; set_solver).
    unfold calculatePredictionBonus.
    change (getPredictionRange MIN 2) with (-1, -1). cbv beta iota.
    rewrite (Qltb_lt (inject_Z (-1)) total); [by rewrite orb_true_r|].
    change (inject_Z (-1)) with (-1)%Q. lra.
  - exfalso. apply Hnot. destruct t; set_solver.
Qed.

Lemma unavailable_prediction_earns_nothing_witness :
  calculatePredictionBonus MIN 3 2 = 0%Q.
Proof.
  apply unavailable_prediction_earns_nothing; [by vm_compute|].
  by apply (bool_decide_unpack _).
Defined.

(** ** The sort is stable *)

Lemma js_insert_filter {A} (cmp : A -> A -> JsNumber) (P : A -> Prop)
    `{!forall x, Decision (P x)} (x : A) (l : list A) :
  (forall y, y ∈ l -> sortSign (cmp x y) = Gt -> P x -> P y -> False) ->
  filter P (js_insert cmp x l) = filter P (x :: l).
Proof.
  induction l as [|y l IH]; intros Hgt; [done|]. cbn [js_insert].
  destruct (sortSign (cmp x y)) eqn:E; [done|done|].
  rewrite filter_cons, IH
    by (intros z Hz; apply Hgt; by right).
  rewrite !filter_cons.
  destruct (decide (P y)) as [Hy|Hy], (decide (P x)) as [Hx|Hx]; try done.
  exfalso. apply (Hgt y); [by left|done..].
Qed.

Lemma js_sort_filter {A} (cmp : A -> A -> JsNumber) (P : A -> Prop)
    `{!forall x, Decision (P x)} (l : list A) :
  (forall x y, x ∈ l -> y ∈ l -> sortSign (cmp x y) = Gt ->
     P x -> P y -> False) ->
  filter P (js_sort cmp l) = filter P l.
Proof.
  induction l as [|x l IH]; intros Hgt; [done|]. cbn [js_sort foldr].
  change (foldr (js_insert cmp) [] l) with (js_sort cmp l).
  rewrite js_insert_filter.
  - rewrite !filter_cons, IH; [done|].
    intros a b Ha Hb. apply Hgt; by right.
  - intros y Hy. apply Hgt; [by left|].
    right. by rewrite js_sort_elem_of in Hy.
Qed.

(** ** The order of the first round *)

(** [calculateInitialTurnOrder] arranges the players by their roll, lowest
    first; it names every roll's player once, and players with the same
    roll keep the order they had in the input. *)
Theorem calculateInitialTurnOrder_spec (rollResults : list RollResult) :
  exists sorted,
    calculateInitialTurnOrder rollResults = map roll_playerId sorted
    /\ sorted ≡ₚ rollResults
    /\ StronglySorted (fun a b => roll a <= roll b) sorted
    /\ forall v,
         filter (fun r => roll r = v) sorted
         = filter (fun r => roll r = v) rollResults.
Proof.
  exists (js_sort (fun a b => numZ (roll a - roll b)) rollResults).
  assert (Hle : forall x y : RollResult,
            sort_le (fun a b => numZ (roll a - roll b)) x y
            <-> roll x <= roll y).
  { intros x y. unfold sort_le. rewrite sortSign_numZ.
    destruct (Z.compare_spec (roll x - roll y) 0); split; intros;
      try done; lia. }
  split; [done|]. split; [apply js_sort_perm|]. split.
  - eapply StronglySorted_mono; [intros x y _ _; apply Hle|].
    eapply (js_sort_sorted _ (fun _ => True)).
    + intros a b c _ _ _. rewrite !Hle. lia.
    + intros a b _ _. rewrite !Hle. lia.
    + by apply Forall_forall.
  - intros v. apply js_sort_filter.
    intros x y _ _ Hgt Hx Hy. rewrite sortSign_numZ in Hgt.
    apply Z.compare_gt_iff in Hgt. lia.
Qed.

(** ** Dice *)

Lemma Math_random_entropy (O : Oracle) (e : Entropy) :
  snd (Math_random O e)
  = {| randomCalls := S (randomCalls e); uuidCalls := uuidCalls e |}.
Proof. done. Qed.

(** [Math.random] returns a multiple of [2^-53] below one. *)
Lemma Math_random_double (O : Oracle) (e : Entropy) :
  (0 <= fst (Math_random O e) <= 1 - pow2 (-53))%Q.
Proof.
  assert (pow2 (-53) == 1 # 2 ^ 53)%Q as -> by (vm_compute; reflexivity).
  unfold Math_random. cbn [fst].
  pose proof (Z.mod_pos_bound (randomBits O (randomCalls e)) (2 ^ 53)
                ltac:(done)) as Hb.
  set (k := randomBits O (randomCalls e) mod 2 ^ 53) in *.
  assert (k # 2 ^ 53 == inject_Z k * (1 # 2 ^ 53))%Q as ->.
  { unfold Qeq. simpl. lia. }
  assert (inject_Z 0 <= inject_Z k <= inject_Z (2 ^ 53 - 1))%Q as [H0 H1]
    by (rewrite <- !Zle_Qle; lia).
  assert (inject_Z (2 ^ 53 - 1) * (1 # 2 ^ 53) == 1 - (1 # 2 ^ 53))%Q as E
    by (vm_compute; reflexivity).
  assert (inject_Z k * (1 # 2 ^ 53)
          <= inject_Z (2 ^ 53 - 1) * (1 # 2 ^ 53))%Q
    by (apply Qmult_le_compat_r; done).
  assert (inject_Z 0 * (1 # 2 ^ 53) <= inject_Z k * (1 # 2 ^ 53))%Q
    by (apply Qmult_le_compat_r; done).
  change (inject_Z 0) with 0%Q in *. split; lra.
Qed.

(** [Math.floor(r * n)] for such an [r] and a small [n], at least three
    quarters of the power of two [2^(b+1)] that bounds it, is one of
    [0 .. n-1]: the product rounds to a double below [n]. *)
Lemma floor_scaled (r : Q) (n b : Z) :
  (0 <= r <= 1 - pow2 (-53))%Q -> 0 < n -> 0 <= b <= 52 ->
  n <= 2 ^ (b + 1) -> 3 * 2 ^ b <= 2 * n ->
  0 <= Qfloor (js_mul r (inject_Z n)) < n.
Proof.
  intros Hr Hn Hb Hn1 Hn2. unfold js_mul.
  destruct (fl_scaled_lt r n b Hr Hn Hb Hn1 Hn2) as [H0 H1].
  split.
  - rewrite <- (Qfloor_Z 0). by apply Qfloor_resp_le.
  - rewrite Zlt_Qlt.
    eapply Qle_lt_trans; [apply Qfloor_le|done].
Qed.

Lemma rollDie_range (O : Oracle) (e : Entropy) :
  1 <= fst (actions.rollDie O e) <= 6
  /\ snd (actions.rollDie O e)
     = {| randomCalls := S (randomCalls e); uuidCalls := uuidCalls e |}.
Proof.
  unfold actions.rollDie.
  pose proof (Math_random_double O e) as Hr.
  pose proof (Math_random_entropy O e) as He.
  destruct (Math_random O e) as [r e1]. cbn [fst snd] in *.
  pose proof (floor_scaled r 6 2 Hr ltac:(done) ltac:(lia) ltac:(done)
                ltac:(done)) as Hf.
  change (inject_Z 6) with 6%Q in Hf. split; [lia|done].
Qed.

Lemma createDie_spec (O : Oracle) (c : DieColor) (e : Entropy) :
  exists v,
    1 <= v <= 6
    /\ actions.createDie O c e
       = ({| die_id := uuidOf O (uuidCalls e); color := c; value := v;
             isSpent := false; isRevealed := bool_decide (c = WHITE) |},
          {| randomCalls := S (randomCalls e);
             uuidCalls := S (uuidCalls e) |}).
Proof.
  unfold actions.createDie, uuidv4.
  pose proof (rollDie_range O
                {| randomCalls := randomCalls e;
                   uuidCalls := S (uuidCalls e) |}) as [Hv He].
  destruct (actions.rollDie O _) as [v e2]. cbn [fst snd] in *.
  exists v. split; [done|]. by rewrite He.
Qed.

Lemma pushDice_spec (O : Oracle) (n : nat) (c : DieColor) (ds : list Die)
    (e : Entropy) :
  exists new,
    actions.pushDice O n c ds e
    = (ds ++ new,
       {| randomCalls := randomCalls e + n; uuidCalls := uuidCalls e + n |})
    /\ map color new = replicate n c
    /\ map isRevealed new = replicate n (bool_decide (c = WHITE))
    /\ map die_id new
       = map (fun i => uuidOf O (uuidCalls e + i)) (seq 0 n)
    /\ Forall (fun d => isSpent d = false /\ 1 <= value d <= 6) new.
Proof.
  revert ds e. induction n as [|n IH]; intros ds e.
  - exists []. rewrite app_nil_r, !Nat.add_0_r. by destruct e.
  - cbn [actions.pushDice].
    destruct (createDie_spec O c e) as (v & Hv & ->).
    destruct (IH (ds ++ [{| die_id := uuidOf O (uuidCalls e); color := c;
                            value := v; isSpent := false;
                            isRevealed := bool_decide (c = WHITE) |}])
                {| randomCalls := S (randomCalls e);
                   uuidCalls := S (uuidCalls e) |})
      as (new & -> & Hc & Hr & Hi & Hf).
    eexists (_ :: new). split.
    { rewrite <- app_assoc. cbn [app randomCalls uuidCalls].
      f_equal. f_equal; lia. }
    cbn [map replicate seq color isRevealed die_id].
    rewrite Hc, Hr, Hi. split; [done|]. split; [done|]. split.
    { rewrite Nat.add_0_r. f_equal. rewrite <- seq_shift, map_map.
      apply map_ext. intros i. cbn [uuidCalls]. f_equal. lia. }
    constructor; [done|done].
Qed.

(** A player's dice as [generatePlayerDice] makes them: nine white dice
    face up, then a red and a blue one face down; none spent, every value
    one of 1 to 6, the ids the next eleven the id source gives. *)
Theorem generatePlayerDice_shape (O : Oracle) (e : Entropy) :
  let ds := fst (actions.generatePlayerDice O e) in
  map color ds = replicate 9 WHITE ++ [RED; BLUE]
  /\ map isRevealed ds = replicate 9 true ++ [false; false]
  /\ map die_id ds = map (fun i => uuidOf O (uuidCalls e + i)) (seq 0 11)
  /\ Forall (fun d => isSpent d = false /\ 1 <= value d <= 6) ds
  /\ snd (actions.generatePlayerDice O e)
     = {| randomCalls := randomCalls e + 11;
          uuidCalls := uuidCalls e + 11 |}.
Proof.
  unfold actions.generatePlayerDice.
  destruct (pushDice_spec O WHITE_DICE_COUNT WHITE [] e)
    as (new & -> & Hc & Hr & Hi & Hf).
  destruct (createDie_spec O RED
              {| randomCalls := randomCalls e + WHITE_DICE_COUNT;
                 uuidCalls := uuidCalls e + WHITE_DICE_COUNT |})
    as (v1 & Hv1 & ->).
  cbn [randomCalls uuidCalls].
  destruct (createDie_spec O BLUE
              {| randomCalls := S (randomCalls e + WHITE_DICE_COUNT);
                 uuidCalls := S (uuidCalls e + WHITE_DICE_COUNT) |})
    as (v2 & Hv2 & ->).
  cbn [fst snd app randomCalls uuidCalls].
  rewrite !map_app, Hc, Hr, Hi. cbn [map color isRevealed die_id].
  change WHITE_DICE_COUNT with 9%nat.
  split; [done|]. split; [done|]. split; [|split].
  - change (seq 0 11) with (seq 0 9 ++ [9; 10]%nat).
    rewrite map_app. cbn [map]. rewrite <- app_assoc. cbn [app].
    by replace (S (uuidCalls e + 9)) with (uuidCalls e + 10)%nat by lia.
  - rewrite !Forall_app, !Forall_singleton. cbn [isSpent value]. done.
  - f_equal; lia.
Qed.

(** ** Starting a game *)

(** Reads a field through the updates made before it. *)
Ltac gs_simpl :=
  cbn [gameState assignGameState turnTimerId turnTimeRemaining
       snap_value snap_context snapshot stopped
       roomCode phase players config currentRound currentSet turnOrder
       currentTurnIndex pendingSelections setResults roundHistory
       initialRollResults hostId createdAt
       withPhase withPlayers withCurrentRound withCurrentSet withTurnOrder
       withCurrentTurnIndex withPendingSelections withSetResults
       withRoundHistory withInitialRollResults
       actions.setPhase actions.clearTurnTimer machine.initializeRound1
       machine.clearPendingSelections fst snd] in *.

Lemma mapRand_length {A B} (f : A -> Entropy -> B * Entropy) (l : list A)
    (e : Entropy) :
  length (fst (mapRand f l e)) = length l.
Proof.
  revert e. induction l as [|x l IH]; intros e; simpl; [done|].
  destruct (f x e) as [y e1]. specialize (IH e1).
  destruct (mapRand f l e1) as [ys e2]. simpl in *. by rewrite IH.
Qed.

Lemma rollInitialTurnOrder_spec (O : Oracle) (c : GameMachineContext)
    (e : Entropy) :
  exists rolls,
    fst (actions.rollInitialTurnOrder O c e)
    = assignGameState (withInitialRollResults rolls (gameState c)) c
    /\ map roll_playerId rolls = map player_id (players (gameState c))
    /\ Forall (fun r => 2 <= roll r <= 12) rolls.
Proof.
  unfold actions.rollInitialTurnOrder.
  pose proof (mapRand_Forall2
    (fun (p : Player) (r : RollResult) =>
       roll_playerId r = player_id p /\ 2 <= roll r <= 12)
    (fun player e0 =>
       let '(a, e') := actions.rollDie O e0 in
       let '(b, e'') := actions.rollDie O e' in
       ({| roll_playerId := player_id player; roll := a + b |}, e''))
    (players (gameState c)) e) as H.
  destruct (mapRand _ (players (gameState c)) e) as [rolls e1].
  cbn [fst] in *. exists rolls. split; [done|].
  assert (Forall2 (fun (p : Player) (r : RollResult) =>
                     roll_playerId r = player_id p /\ 2 <= roll r <= 12)
            (players (gameState c)) rolls) as HF.
  { apply H. intros p e0.
    pose proof (rollDie_range O e0) as [Ha _].
    destruct (actions.rollDie O e0) as [a e'].
    pose proof (rollDie_range O e') as [Hb _].
    destruct (actions.rollDie O e') as [b e'']. cbn in *.
    split; [done|lia]. }
  clear H. split.
  - induction HF as [|p r ps rs [Hid _] _ IH]; [done|].
    cbn [map]. by rewrite Hid, IH.
  - induction HF as [|p r ps rs [_ Hr] _ IH]; constructor; done.
Qed.

Lemma rollAllDice_spec (O : Oracle) (c : GameMachineContext) (e : Entropy) :
  exists ps,
    fst (actions.rollAllDice O c e)
    = assignGameState (withPlayers ps (gameState c)) c
    /\ Forall2 dealt (players (gameState c)) ps.
Proof.
  unfold actions.rollAllDice.
  pose proof (mapRand_Forall2 dealt
    (fun player e0 =>
       let '(ds, e') := actions.generatePlayerDice O e0 in
       (withDice ds player, e'))
    (players (gameState c)) e) as H.
  destruct (mapRand _ (players (gameState c)) e) as [ps e1].
  cbn [fst] in *. exists ps. split; [done|].
  apply H. intros p e0.
  pose proof (generatePlayerDice_shape O e0) as (Hc & _ & _ & Hf & _).
  destruct (actions.generatePlayerDice O e0) as [ds e'].
  cbn [fst] in *. split; [by exists ds|]. done.
Qed.

(** START_GAME on a new actor, with at least one player and no prediction
    made yet: the machine runs through the initial roll and stops in the
    prediction state of round 1; every player has rolled two dice for the
    order, the order is the one [calculateInitialTurnOrder] gives for those
    rolls and names every player once, the turn index is 0, and every
    player holds eleven fresh dice. *)
Theorem START_GAME_deals (O : Oracle) (g : GameState) (e : Entropy) :
  players g <> [] ->
  Forall (fun p => prediction p = None) (players g) ->
  exists s e',
    machine.send O (machine.createGameActor g) START_GAME e = (Ok s, e')
    /\ snap_value s = st_prediction
    /\ phase (gameState (snap_context s)) = PREDICTION
    /\ currentRound (gameState (snap_context s)) = 1
    /\ currentTurnIndex (gameState (snap_context s)) = 0%nat
    /\ turnOrder (gameState (snap_context s))
       = calculateInitialTurnOrder
           (initialRollResults (gameState (snap_context s)))
    /\ turnOrder (gameState (snap_context s)) ≡ₚ map player_id (players g)
    /\ Forall (fun r => 2 <= roll r <= 12)
         (initialRollResults (gameState (snap_context s)))
    /\ Forall2 dealt (players g) (players (gameState (snap_context s))).
Proof.
  intros Hne Hnone.
  unfold machine.send, machine.createGameActor.
  cbn [snap_value snap_context].
  unfold machine.enter_initial_roll.
  set (c1 := actions.setPhase INITIAL_ROLL _).
  destruct (rollInitialTurnOrder_spec O c1 e) as (rolls & Hc2 & Hids & Hrolls).
  destruct (actions.rollInitialTurnOrder O c1 e) as [c2 e1].
  cbn [fst] in Hc2. subst c2.
  assert (Hlen : length rolls = length (players g)).
  { rewrite <- (length_map roll_playerId), Hids. subst c1. cbn.
    by rewrite length_map. }
  unfold machine.always_initial_roll, guards.allPlayersRolled.
  subst c1. cbn [gameState assignGameState withInitialRollResults
    actions.setPhase withPhase machine.initializeRound1 withCurrentRound
    players initialRollResults] in *.
  rewrite Hlen, Nat.leb_refl.
  destruct (players g) as [|p0 ps0] eqn:Hps; [done|].
  cbn [length Nat.ltb Nat.leb andb].
  unfold actions.setTurnOrder.
  destruct rolls as [|r0 rs]; [done|].
  cbn [gameState assignGameState withInitialRollResults currentRound
    withPhase withCurrentRound initialRollResults Z.eqb Pos.eqb
    length Nat.ltb Nat.leb andb].
  set (c3 := assignGameState _ _).
  destruct (rollAllDice_spec O c3 e1) as (ps' & Hc4 & Hdealt).
  destruct (actions.rollAllDice O c3 e1) as [c4 e2].
  cbn [fst] in Hc4. subst c4.
  unfold machine.enter_prediction, machine.always_prediction,
    guards.allPredictionsSubmitted.
  subst c3. cbn [gameState assignGameState withPlayers withTurnOrder
    withCurrentTurnIndex withInitialRollResults actions.setPhase withPhase
    withCurrentRound players] in *. rewrite Hps in Hdealt.
  assert (Hfalse : forallb
            (fun player => negb (bool_decide (prediction player = None)))
            ps' = false).
  { inversion Hdealt as [|p p' l l' [[ds ->] _] _]; subst.
    apply Forall_cons in Hnone as [Hp0 _].
    cbn [forallb prediction withDice]. by rewrite Hp0. }
  rewrite Hfalse.
  eexists _, _. split; [reflexivity|]. gs_simpl.
  do 5 (split; [reflexivity|]). split; [|split; [exact Hrolls|]].
  - unfold calculateInitialTurnOrder. by rewrite js_sort_perm, Hids.
  - exact Hdealt.
Qed.

Lemma START_GAME_deals_witness :
  exists s e',
    machine.send exampleOracle (machine.createGameActor exampleLobby)
      START_GAME (mkEntropy 0 0) = (Ok s, e')
    /\ snap_value s = st_prediction.
Proof.
  destruct (START_GAME_deals exampleOracle exampleLobby (mkEntropy 0 0))
    as (s & e' & H1 & H2 & _).
  - discriminate.
  - repeat constructor.
  - exists s, e'. exact (conj H1 H2).
Defined.

(** ** What the timeouts fill in *)

Lemma string_app_empty (s : string) : s +:+ "" = s.
Proof.
  induction s as [|a s IH]; [done|].
  change (String a (s +:+ "") = String a s). by rewrite IH.
Qed.

Lemma confirmedKey_ne (playerId : string) : confirmedKey playerId <> playerId.
Proof.
  unfold confirmedKey. intros H.
  rewrite <- (string_app_empty playerId) in H at 2.
  by apply (inj (String.app playerId)) in H.
Qed.

Lemma getAvailablePredictions_length (n : nat) :
  3 <= Z.of_nat (length (getAvailablePredictions n)) <= 4.
Proof. unfold getAvailablePredictions. destruct (n =? 2)%nat; cbn; lia. Qed.

(** When the prediction timer runs out, every player without a prediction
    gets one of those offered for the number of players, a prediction made
    before stays, nothing else about a player changes, and afterwards all
    predictions are in. *)
Theorem autoSubmitPredictions_fills (O : Oracle) (c : GameMachineContext)
    (e : Entropy) :
  let c' := fst (actions.autoSubmitPredictions O c e) in
  gameState c' = withPlayers (players (gameState c')) (gameState c)
  /\ Forall2
       (fun p p' =>
          p' = withPrediction (prediction p') p
          /\ match prediction p with
             | Some t => prediction p' = Some t
             | None =>
                 exists t,
                   prediction p' = Some t
                   /\ t ∈ getAvailablePredictions
                            (length (players (gameState c)))
             end)
       (players (gameState c)) (players (gameState c'))
  /\ guards.allPredictionsSubmitted c' = true.
Proof.
  unfold actions.autoSubmitPredictions.
  set (avail := getAvailablePredictions (length (players (gameState c)))).
  pose proof (mapRand_Forall2
    (fun p p' : Player =>
       p' = withPrediction (prediction p') p
       /\ match prediction p with
          | Some t => prediction p' = Some t
          | None => exists t, prediction p' = Some t /\ t ∈ avail
          end)
    (fun player e0 =>
       match prediction player with
       | None =>
           let '(r, e') := Math_random O e0 in
           let index :=
             Z.to_nat
               (Qfloor (js_mul r (inject_Z (Z.of_nat (length avail))))) in
           (withPrediction (avail !! index) player, e')
       | Some _ => (player, e0)
       end)
    (players (gameState c)) e) as H.
  destruct (mapRand _ (players (gameState c)) e) as [ps e1].
  cbn [fst] in *.
  assert (HF : Forall2
    (fun p p' : Player =>
       p' = withPrediction (prediction p') p
       /\ match prediction p with
          | Some t => prediction p' = Some t
          | None => exists t, prediction p' = Some t /\ t ∈ avail
          end) (players (gameState c)) ps).
  { apply H. intros p e0. destruct (prediction p) as [t|] eqn:Hp.
    - cbn [fst]. split; [|done]. destruct p; cbn in *. by subst.
    - pose proof (Math_random_double O e0) as Hr.
      destruct (Math_random O e0) as [r e']. cbn [fst] in *.
      pose proof (getAvailablePredictions_length
                    (length (players (gameState c)))) as Hlen.
      fold avail in Hlen.
      pose proof (floor_scaled r (Z.of_nat (length avail)) 1 Hr
                    ltac:(lia) ltac:(lia) ltac:(change (2 ^ (1 + 1)) with 4;
                                                lia)
                    ltac:(change (2 ^ 1) with 2; lia)) as Hi.
      destruct (lookup_lt_is_Some_2 avail
                  (Z.to_nat
                     (Qfloor
                        (js_mul r (inject_Z (Z.of_nat (length avail)))))))
        as [t Ht]; [lia|].
      rewrite Ht. cbn [prediction withPrediction]. split; [done|].
      exists t. split; [done|]. by eapply list_elem_of_lookup_2. }
  clear H. gs_simpl. split; [done|]. split; [done|].
  unfold guards.allPredictionsSubmitted. gs_simpl.
  apply forallb_forall. intros p' Hp'%list_elem_of_In.
  apply list_elem_of_lookup in Hp' as [i Hi].
  destruct (Forall2_lookup_r _ _ _ _ _ HF Hi) as (p & _ & _ & Hp).
  destruct (prediction p) as [t|]; [|destruct Hp as (t & Hp & _)];
    rewrite Hp; done.
Qed.

(** When the turn timer runs out, the turn-holder is given the first
    unspent dice in the order they hold them, three if they have that many,
    the selection counts as confirmed and the turn passes on; other
    players' selections, the players and the order are untouched.  With no
    turn-holder (the index past the end of the order, or an id no player
    has) nothing changes. *)
Theorem autoSelectDice_spec (c : GameMachineContext) :
  let g := gameState c in
  let g' := gameState (actions.autoSelectDice c) in
  (forall playerId player,
     turnOrder g !! currentTurnIndex g = Some playerId ->
     findPlayer (players g) playerId = Some player ->
     let unspent := filter (fun d => isSpent d = false) (dice player) in
     pendingSelections g' !! playerId = Some (map die_id (take 3 unspent))
     /\ length (take 3 unspent) = Nat.min 3 (length unspent)
     /\ Forall (fun d => d ∈ dice player /\ isSpent d = false)
          (take 3 unspent)
     /\ is_Some (pendingSelections g' !! confirmedKey playerId)
     /\ currentTurnIndex g' = S (currentTurnIndex g)
     /\ (forall k, k <> playerId -> k <> confirmedKey playerId ->
           pendingSelections g' !! k = pendingSelections g !! k)
     /\ players g' = players g
     /\ turnOrder g' = turnOrder g)
  /\ ((forall playerId,
         turnOrder g !! currentTurnIndex g = Some playerId ->
         findPlayer (players g) playerId = None) ->
      actions.autoSelectDice c = c).
Proof.
  intros g g'. split.
  - intros playerId player Hturn Hfind unspent. subst g'.
    unfold actions.autoSelectDice. fold g. rewrite Hturn, Hfind. gs_simpl.
    split.
    { rewrite lookup_insert_ne by apply confirmedKey_ne.
      by rewrite lookup_insert_eq. }
    split; [by rewrite length_take|].
    split.
    { apply Forall_forall. intros d Hd%elem_of_take.
      destruct Hd as (i & Hd & _). apply list_elem_of_lookup_2 in Hd.
      by apply list_elem_of_filter in Hd as [? ?]. }
    split; [by rewrite lookup_insert_eq|].
    split; [lia|].
    split; [|done].
    intros k Hk1 Hk2. by rewrite !lookup_insert_ne.
  - intros Hnone. unfold actions.autoSelectDice. fold g.
    destruct (turnOrder g !! currentTurnIndex g) as [playerId|]; [|done].
    by rewrite (Hnone playerId).
Qed.

(** ** Revealing a set *)

Lemma evaluateHand_outcome (dice : list Die) :
  (length dice = 3%nat -> exists h, evaluateHand dice = Ok h)
  /\ (length dice <> 3%nat ->
      evaluateHand dice = Throw (Error "Hand must contain exactly 3 dice")).
Proof.
  unfold evaluateHand. split; intros Hlen.
  - rewrite Hlen. cbn [Nat.eqb negb].
    repeat match goal with
           | |- context [if ?b then _ else _] => destruct b
           end; by eexists.
  - by destruct (Nat.eqb_spec (length dice) 3).
Qed.

Lemma omap_length_le {A B} (f : A -> option B) (l : list A) :
  (length (omap f l) <= length l)%nat.
Proof.
  induction l as [|x l IH]; [done|]. cbn. destruct (f x); cbn; lia.
Qed.

Lemma omap_length_all {A B} (f : A -> option B) (l : list A) :
  length (omap f l) = length l <-> Forall (fun x => is_Some (f x)) l.
Proof.
  induction l as [|x l IH]; [by split; [constructor|]|].
  pose proof (omap_length_le f l) as Hle.
  cbn. destruct (f x) as [y|] eqn:E; cbn.
  - rewrite Forall_cons, <- IH. split; [intros [= H]|intros [_ H]].
    + split; [by rewrite E|done].
    + by rewrite H.
  - split; [lia|]. intros [[y Hy] _]%Forall_cons. congruence.
Qed.

Lemma exn_mapM_Throw {A B} (f : A -> Exn B) (l : list A) (err : JsError) :
  (forall x err', x ∈ l -> f x = Throw err' -> err' = err) ->
  (exists x, x ∈ l /\ f x = Throw err) ->
  exn_mapM f l = Throw err.
Proof.
  induction l as [|x l IH]; intros Hall (z & Hz & Hfz).
  { by apply elem_of_nil in Hz. }
  cbn. destruct (f x) as [y|err'] eqn:E.
  - cbn. rewrite IH; [done| |].
    + intros x' err' Hx'. apply Hall. by right.
    + apply elem_of_cons in Hz as [->|Hz]; [congruence|by exists z].
  - cbn. f_equal. apply (Hall x); [by left|done].
Qed.

Lemma buildSelection_outcome (pending : gmap string (list string))
    (p : Player) (sel : list string) :
  pending !! player_id p = Some sel -> length sel = 3%nat ->
  (Forall (fun dieId => is_Some (findDie (dice p) dieId)) sel ->
   exists s, actions.buildSelection pending p = Ok s)
  /\ (~ Forall (fun dieId => is_Some (findDie (dice p) dieId)) sel ->
      actions.buildSelection pending p
      = Throw (Error "Hand must contain exactly 3 dice")).
Proof.
  intros Hsel Hlen. unfold actions.buildSelection. rewrite Hsel.
  cbn [default from_option id].
  pose proof (omap_length_all (findDie (dice p)) sel) as Hall.
  pose proof (omap_length_le (findDie (dice p)) sel) as Hle.
  destruct (evaluateHand_outcome (omap (findDie (dice p)) sel)) as [H3 Hn3].
  split.
  - intros HF. apply Hall in HF. rewrite Hlen in HF.
    destruct (H3 HF) as [h ->]. by eexists.
  - intros HF. rewrite Hn3; [done|]. intros H. apply HF, Hall. congruence.
Qed.

Lemma allSelectionsConfirmed_lookup (c : GameMachineContext) (p : Player) :
  guards.allSelectionsConfirmed c = true ->
  p ∈ players (gameState c) ->
  exists sel,
    pendingSelections (gameState c) !! player_id p = Some sel
    /\ length sel = 3%nat
    /\ is_Some (pendingSelections (gameState c)
                  !! confirmedKey (player_id p)).
Proof.
  unfold guards.allSelectionsConfirmed. intros H Hp.
  rewrite forallb_forall in H. specialize (H p).
  rewrite <- list_elem_of_In in H. specialize (H Hp).
  destruct (pendingSelections (gameState c) !! player_id p) as [sel|];
    [|done].
  apply andb_true_iff in H as [H1 H2]. exists sel.
  split; [done|]. split; [by apply Nat.eqb_eq|].
  by apply bool_decide_eq_true in H2.
Qed.

(** Once every player has a confirmed selection of three ids, the set is
    revealed if every selected id is the id of a die of the player who
    selected it; if one is not, evaluating that player's hand raises
    "Hand must contain exactly 3 dice" and the transition fails with it. *)
Theorem always_set_selection_outcome (c : GameMachineContext)
    (e : Entropy) :
  guards.allSelectionsConfirmed c = true ->
  (selectionsKnown (gameState c) ->
   exists c',
     actions.processSetSelection c = Ok c'
     /\ machine.always_set_selection c e
        = (Ok (mkSnapshot st_set_reveal (actions.setPhase SET_REVEAL c')),
           e))
  /\ (~ selectionsKnown (gameState c) ->
      machine.always_set_selection c e
      = (Throw (Error "Hand must contain exactly 3 dice"), e)).
Proof.
  intros Hguard. unfold machine.always_set_selection. rewrite Hguard.
  unfold actions.processSetSelection, selectionsKnown.
  set (pending := pendingSelections (gameState c)).
  split.
  - intros Hknown.
    assert (exists sels,
              exn_mapM (actions.buildSelection pending)
                (players (gameState c)) = Ok sels) as [sels Hsels].
    { assert (Forall (fun p => exists s,
                        actions.buildSelection pending p = Ok s)
                (players (gameState c))) as HF.
      { apply Forall_forall. intros p Hp.
        destruct (allSelectionsConfirmed_lookup c p Hguard Hp)
          as (sel & Hsel & Hlen & _).
        rewrite Forall_forall in Hknown. specialize (Hknown p Hp).
        fold pending in Hsel. rewrite Hsel in Hknown.
        by apply (buildSelection_outcome pending p sel Hsel Hlen). }
      clear Hknown.
      induction HF as [|p ps [s Hs] _ [sels IH]]; [by exists nil|].
      exists (s :: sels). cbn. by rewrite Hs, IH. }
    rewrite Hsels. cbn. by eexists.
  - intros Hnot.
    assert (exn_mapM (actions.buildSelection pending)
              (players (gameState c))
            = Throw (Error "Hand must contain exactly 3 dice")) as ->;
      [|done].
    apply exn_mapM_Throw.
    + intros p err' Hp Herr.
      destruct (allSelectionsConfirmed_lookup c p Hguard Hp)
        as (sel & Hsel & Hlen & _).
      destruct (buildSelection_outcome pending p sel Hsel Hlen) as [Hok Hth].
      destruct (decide (Forall (fun dieId => is_Some (findDie (dice p) dieId))
                          sel)) as [HF|HF].
      * destruct (Hok HF) as [s Hs]. congruence.
      * rewrite (Hth HF) in Herr. congruence.
    + apply not_Forall_Exists in Hnot; [|intros p; apply _].
      apply Exists_exists in Hnot as (p & Hp & Hbad).
      exists p. split; [done|].
      destruct (allSelectionsConfirmed_lookup c p Hguard Hp)
        as (sel & Hsel & Hlen & _).
      unfold compose in Hbad. cbv beta in Hbad.
      fold pending in Hsel. rewrite Hsel in Hbad.
      by apply (buildSelection_outcome pending p sel Hsel Hlen).
Qed.

Lemma always_set_selection_outcome_witness :
  exists c,
    guards.allSelectionsConfirmed c = true
    /\ machine.always_set_selection c (mkEntropy 0 0)
       = (Throw (Error "Hand must contain exactly 3 dice"), mkEntropy 0 0).
Proof.
  set (c := {| gameState :=
                 withPendingSelections
                   (<[confirmedKey "host" := ["confirmed"]]>
                      (<["host" := ["a"; "b"; "c"]]> ∅))
                   (withPlayers [exampleHost] exampleLobby);
               turnTimerId := None; turnTimeRemaining := 0 |}).
  assert (Hg : guards.allSelectionsConfirmed c = true) by by vm_compute.
  exists c. split; [exact Hg|].
  apply (always_set_selection_outcome c (mkEntropy 0 0) Hg).
  unfold selectionsKnown. intros H.
  apply Forall_cons in H as [H _]. vm_compute in H.
  apply Forall_cons in H as [[d Hd] _]. discriminate.
Defined.

(** ** Where the results of set 1 go *)

Lemma stashSet1Results_snoc (set1 : list SetResult) (h : list RoundResult)
    (r : RoundResult) :
  actions.stashSet1Results set1 (h ++ [r]) = h ++ [withSet1Results set1 r].
Proof.
  unfold actions.stashSet1Results. rewrite length_app. cbn [length].
  replace (0 <? length h + 1)%nat with true
    by (symmetry; apply Nat.ltb_lt; lia).
  replace (length h + 1 - 1)%nat with (length h + 0)%nat by lia.
  by rewrite alter_app_r.
Qed.

Lemma processPredictions_history (c c' : GameMachineContext) :
  actions.processPredictions c = Ok c' ->
  exists rr,
    roundHistory (gameState c') = roundHistory (gameState c) ++ [rr]
    /\ roundNumber rr = currentRound (gameState c)
    /\ set2Results rr = setResults (gameState c)
    /\ set1Results rr
       = match last (roundHistory (gameState c)) with
         | Some r => set1Results r
         | None => []
         end.
Proof.
  unfold actions.processPredictions. intros H.
  destruct (exn_mapM _ (players (gameState c))) as [outcomes|err];
    [|discriminate].
  cbn in H. injection H as <-. gs_simpl. by eexists.
Qed.

(** The set-1 results that NEXT_SET puts away, and the round result that
    the round summary later adds.  NEXT_SET writes the results of set 1
    into the last entry the history has at that time.  In the first round
    the history is still empty: the results are dropped, and the round
    result added at the summary has no set-1 results.  In later rounds the
    last entry is the one of the round before: its set-1 results are
    replaced, and the round result added at the summary takes its set-1
    results from there. *)
Theorem set1Results_of_round (c c2 c3 : GameMachineContext) :
  roundHistory (gameState c2)
  = roundHistory (gameState (actions.advanceSet c)) ->
  actions.processPredictions c2 = Ok c3 ->
  exists rr,
    roundNumber rr = currentRound (gameState c2)
    /\ set2Results rr = setResults (gameState c2)
    /\ (roundHistory (gameState c) = [] ->
        roundHistory (gameState c3) = [rr] /\ set1Results rr = [])
    /\ (forall h r,
          roundHistory (gameState c) = h ++ [r] ->
          roundHistory (gameState c3)
          = h ++ [withSet1Results (setResults (gameState c)) r; rr]
          /\ set1Results rr = setResults (gameState c)).
Proof.
  intros Hh Hp.
  destruct (processPredictions_history c2 c3 Hp)
    as (rr & Hhist & Hnum & Hs2 & Hs1).
  exists rr. split; [done|]. split; [done|].
  unfold actions.advanceSet in Hh. gs_simpl. rewrite Hh in Hhist, Hs1.
  split.
  - intros Hnil. rewrite Hnil in Hhist, Hs1. done.
  - intros h r Hsnoc. rewrite Hsnoc, stashSet1Results_snoc in Hhist, Hs1.
    rewrite last_snoc in Hs1. rewrite <- app_assoc in Hhist. done.
Qed.

Lemma set1Results_of_round_witness :
  let c := {| gameState :=
                withSetResults
                  (calculateSetPlacements exampleSelections None)
                  (withPlayers [withPrediction (Some ZERO) exampleHost]
                     exampleLobby);
              turnTimerId := None; turnTimeRemaining := 0 |} in
  exists c3 rr,
    actions.processPredictions (actions.advanceSet c) = Ok c3
    /\ roundHistory (gameState c3) = [rr] /\ set1Results rr = [].
Proof.
  intros c.
  destruct (actions.processPredictions (actions.advanceSet c)) as [c3|err]
    eqn:E; [|vm_compute in E; discriminate].
  destruct (set1Results_of_round c (actions.advanceSet c) c3 eq_refl E)
    as (rr & _ & _ & H0 & _).
  exists c3, rr. split; [reflexivity|]. apply H0. reflexivity.
Defined.

(** ** What the machine keeps *)

Lemma map_person_map (f : Player -> Player) (l : list Player) :
  (forall p, person (f p) = person p) ->
  map person (map f l) = map person l.
Proof. intros H. rewrite map_map. apply map_ext, H. Qed.

Lemma mapRand_person (f : Player -> Entropy -> Player * Entropy)
    (l : list Player) (e : Entropy) :
  (forall p e0, person (fst (f p e0)) = person p) ->
  map person (fst (mapRand f l e)) = map person l.
Proof.
  intros H. revert e. induction l as [|p l IH]; intros e; [done|].
  cbn [mapRand]. specialize (H p e). destruct (f p e) as [p' e1].
  specialize (IH e1). destruct (mapRand f l e1) as [ps e2].
  cbn [fst map] in *. by rewrite H, IH.
Qed.

(** Transitions that run no event's own action keep whatever the eight
    actions they are built from keep. *)
Section Kept.
Context {T : Type} (F : GameState -> T).
Hypothesis F_setPhase : forall x c,
  F (gameState (actions.setPhase x c)) = F (gameState c).
Hypothesis F_clearPendingSelections : forall c,
  F (gameState (machine.clearPendingSelections c)) = F (gameState c).
Hypothesis F_processSetSelection : forall c c',
  actions.processSetSelection c = Ok c' -> F (gameState c') = F (gameState c).
Hypothesis F_processPredictions : forall c c',
  actions.processPredictions c = Ok c' -> F (gameState c') = F (gameState c).
Hypothesis F_setTurnOrder : forall c,
  F (gameState (actions.setTurnOrder c)) = F (gameState c).
Hypothesis F_rollAllDice : forall O c e,
  F (gameState (fst (actions.rollAllDice O c e))) = F (gameState c).
Hypothesis F_rollInitialTurnOrder : forall O c e,
  F (gameState (fst (actions.rollInitialTurnOrder O c e))) = F (gameState c).

Lemma always_set_selection_keeps c e :
  keeps F c (machine.always_set_selection c e).
Proof.
  unfold machine.always_set_selection, keeps.
  destruct (guards.allSelectionsConfirmed c); [|done].
  destruct (actions.processSetSelection c) as [c'|err] eqn:E; [|done].
  cbn [snap_context]. by rewrite F_setPhase, (F_processSetSelection c c').
Qed.

Lemma enter_set_selection_keeps c e :
  keeps F c (machine.enter_set_selection c e).
Proof.
  unfold machine.enter_set_selection.
  pose proof (always_set_selection_keeps
                (actions.setPhase SET_SELECTION c) e) as H.
  unfold keeps in *. destruct (machine.always_set_selection _ e) as [[s|] ?];
    [|done].
  by rewrite H, F_setPhase.
Qed.

Lemma always_prediction_keeps c e :
  keeps F c (machine.always_prediction c e).
Proof.
  unfold machine.always_prediction.
  destruct (guards.allPredictionsSubmitted c); [|done].
  pose proof (enter_set_selection_keeps
                (machine.clearPendingSelections c) e) as H.
  unfold keeps in *. destruct (machine.enter_set_selection _ e) as [[s|] ?];
    [|done].
  by rewrite H, F_clearPendingSelections.
Qed.

Lemma enter_prediction_keeps c e :
  keeps F c (machine.enter_prediction c e).
Proof.
  unfold machine.enter_prediction.
  pose proof (always_prediction_keeps (actions.setPhase PREDICTION c) e) as H.
  unfold keeps in *. destruct (machine.always_prediction _ e) as [[s|] ?];
    [|done].
  by rewrite H, F_setPhase.
Qed.

Lemma always_initial_roll_keeps O c e :
  keeps F c (machine.always_initial_roll O c e).
Proof.
  unfold machine.always_initial_roll.
  destruct (guards.allPlayersRolled c); [|done].
  pose proof (F_rollAllDice O (actions.setTurnOrder c) e) as H1.
  destruct (actions.rollAllDice O (actions.setTurnOrder c) e) as [c2 e1].
  cbn [fst] in H1.
  pose proof (enter_prediction_keeps c2 e1) as H.
  unfold keeps in *. destruct (machine.enter_prediction c2 e1) as [[s|] ?];
    [|done].
  by rewrite H, H1, F_setTurnOrder.
Qed.

Lemma enter_initial_roll_keeps O c e :
  keeps F c (machine.enter_initial_roll O c e).
Proof.
  unfold machine.enter_initial_roll.
  pose proof (F_rollInitialTurnOrder O (actions.setPhase INITIAL_ROLL c) e)
    as H1.
  destruct (actions.rollInitialTurnOrder O _ e) as [c2 e1]. cbn [fst] in H1.
  pose proof (always_initial_roll_keeps O c2 e1) as H.
  unfold keeps in *.
  destruct (machine.always_initial_roll O c2 e1) as [[s|] ?]; [|done].
  by rewrite H, H1, F_setPhase.
Qed.

Lemma enter_round_summary_keeps c e :
  keeps F c (machine.enter_round_summary c e).
Proof.
  unfold machine.enter_round_summary, keeps.
  destruct (actions.processPredictions _) as [c'|err] eqn:E; [|done].
  cbn [snap_context].
  by rewrite (F_processPredictions _ c' E), F_setPhase.
Qed.

Lemma enter_game_over_keeps c e :
  keeps F c (machine.enter_game_over c e).
Proof.
  unfold machine.enter_game_over, keeps. cbn [snap_context].
  unfold actions.clearTurnTimer. cbn [gameState]. apply F_setPhase.
Qed.
End Kept.

Lemma keeps_trans {T} (F : GameState -> T) (c c' : GameMachineContext)
    (out : Outcome) :
  F (gameState c') = F (gameState c) -> keeps F c' out -> keeps F c out.
Proof.
  unfold keeps. destruct out as [[s|] ?]; [|done]. intros -> H. exact H.
Qed.

(** *** The room, the configuration and the players' identities *)

Lemma static_withPlayers (ps : list Player) (g : GameState) :
  map person ps = map person (players g) ->
  static (withPlayers ps g) = static g.
Proof. unfold static. gs_simpl. by intros ->. Qed.

Lemma static_setPhase x c :
  static (gameState (actions.setPhase x c)) = static (gameState c).
Proof. done. Qed.

Lemma static_clearPendingSelections c :
  static (gameState (machine.clearPendingSelections c))
  = static (gameState c).
Proof. done. Qed.

Lemma static_processSetSelection c c' :
  actions.processSetSelection c = Ok c' ->
  static (gameState c') = static (gameState c).
Proof.
  unfold actions.processSetSelection. intros H.
  destruct (exn_mapM _ _) as [selections|err]; [|discriminate].
  cbn in H. injection H as <-. gs_simpl.
  unfold static. gs_simpl. by rewrite map_person_map.
Qed.

Lemma static_processPredictions c c' :
  actions.processPredictions c = Ok c' ->
  static (gameState c') = static (gameState c).
Proof.
  unfold actions.processPredictions. intros H.
  destruct (exn_mapM _ _) as [outcomes|err]; [|discriminate].
  cbn in H. injection H as <-. gs_simpl.
  unfold static. gs_simpl. by rewrite map_person_map.
Qed.

Lemma static_setTurnOrder c :
  static (gameState (actions.setTurnOrder c)) = static (gameState c).
Proof. unfold actions.setTurnOrder. by destruct (_ && _). Qed.

Lemma static_rollAllDice O c e :
  static (gameState (fst (actions.rollAllDice O c e)))
  = static (gameState c).
Proof.
  unfold actions.rollAllDice.
  pose proof (mapRand_person
    (fun player e0 =>
       let '(ds, e') := actions.generatePlayerDice O e0 in
       (withDice ds player, e')) (players (gameState c)) e) as H.
  destruct (mapRand _ (players (gameState c)) e) as [ps e1].
  cbn [fst] in *. gs_simpl. apply static_withPlayers, H.
  intros p e0. by destruct (actions.generatePlayerDice O e0).
Qed.

Lemma static_rollInitialTurnOrder O c e :
  static (gameState (fst (actions.rollInitialTurnOrder O c e)))
  = static (gameState c).
Proof.
  unfold actions.rollInitialTurnOrder. by destruct (mapRand _ _ _).
Qed.

Lemma static_advanceRound O c e :
  static (gameState (fst (actions.advanceRound O c e)))
  = static (gameState c).
Proof.
  unfold actions.advanceRound. gs_simpl.
  pose proof (mapRand_person
    (fun player e0 =>
       let '(ds, e') := actions.generatePlayerDice O e0 in
       (withDice ds player, e')) (players (gameState c)) e) as H.
  destruct (mapRand _ (players (gameState c)) e) as [ps e1].
  cbn [fst] in *. gs_simpl. unfold static. gs_simpl. rewrite H; [done|].
  intros p e0. by destruct (actions.generatePlayerDice O e0).
Qed.

Lemma static_autoSubmitPredictions O c e :
  static (gameState (fst (actions.autoSubmitPredictions O c e)))
  = static (gameState c).
Proof.
  unfold actions.autoSubmitPredictions.
  match goal with
  | |- context [mapRand ?f ?l ?e0] =>
      pose proof (mapRand_person f l e0) as H;
      destruct (mapRand f l e0) as [ps e1]
  end.
  cbn [fst] in *. gs_simpl. apply static_withPlayers, H.
  intros p e0. destruct (prediction p); [done|].
  by destruct (Math_random O e0).
Qed.

Lemma static_resetPlayerRoundState c :
  static (gameState (actions.resetPlayerRoundState c))
  = static (gameState c).
Proof.
  unfold actions.resetPlayerRoundState. gs_simpl.
  by apply static_withPlayers, map_person_map.
Qed.

Lemma static_storePrediction c playerId t :
  static (gameState (actions.storePrediction c playerId t))
  = static (gameState c).
Proof.
  unfold actions.storePrediction. gs_simpl.
  apply static_withPlayers, map_person_map.
  intros p. by destruct (bool_decide _).
Qed.

Lemma static_confirmSelection c playerId :
  static (gameState (actions.confirmSelection c playerId))
  = static (gameState c).
Proof. unfold actions.confirmSelection. by destruct (bool_decide _). Qed.

Lemma static_autoSelectDice c :
  static (gameState (actions.autoSelectDice c)) = static (gameState c).
Proof.
  unfold actions.autoSelectDice.
  destruct (turnOrder _ !! _); [|done]. by destruct (findPlayer _ _).
Qed.

Lemma send_static O s event e :
  keeps static (snap_context s) (machine.send O s event e).
Proof.
  unfold machine.send.
  pose proof (always_set_selection_keeps static static_setPhase
                static_processSetSelection) as Hass.
  pose proof (enter_set_selection_keeps static static_setPhase
                static_processSetSelection) as Hess.
  pose proof (always_prediction_keeps static static_setPhase
                static_clearPendingSelections static_processSetSelection)
    as Hap.
  pose proof (enter_prediction_keeps static static_setPhase
                static_clearPendingSelections static_processSetSelection)
    as Hep.
  pose proof (enter_initial_roll_keeps static static_setPhase
                static_clearPendingSelections static_processSetSelection
                static_setTurnOrder static_rollAllDice
                static_rollInitialTurnOrder) as Heir.
  pose proof (enter_round_summary_keeps static static_setPhase
                static_processPredictions) as Hers.
  pose proof (enter_game_over_keeps static static_setPhase) as Hego.
  destruct (snap_value s), event; try done.
  - eapply keeps_trans; [|apply Heir]. done.
  - eapply keeps_trans; [|apply Hap]. apply static_storePrediction.
  - pose proof (static_autoSubmitPredictions O (snap_context s) e) as H.
    destruct (actions.autoSubmitPredictions O (snap_context s) e) as [c e1].
    eapply keeps_trans; [exact H|apply Hap].
  - eapply keeps_trans; [|apply Hass]. done.
  - eapply keeps_trans; [|apply Hass]. apply static_confirmSelection.
  - eapply keeps_trans; [|apply Hass]. apply static_autoSelectDice.
  - destruct (guards.isSet1 _).
    + eapply keeps_trans; [|apply Hess]. done.
    + destruct (guards.isSet2 _); [apply Hers|done].
  - destruct (guards.hasMoreRounds _).
    + pose proof (static_advanceRound O (snap_context s) e) as H.
      destruct (actions.advanceRound O (snap_context s) e) as [c1 e1].
      eapply keeps_trans; [|apply Hep].
      by rewrite static_setTurnOrder, static_resetPlayerRoundState.
    + destruct (guards.isGameOver _); [apply Hego|done].
Qed.

(** No event changes the room a game belongs to, its configuration, its
    host, its creation time, or who the players are: their ids, names,
    sockets and flags, in the same order.  Only dice, scores and
    predictions of a player change. *)
Theorem deliver_keeps_identity (O : Oracle) (a : Actor)
    (event : GameMachineEvent) (e : Entropy) :
  let g := getGameStateFromActor a in
  let g' := getGameStateFromActor (fst (machine.deliver O a event e)) in
  roomCode g' = roomCode g
  /\ config g' = config g
  /\ hostId g' = hostId g
  /\ createdAt g' = createdAt g
  /\ map person (players g') = map person (players g).
Proof.
  intros g g'.
  assert (static g' = static g) as H.
  { subst g g'. unfold machine.deliver, getGameStateFromActor.
    destruct (stopped a); [done|].
    pose proof (send_static O (snapshot a) event e) as H.
    by destruct (machine.send O (snapshot a) event e) as [[s'|err] e']. }
  unfold static in H. by injection H.
Qed.

(** *** The round counter *)

Lemma roundOf_processSetSelection c c' :
  actions.processSetSelection c = Ok c' ->
  roundOf (gameState c') = roundOf (gameState c).
Proof.
  unfold actions.processSetSelection. intros H.
  destruct (exn_mapM _ _) as [selections|err]; [|discriminate].
  cbn in H. by injection H as <-.
Qed.

Lemma roundOf_processPredictions c c' :
  actions.processPredictions c = Ok c' ->
  roundOf (gameState c') = roundOf (gameState c).
Proof.
  unfold actions.processPredictions. intros H.
  destruct (exn_mapM _ _) as [outcomes|err]; [|discriminate].
  cbn in H. by injection H as <-.
Qed.

Lemma roundOf_setTurnOrder c :
  roundOf (gameState (actions.setTurnOrder c)) = roundOf (gameState c).
Proof. unfold actions.setTurnOrder. by destruct (_ && _). Qed.

Lemma roundOf_rollAllDice O c e :
  roundOf (gameState (fst (actions.rollAllDice O c e)))
  = roundOf (gameState c).
Proof. unfold actions.rollAllDice. by destruct (mapRand _ _ _). Qed.

Lemma roundOf_rollInitialTurnOrder O c e :
  roundOf (gameState (fst (actions.rollInitialTurnOrder O c e)))
  = roundOf (gameState c).
Proof. unfold actions.rollInitialTurnOrder. by destruct (mapRand _ _ _). Qed.

Lemma roundOf_autoSubmitPredictions O c e :
  roundOf (gameState (fst (actions.autoSubmitPredictions O c e)))
  = roundOf (gameState c).
Proof. unfold actions.autoSubmitPredictions. by destruct (mapRand _ _ _). Qed.

Lemma roundOf_confirmSelection c playerId :
  roundOf (gameState (actions.confirmSelection c playerId))
  = roundOf (gameState c).
Proof. unfold actions.confirmSelection. by destruct (bool_decide _). Qed.

Lemma roundOf_autoSelectDice c :
  roundOf (gameState (actions.autoSelectDice c)) = roundOf (gameState c).
Proof.
  unfold actions.autoSelectDice.
  destruct (turnOrder _ !! _); [|done]. by destruct (findPlayer _ _).
Qed.

Lemma roundOf_advanceRound O c e :
  roundOf (gameState (fst (actions.advanceRound O c e)))
  = (currentRound (gameState c) + 1, 1).
Proof. unfold actions.advanceRound. by destruct (mapRand _ _ _). Qed.

(** What one event does to the round counter: nothing, except that
    START_GAME sets it to 1 and NEXT_ROUND, with rounds left to play, adds
    one. *)
Lemma send_round O s event e s' e' :
  machine.send O s event e = (Ok s', e') ->
  let g := gameState (snap_context s) in
  let g' := gameState (snap_context s') in
  (snap_value s = st_lobby /\ (s' = s \/ currentRound g' = 1))
  \/ (snap_value s <> st_lobby
      /\ (currentRound g' = currentRound g
          \/ (currentRound g' = currentRound g + 1
              /\ currentRound g < totalRounds (config g)))).
Proof.
  intros Hsend g g'.
  pose proof (always_set_selection_keeps roundOf (fun _ _ => eq_refl)
                roundOf_processSetSelection) as Hass.
  pose proof (enter_set_selection_keeps roundOf (fun _ _ => eq_refl)
                roundOf_processSetSelection) as Hess.
  pose proof (always_prediction_keeps roundOf (fun _ _ => eq_refl)
                (fun _ => eq_refl) roundOf_processSetSelection) as Hap.
  pose proof (enter_prediction_keeps roundOf (fun _ _ => eq_refl)
                (fun _ => eq_refl) roundOf_processSetSelection) as Hep.
  pose proof (enter_initial_roll_keeps roundOf (fun _ _ => eq_refl)
                (fun _ => eq_refl) roundOf_processSetSelection
                roundOf_setTurnOrder roundOf_rollAllDice
                roundOf_rollInitialTurnOrder) as Heir.
  pose proof (enter_round_summary_keeps roundOf (fun _ _ => eq_refl)
                roundOf_processPredictions) as Hers.
  pose proof (enter_game_over_keeps roundOf (fun _ _ => eq_refl)) as Hego.
  assert (Hsame : forall c out,
            keeps roundOf c out -> out = (Ok s', e') ->
            roundOf (gameState c) = roundOf g ->
            currentRound g' = currentRound g).
  { intros c out Hk -> Hc. unfold keeps in Hk. rewrite Hc in Hk.
    by injection Hk. }
  unfold machine.send in Hsend. fold g in Hsend.
  destruct (snap_value s) eqn:Hv, event;
    try (injection Hsend as <- <-; first [left; split; [done|by left]
                                         |right; split; [done|by left]]).
  - left. split; [done|]. right.
    pose proof (Heir O (machine.initializeRound1 (snap_context s)) e) as Hk.
    rewrite Hsend in Hk. unfold keeps in Hk. by injection Hk.
  - right. split; [done|]. left.
    by eapply (Hsame _ _ (Hap _ _) Hsend).
  - right. split; [done|]. left.
    pose proof (roundOf_autoSubmitPredictions O (snap_context s) e) as H.
    destruct (actions.autoSubmitPredictions O (snap_context s) e) as [c e1].
    by eapply (Hsame c _ (Hap _ _) Hsend).
  - right. split; [done|]. left.
    by eapply (Hsame _ _ (Hass _ _) Hsend).
  - right. split; [done|]. left.
    eapply (Hsame _ _ (Hass _ _) Hsend), roundOf_confirmSelection.
  - right. split; [done|]. left.
    eapply (Hsame _ _ (Hass _ _) Hsend), roundOf_autoSelectDice.
  - right. split; [done|]. left.
    destruct (guards.isSet1 _).
    + pose proof (Hess (actions.advanceSet (snap_context s)) e) as Hk.
      rewrite Hsend in Hk. unfold keeps in Hk. by injection Hk.
    + destruct (guards.isSet2 _).
      * by eapply (Hsame _ _ (Hers _ _) Hsend).
      * by injection Hsend as <- <-.
  - right. split; [done|].
    unfold guards.hasMoreRounds in Hsend.
    destruct (Z.ltb_spec (currentRound (gameState (snap_context s)))
                (totalRounds (config (gameState (snap_context s)))))
      as [Hlt|Hge].
    + right. split; [|exact Hlt].
      pose proof (roundOf_advanceRound O (snap_context s) e) as H.
      destruct (actions.advanceRound O (snap_context s) e) as [c1 e1].
      pose proof (Hep (actions.setTurnOrder
                         (actions.resetPlayerRoundState c1)) e1) as Hk.
      rewrite Hsend in Hk. unfold keeps in Hk.
      rewrite roundOf_setTurnOrder in Hk.
      change (roundOf (gameState (actions.resetPlayerRoundState c1)))
        with (roundOf (gameState c1)) in Hk.
      cbn [fst] in H. rewrite H in Hk. by injection Hk.
    + left. destruct (guards.isGameOver _).
      * by eapply (Hsame _ _ (Hego _ _) Hsend).
      * by injection Hsend as <- <-.
Qed.

Lemma engineReachable_static O g0 a :
  engineReachable O g0 a -> static (getGameStateFromActor a) = static g0.
Proof.
  induction 1 as [|a event e Hr IH]; [done|]. rewrite <- IH.
  unfold machine.deliver, getGameStateFromActor.
  destruct (stopped a); [done|].
  pose proof (send_static O (snapshot a) event e) as H.
  by destruct (machine.send O (snapshot a) event e) as [[s'|err] e'].
Qed.

(** A game never runs past its configured number of rounds: once an
    engine has left the lobby, its round counter is at least 1 and at most
    the number of rounds of the configuration (or 1, if that is less). *)
Theorem rounds_within_config (O : Oracle) (g0 : GameState) (a : Actor) :
  engineReachable O g0 a ->
  snap_value (snapshot a) <> st_lobby ->
  1 <= currentRound (getGameStateFromActor a)
    <= Z.max 1 (totalRounds (config g0)).
Proof.
  induction 1 as [|a event e Hr IH]; [done|].
  pose proof (engineReachable_static O g0 a Hr) as Hst.
  assert (config (getGameStateFromActor a) = config g0) as Hcfg.
  { unfold static in Hst. by injection Hst. }
  unfold machine.deliver, getGameStateFromActor in *.
  destruct (stopped a); [exact IH|].
  destruct (machine.send O (snapshot a) event e) as [[s'|err] e'] eqn:Hsend;
    [|exact IH].
  cbn [fst snapshot]. intros Hnl.
  destruct (send_round O (snapshot a) event e s' e' Hsend)
    as [[Hl [->|H1]]|[Hn [Heq|[Hs Hlt]]]].
  - by apply IH.
  - rewrite H1. lia.
  - rewrite Heq. by apply IH.
  - rewrite Hs. rewrite Hcfg in Hlt. specialize (IH Hn). lia.
Qed.

Lemma rounds_within_config_witness :
  1 <= currentRound
         (getGameStateFromActor
            (fst (machine.deliver exampleOracle
                    (mkActor (machine.createGameActor exampleLobby) false)
                    START_GAME (mkEntropy 0 0))))
    <= Z.max 1 (totalRounds (config exampleLobby)).
Proof.
  apply (rounds_within_config exampleOracle exampleLobby).
  - apply engine_event, engine_created.
  - by vm_compute.
Defined.

(** *** The phase shown and the state of the machine *)

Lemma phase_processSetSelection c c' :
  actions.processSetSelection c = Ok c' ->
  phase (gameState c') = phase (gameState c).
Proof.
  unfold actions.processSetSelection. intros H.
  destruct (exn_mapM _ _) as [selections|err]; [|discriminate].
  cbn in H. by injection H as <-.
Qed.

Lemma phase_processPredictions c c' :
  actions.processPredictions c = Ok c' ->
  phase (gameState c') = phase (gameState c).
Proof.
  unfold actions.processPredictions. intros H.
  destruct (exn_mapM _ _) as [outcomes|err]; [|discriminate].
  cbn in H. by injection H as <-.
Qed.

Lemma always_set_selection_synced c e s' e' :
  machine.always_set_selection c e = (Ok s', e') ->
  phase (gameState c) = SET_SELECTION -> synced s'.
Proof.
  unfold machine.always_set_selection. intros H Hp.
  destruct (guards.allSelectionsConfirmed c).
  - destruct (actions.processSetSelection c) as [c'|err]; [|discriminate].
    by injection H as <- <-.
  - by injection H as <- <-.
Qed.

Lemma enter_set_selection_synced c e s' e' :
  machine.enter_set_selection c e = (Ok s', e') -> synced s'.
Proof.
  intros H. by apply always_set_selection_synced in H.
Qed.

Lemma always_prediction_synced c e s' e' :
  machine.always_prediction c e = (Ok s', e') ->
  phase (gameState c) = PREDICTION -> synced s'.
Proof.
  unfold machine.always_prediction. intros H Hp.
  destruct (guards.allPredictionsSubmitted c).
  - by apply enter_set_selection_synced in H.
  - by injection H as <- <-.
Qed.

Lemma enter_prediction_synced c e s' e' :
  machine.enter_prediction c e = (Ok s', e') -> synced s'.
Proof.
  intros H. by apply always_prediction_synced in H.
Qed.

Lemma enter_initial_roll_synced O c e s' e' :
  machine.enter_initial_roll O c e = (Ok s', e') -> synced s'.
Proof.
  unfold machine.enter_initial_roll. intros H.
  assert (phase (gameState (fst (actions.rollInitialTurnOrder O
                      (actions.setPhase INITIAL_ROLL c) e))) = INITIAL_ROLL)
    as Hp.
  { unfold actions.rollInitialTurnOrder. by destruct (mapRand _ _ _). }
  destruct (actions.rollInitialTurnOrder O _ e) as [c2 e1]. cbn [fst] in Hp.
  unfold machine.always_initial_roll in H.
  destruct (guards.allPlayersRolled c2).
  - destruct (actions.rollAllDice O _ e1) as [c3 e2].
    by apply enter_prediction_synced in H.
  - by injection H as <- <-.
Qed.

Lemma enter_round_summary_synced c e s' e' :
  machine.enter_round_summary c e = (Ok s', e') -> synced s'.
Proof.
  unfold machine.enter_round_summary. intros H.
  destruct (actions.processPredictions _) as [c'|err] eqn:E; [|discriminate].
  injection H as <- <-. apply phase_processPredictions in E.
  unfold synced. cbn [snap_context snap_value phaseOf]. by rewrite E.
Qed.

Lemma send_synced O s event e s' e' :
  machine.send O s event e = (Ok s', e') -> synced s -> synced s'.
Proof.
  unfold machine.send. intros H Hs. unfold synced in Hs.
  destruct (snap_value s) eqn:Hv, event;
    try (by injection H as <- <-; unfold synced; rewrite ?Hv).
  - by apply enter_initial_roll_synced in H.
  - by apply always_prediction_synced in H.
  - assert (phase (gameState (fst (actions.autoSubmitPredictions O
                      (snap_context s) e))) = PREDICTION) as Hp.
    { unfold actions.autoSubmitPredictions. by destruct (mapRand _ _ _). }
    destruct (actions.autoSubmitPredictions O _ e) as [c e1].
    by apply always_prediction_synced in H.
  - by apply always_set_selection_synced in H.
  - apply always_set_selection_synced in H; [done|].
    unfold actions.confirmSelection. by destruct (bool_decide _).
  - apply always_set_selection_synced in H; [done|].
    unfold actions.autoSelectDice.
    destruct (turnOrder _ !! _); [|done]. by destruct (findPlayer _ _).
  - destruct (guards.isSet1 _).
    + by apply enter_set_selection_synced in H.
    + destruct (guards.isSet2 _).
      * by apply enter_round_summary_synced in H.
      * injection H as <- <-. unfold synced. by rewrite Hv.
  - destruct (guards.hasMoreRounds _).
    + destruct (actions.advanceRound O _ e) as [c1 e1].
      by apply enter_prediction_synced in H.
    + destruct (guards.isGameOver _).
      * by injection H as <- <-.
      * injection H as <- <-. unfold synced. by rewrite Hv.
Qed.

(** The phase in the game state, which is what is stored and sent to the
    clients, is at all times the one of the state the machine is in. *)
Theorem phase_follows_state (O : Oracle) (g0 : GameState) (a : Actor) :
  engineReachable O g0 a ->
  phase (getGameStateFromActor a) = phaseOf (snap_value (snapshot a)).
Proof.
  induction 1 as [|a event e Hr IH]; [done|].
  unfold machine.deliver, getGameStateFromActor in *.
  destruct (stopped a); [exact IH|].
  destruct (machine.send O (snapshot a) event e) as [[s'|err] e'] eqn:Hsend;
    [|exact IH].
  cbn [fst snapshot]. by apply (send_synced O (snapshot a) event e s' e').
Qed.

Lemma phase_follows_state_witness :
  phase (getGameStateFromActor
           (fst (machine.deliver exampleOracle
                   (mkActor (machine.createGameActor exampleLobby) false)
                   START_GAME (mkEntropy 0 0))))
  = phaseOf
      (snap_value
         (snapshot
            (fst (machine.deliver exampleOracle
                    (mkActor (machine.createGameActor exampleLobby) false)
                    START_GAME (mkEntropy 0 0))))).
Proof.
  apply (phase_follows_state exampleOracle exampleLobby).
  apply engine_event, engine_created.
Defined.

(** *** The end of a game *)

Lemma engineReachable_stopped O g0 a :
  engineReachable O g0 a ->
  snap_value (snapshot a) = st_game_over -> stopped a = true.
Proof.
  induction 1 as [|a event e Hr IH]; [done|].
  unfold machine.deliver.
  destruct (stopped a) eqn:Hst; [cbn [fst]; intros _; exact Hst|].
  destruct (machine.send O (snapshot a) event e) as [[s'|err] e'];
    cbn [fst snapshot stopped]; [|done].
  intros ->. by apply bool_decide_eq_true.
Qed.

(** Game over is final: an engine that has reached it ignores every
    further event; state, scores and randomness stay as they are. *)
Theorem game_over_is_final (O : Oracle) (g0 : GameState) (a : Actor)
    (event : GameMachineEvent) (e : Entropy) :
  engineReachable O g0 a ->
  snap_value (snapshot a) = st_game_over ->
  machine.deliver O a event e = (a, e).
Proof.
  intros Hr Hv. unfold machine.deliver.
  by rewrite (engineReachable_stopped O g0 a Hr Hv).
Qed.

Lemma engineReachable_deliverAll O g0 events a e :
  engineReachable O g0 a ->
  engineReachable O g0 (fst (deliverAll O events a e)).
Proof.
  revert a e. induction events as [|event events IH]; intros a e Hr; [done|].
  cbn [deliverAll]. by apply IH, engine_event.
Qed.

Lemma game_over_is_final_witness :
  let a := fst (deliverAll exampleOracle exampleTimedOutGame
                  (mkActor (machine.createGameActor exampleLobby) false)
                  (mkEntropy 0 0)) in
  snap_value (snapshot a) = st_game_over
  /\ machine.deliver exampleOracle a START_GAME (mkEntropy 0 0)
     = (a, mkEntropy 0 0).
Proof.
  intros a.
  assert (Hv : snap_value (snapshot a) = st_game_over) by by vm_compute.
  split; [exact Hv|].
  apply (game_over_is_final exampleOracle exampleLobby a START_GAME
           (mkEntropy 0 0)); [|exact Hv].
  apply engineReachable_deliverAll, engine_created.
Defined.

(** *** The course of a game *)

Lemma static_nonempty (g g' : GameState) :
  static g' = static g -> players g <> [] -> players g' <> [].
Proof.
  unfold static. intros H Hne Hnil. injection H as _ _ _ _ H.
  rewrite Hnil in H. by destruct (players g).
Qed.

Lemma always_set_selection_value c e s' e' :
  machine.always_set_selection c e = (Ok s', e') ->
  snap_value s' = st_set_selection \/ snap_value s' = st_set_reveal.
Proof.
  unfold machine.always_set_selection. intros H.
  destruct (guards.allSelectionsConfirmed c).
  - destruct (actions.processSetSelection c) as [c'|err]; [|discriminate].
    injection H as <- <-. by right.
  - injection H as <- <-. by left.
Qed.

(** With nothing selected yet and a player in the game, the selection
    state is entered and stays. *)
Lemma enter_set_selection_fresh c e :
  players (gameState c) <> [] ->
  pendingSelections (gameState c) = ∅ ->
  machine.enter_set_selection c e
  = (Ok (mkSnapshot st_set_selection (actions.setPhase SET_SELECTION c)), e).
Proof.
  intros Hne Hpend.
  unfold machine.enter_set_selection, machine.always_set_selection,
    guards.allSelectionsConfirmed. gs_simpl. rewrite Hpend.
  destruct (players (gameState c)) as [|p ps]; [done|].
  cbn [forallb]. by rewrite lookup_empty.
Qed.

Lemma always_prediction_value c e s' e' :
  players (gameState c) <> [] ->
  machine.always_prediction c e = (Ok s', e') ->
  snap_value s' = st_prediction \/ snap_value s' = st_set_selection.
Proof.
  unfold machine.always_prediction. intros Hne H.
  destruct (guards.allPredictionsSubmitted c).
  - rewrite enter_set_selection_fresh in H by done.
    injection H as <- <-. by right.
  - injection H as <- <-. by left.
Qed.

Lemma enter_prediction_value c e s' e' :
  players (gameState c) <> [] ->
  machine.enter_prediction c e = (Ok s', e') ->
  snap_value s' = st_prediction \/ snap_value s' = st_set_selection.
Proof.
  intros Hne H. by apply always_prediction_value in H.
Qed.

Lemma enter_initial_roll_value O c e s' e' :
  players (gameState c) <> [] ->
  machine.enter_initial_roll O c e = (Ok s', e') ->
  snap_value s' = st_prediction \/ snap_value s' = st_set_selection.
Proof.
  unfold machine.enter_initial_roll. intros Hne H.
  destruct (rollInitialTurnOrder_spec O (actions.setPhase INITIAL_ROLL c) e)
    as (rolls & Hc2 & Hids & _).
  destruct (actions.rollInitialTurnOrder O _ e) as [c2 e1].
  cbn [fst] in Hc2. subst c2.
  assert (Hlen : length rolls = length (players (gameState c))).
  { rewrite <- (length_map roll_playerId), Hids. gs_simpl.
    by rewrite length_map. }
  unfold machine.always_initial_roll, guards.allPlayersRolled in H.
  gs_simpl. rewrite Hlen, Nat.leb_refl in H.
  destruct (players (gameState c)) as [|p0 ps0] eqn:Hps; [done|].
  cbn [length Nat.ltb Nat.leb andb] in H.
  match type of H with
  | context [actions.rollAllDice O ?c3 e1] =>
      pose proof (static_rollAllDice O c3 e1) as Hst;
      rewrite static_setTurnOrder in Hst;
      destruct (actions.rollAllDice O c3 e1) as [c4 e2]
  end.
  cbn [fst] in Hst. apply enter_prediction_value in H; [done|].
  apply (static_nonempty _ _ Hst). gs_simpl. by rewrite Hps.
Qed.

(** With a player who has no prediction, the prediction state stays. *)
Lemma enter_prediction_open c e :
  players (gameState c) <> [] ->
  Forall (fun p => prediction p = None) (players (gameState c)) ->
  machine.enter_prediction c e
  = (Ok (mkSnapshot st_prediction (actions.setPhase PREDICTION c)), e).
Proof.
  intros Hne Hnone.
  unfold machine.enter_prediction, machine.always_prediction,
    guards.allPredictionsSubmitted. gs_simpl.
  destruct (players (gameState c)) as [|p ps]; [done|].
  apply Forall_cons in Hnone as [Hp _]. cbn [forallb]. by rewrite Hp.
Qed.

(** States follow the course of a game.  With at least one player, an
    event moves the machine only from the lobby to the predictions (or,
    with all predictions there already, to the selection), from the
    predictions to the selection, from the selection to the reveal, from
    the reveal to the selection of set 2 or to the summary, and from the
    summary to the predictions of the next round or to the end; or it
    leaves the state as it is. *)
Theorem send_follows_course (O : Oracle) (s s' : Snapshot)
    (event : GameMachineEvent) (e e' : Entropy) :
  players (gameState (snap_context s)) <> [] ->
  machine.send O s event e = (Ok s', e') ->
  follows (snap_value s) (snap_value s') = true.
Proof.
  intros Hne H. unfold machine.send in H.
  assert (Hstay : forall v, follows v v = true) by by intros [].
  destruct (snap_value s) eqn:Hv, event;
    try (injection H as <- <-; rewrite Hv; apply Hstay).
  - apply enter_initial_roll_value in H as [->| ->]; done.
  - apply always_prediction_value in H as [->| ->]; [done|done|].
    apply (static_nonempty _ _ (static_storePrediction _ _ _) Hne).
  - pose proof (static_autoSubmitPredictions O (snap_context s) e) as Hst.
    destruct (actions.autoSubmitPredictions O _ e) as [c e1].
    apply always_prediction_value in H as [->| ->]; [done|done|].
    apply (static_nonempty _ _ Hst Hne).
  - apply always_set_selection_value in H as [->| ->]; done.
  - apply always_set_selection_value in H as [->| ->]; done.
  - apply always_set_selection_value in H as [->| ->]; done.
  - destruct (guards.isSet1 _).
    + rewrite enter_set_selection_fresh in H by done.
      by injection H as <- <-.
    + destruct (guards.isSet2 _).
      * unfold machine.enter_round_summary in H.
        destruct (actions.processPredictions _); [|discriminate].
        by injection H as <- <-.
      * injection H as <- <-. rewrite Hv. apply Hstay.
  - destruct (guards.hasMoreRounds _).
    + pose proof (static_advanceRound O (snap_context s) e) as Hst.
      destruct (actions.advanceRound O _ e) as [c1 e1]. cbn [fst] in Hst.
      rewrite enter_prediction_open in H.
      * by injection H as <- <-.
      * apply (static_nonempty (gameState (snap_context s))); [|done].
        by rewrite static_setTurnOrder, static_resetPlayerRoundState.
      * assert (players (gameState (actions.setTurnOrder
                           (actions.resetPlayerRoundState c1)))
                = players (gameState (actions.resetPlayerRoundState c1)))
          as ->.
        { unfold actions.setTurnOrder. by destruct (_ && _). }
        unfold actions.resetPlayerRoundState. gs_simpl.
        apply Forall_fmap, Forall_forall. by intros p _.
    + destruct (guards.isGameOver _).
      * by injection H as <- <-.
      * injection H as <- <-. rewrite Hv. apply Hstay.
  - by injection H as <- <-.
Qed.

Lemma send_follows_course_witness :
  exists s' e',
    machine.send exampleOracle (machine.createGameActor exampleLobby)
      START_GAME (mkEntropy 0 0) = (Ok s', e')
    /\ follows st_lobby (snap_value s') = true.
Proof.
  destruct (machine.send exampleOracle (machine.createGameActor exampleLobby)
              START_GAME (mkEntropy 0 0)) as [[s'|err] e'] eqn:E;
    [|vm_compute in E; discriminate].
  exists s', e'. split; [reflexivity|].
  apply (send_follows_course exampleOracle
           (machine.createGameActor exampleLobby) s' START_GAME
           (mkEntropy 0 0) e'); [discriminate|exact E].
Defined.

(** ** NEXT_SET after the first set *)






(** ** TURN_TIMEOUT *)







(** * The game service *)

(** ** Requests that are turned down *)

Lemma turnedDown_Throw srv err : turnedDown srv (Throw err, srv).
Proof. by intros code message _. Qed.

Lemma turnedDown_persist srv room actor srv' :
  turnedDown srv (GameService.persist room actor srv').
Proof. intros code message H. discriminate. Qed.

Lemma turnedDown_submitPrediction O room playerId t srv :
  turnedDown srv (GameService.submitPrediction O room playerId t srv).
Proof.
  unfold GameService.submitPrediction.
  destruct (gameActors srv !! room) as [actor|];
    [|apply turnedDown_Throw].
  destruct (negb _); [apply turnedDown_Throw|].
  destruct (findPlayer _ _) as [player|]; [|apply turnedDown_Throw].
  destruct (negb _); [apply turnedDown_Throw|].
  destruct (GameService.actorSend O room actor _ srv) as [actor' srv'].
  apply turnedDown_persist.
Qed.

Lemma turnedDown_selectDice O room playerId payload srv :
  turnedDown srv (GameService.selectDice O room playerId payload srv).
Proof.
  unfold GameService.selectDice.
  destruct (gameActors srv !! room) as [actor|];
    [|apply turnedDown_Throw].
  destruct (negb _); [apply turnedDown_Throw|].
  destruct (negb _); [apply turnedDown_Throw|].
  destruct (findPlayer _ _) as [player|]; [|apply turnedDown_Throw].
  destruct payload as [dieIds|]; [|apply turnedDown_Throw].
  destruct (negb _); [apply turnedDown_Throw|].
  destruct (omap _ dieIds) as [|err0 errs]; [|apply turnedDown_Throw].
  destruct (GameService.actorSend O room actor _ srv) as [actor' srv'].
  apply turnedDown_persist.
Qed.

Lemma turnedDown_confirmSelection O room playerId srv :
  turnedDown srv (GameService.confirmSelection O room playerId srv).
Proof.
  unfold GameService.confirmSelection.
  destruct (gameActors srv !! room) as [actor|];
    [|apply turnedDown_Throw].
  destruct (negb _); [apply turnedDown_Throw|].
  destruct (negb _); [apply turnedDown_Throw|].
  destruct (bool_decide _); [apply turnedDown_Throw|].
  destruct (GameService.actorSend O room actor _ srv) as [actor' srv'].
  apply turnedDown_persist.
Qed.

Lemma turnedDown_triggerTurnTimeout O room srv :
  turnedDown srv (GameService.triggerTurnTimeout O room srv).
Proof.
  unfold GameService.triggerTurnTimeout.
  destruct (gameActors srv !! room) as [actor|];
    [|apply turnedDown_Throw].
  destruct (GameService.actorSend O room actor _ srv) as [actor' srv'].
  intros err H. discriminate.
Qed.

Lemma turnedDown_triggerPredictionTimeout O room srv :
  turnedDown srv (GameService.triggerPredictionTimeout O room srv).
Proof.
  unfold GameService.triggerPredictionTimeout.
  destruct (gameActors srv !! room) as [actor|];
    [|apply turnedDown_Throw].
  destruct (GameService.actorSend O room actor _ srv) as [actor' srv'].
  intros err H. discriminate.
Qed.

Lemma turnedDown_advanceToNextSet O room srv :
  turnedDown srv (GameService.advanceToNextSet O room srv).
Proof.
  unfold GameService.advanceToNextSet.
  destruct (gameActors srv !! room) as [actor|];
    [|apply turnedDown_Throw].
  destruct (negb _); [apply turnedDown_Throw|].
  destruct (GameService.actorSend O room actor _ srv) as [actor' srv'].
  intros err H. discriminate.
Qed.

Lemma turnedDown_advanceToNextRound O room srv :
  turnedDown srv (GameService.advanceToNextRound O room srv).
Proof.
  unfold GameService.advanceToNextRound.
  destruct (gameActors srv !! room) as [actor|];
    [|apply turnedDown_Throw].
  destruct (negb _); [apply turnedDown_Throw|].
  destruct (GameService.actorSend O room actor _ srv) as [actor' srv'].
  apply turnedDown_persist.
Qed.

(** A request the game service turns down with a GameError changes
    nothing: whenever submitPrediction, selectDice (whatever its payload),
    confirmSelection, advanceToNextSet, advanceToNextRound or one of the two
    timeouts throws a GameError, the server is as it was before: actors,
    stored states, randomness and messages sent. *)
Theorem rejected_requests_change_nothing (O : Oracle) (room : string)
    (srv : Server) :
  (forall playerId t,
     turnedDown srv (GameService.submitPrediction O room playerId t srv))
  /\ (forall playerId payload,
        turnedDown srv (GameService.selectDice O room playerId payload srv))
  /\ (forall playerId,
        turnedDown srv (GameService.confirmSelection O room playerId srv))
  /\ turnedDown srv (GameService.triggerTurnTimeout O room srv)
  /\ turnedDown srv (GameService.triggerPredictionTimeout O room srv)
  /\ turnedDown srv (GameService.advanceToNextSet O room srv)
  /\ turnedDown srv (GameService.advanceToNextRound O room srv).
Proof.
  split; [intros; apply turnedDown_submitPrediction|].
  split; [intros; apply turnedDown_selectDice|].
  split; [intros; apply turnedDown_confirmSelection|].
  split; [apply turnedDown_triggerTurnTimeout|].
  split; [apply turnedDown_triggerPredictionTimeout|].
  split; [apply turnedDown_advanceToNextSet|].
  apply turnedDown_advanceToNextRound.
Qed.

(** ** Requests that are served *)

Lemma sameStores_refl srv : sameStores srv srv.
Proof. done. Qed.

Lemma sameStores_trans srv1 srv2 srv3 :
  sameStores srv1 srv2 -> sameStores srv2 srv3 -> sameStores srv1 srv3.
Proof. intros [H1 H2] [H3 H4]. split; congruence. Qed.

Lemma sameStores_emit t ev srv : sameStores srv (emit t ev srv).
Proof. done. Qed.

Lemma sameStores_startTurnTimer room srv :
  sameStores srv (GameService.startTurnTimer room srv).
Proof.
  unfold GameService.startTurnTimer. by destruct (gameActors srv !! room).
Qed.

Lemma sameStores_startPredictionTimer room srv :
  sameStores srv (GameService.startPredictionTimer room srv).
Proof.
  unfold GameService.startPredictionTimer.
  by destruct (gameActors srv !! room).
Qed.

Lemma sameStores_handleGameStateChange room p g srv :
  sameStores srv (GameGateway.handleGameStateChange room p g srv).
Proof.
  unfold GameGateway.handleGameStateChange.
  destruct p; try done.
  - by destruct (0 <? _)%nat.
  - by destruct (0 <? _)%nat.
  - by destruct (last _).
Qed.

Lemma sameStores_handleStateChange room p g srv :
  sameStores srv (GameService.handleStateChange room p g srv).
Proof.
  unfold GameService.handleStateChange.
  eapply sameStores_trans; [|apply sameStores_handleGameStateChange].
  apply sameStores_trans
    with (if bool_decide (p = PREDICTION)
          then GameService.startPredictionTimer room srv else srv).
  - destruct (bool_decide (p = PREDICTION));
      [apply sameStores_startPredictionTimer|apply sameStores_refl].
  - destruct (bool_decide (p = SET_SELECTION));
      [apply sameStores_startTurnTimer|apply sameStores_refl].
Qed.

Lemma sameStores_handleAutoSelection room playerId dieIds g srv :
  sameStores srv (GameGateway.handleAutoSelection room playerId dieIds g srv).
Proof.
  unfold GameGateway.handleAutoSelection. by destruct (findPlayer _ _).
Qed.

Lemma sameStores_handleAutoPrediction room playerIds g srv :
  sameStores srv (GameGateway.handleAutoPrediction room playerIds g srv).
Proof.
  unfold GameGateway.handleAutoPrediction.
  assert (sameStores srv
            (foldl (fun srv playerId =>
                      emit (ToRoom room) (prediction_submitted playerId) srv)
               srv playerIds)) as H.
  { revert srv. induction playerIds as [|p ps IH]; intros srv; [done|].
    cbn [foldl]. eapply sameStores_trans; [|apply IH]. done. }
  destruct H as [H1 H2]. by destruct (forallb _ _).
Qed.

(** After [actor.send], the room's actor is the one the call returns, and
    the stored states are untouched. *)
Lemma actorSend_stores O room actor event srv :
  gameActors srv !! room = Some actor ->
  gameActors (snd (GameService.actorSend O room actor event srv)) !! room
  = Some (fst (GameService.actorSend O room actor event srv))
  /\ redis (snd (GameService.actorSend O room actor event srv)) = redis srv.
Proof.
  intros Hroom. unfold GameService.actorSend.
  destruct (stopped actor); [done|].
  destruct (machine.send O (snapshot actor) event (entropy srv))
    as [[s|err] e]; cbn [fst snd].
  - match goal with
    | |- context [GameService.handleStateChange ?r ?p ?g ?s0] =>
        destruct (sameStores_handleStateChange r p g s0) as [-> ->]
    end.
    cbn. by rewrite lookup_insert_eq.
  - cbn. by rewrite lookup_insert_eq.
Qed.

Lemma served_persist room actor srv :
  gameActors srv !! room = Some actor ->
  served room (GameService.persist room actor srv).
Proof.
  intros Hroom g [= <-]. cbn. rewrite lookup_insert_eq. split; [done|].
  by exists actor.
Qed.

Lemma served_Throw room err srv : served room (Throw err, srv).
Proof. intros g H. discriminate. Qed.

Lemma served_sameStores room r srv' :
  served room r -> sameStores (snd r) srv' -> served room (fst r, srv').
Proof.
  intros H [H1 H2] g Hg. cbn [fst snd] in *. rewrite H1, H2. by apply H.
Qed.

Lemma served_send O room actor event srv :
  gameActors srv !! room = Some actor ->
  served room
    (GameService.persist room
       (fst (GameService.actorSend O room actor event srv))
       (snd (GameService.actorSend O room actor event srv))).
Proof.
  intros Hroom. apply served_persist.
  by apply actorSend_stores.
Qed.

Lemma served_submitPrediction O room playerId t srv :
  served room (GameService.submitPrediction O room playerId t srv).
Proof.
  unfold GameService.submitPrediction.
  destruct (gameActors srv !! room) as [actor|] eqn:Hroom;
    [|apply served_Throw].
  destruct (negb _); [apply served_Throw|].
  destruct (findPlayer _ _) as [player|]; [|apply served_Throw].
  destruct (negb _); [apply served_Throw|].
  pose proof (served_send O room actor (SUBMIT_PREDICTION playerId t) srv
                Hroom) as H.
  by destruct (GameService.actorSend O room actor _ srv) as [actor' srv'].
Qed.

Lemma served_selectDice O room playerId payload srv :
  served room (GameService.selectDice O room playerId payload srv).
Proof.
  unfold GameService.selectDice.
  destruct (gameActors srv !! room) as [actor|] eqn:Hroom;
    [|apply served_Throw].
  destruct (negb _); [apply served_Throw|].
  destruct (negb _); [apply served_Throw|].
  destruct (findPlayer _ _) as [player|]; [|apply served_Throw].
  destruct payload as [dieIds|]; [|apply served_Throw].
  destruct (negb _); [apply served_Throw|].
  destruct (omap _ dieIds); [|apply served_Throw].
  pose proof (served_send O room actor (SELECT_DICE playerId dieIds) srv
                Hroom) as H.
  by destruct (GameService.actorSend O room actor _ srv) as [actor' srv'].
Qed.

Lemma served_confirmSelection O room playerId srv :
  served room (GameService.confirmSelection O room playerId srv).
Proof.
  unfold GameService.confirmSelection.
  destruct (gameActors srv !! room) as [actor|] eqn:Hroom;
    [|apply served_Throw].
  destruct (negb _); [apply served_Throw|].
  destruct (negb _); [apply served_Throw|].
  destruct (bool_decide (is_Some _)); [apply served_Throw|].
  pose proof (actorSend_stores O room actor (CONFIRM_SELECTION playerId) srv
                Hroom) as [H1 H2].
  destruct (GameService.actorSend O room actor _ srv) as [actor' srv'].
  cbn [fst snd] in *. apply served_persist.
  destruct (bool_decide _); [|done].
  destruct (_ <? _)%nat; [|done].
  by destruct (sameStores_startTurnTimer room srv') as [-> _].
Qed.

Lemma served_triggerTurnTimeout O room srv :
  served room (GameService.triggerTurnTimeout O room srv).
Proof.
  unfold GameService.triggerTurnTimeout.
  destruct (gameActors srv !! room) as [actor|] eqn:Hroom;
    [|apply served_Throw].
  pose proof (served_send O room actor TURN_TIMEOUT srv Hroom) as H.
  destruct (GameService.actorSend O room actor _ srv) as [actor' srv'].
  cbn [fst snd] in H.
  apply (served_sameStores room _ _ H). cbn [snd GameService.persist].
  destruct (turnOrder _ !! _) as [playerId|]; [|done].
  destruct (_ && _); [|done]. apply sameStores_handleAutoSelection.
Qed.

Lemma served_triggerPredictionTimeout O room srv :
  served room (GameService.triggerPredictionTimeout O room srv).
Proof.
  unfold GameService.triggerPredictionTimeout.
  destruct (gameActors srv !! room) as [actor|] eqn:Hroom;
    [|apply served_Throw].
  pose proof (served_send O room actor PREDICTION_TIMEOUT srv Hroom) as H.
  destruct (GameService.actorSend O room actor _ srv) as [actor' srv'].
  cbn [fst snd] in H.
  apply (served_sameStores room _ _ H). cbn [snd GameService.persist].
  destruct (0 <? _)%nat; [|done]. apply sameStores_handleAutoPrediction.
Qed.

Lemma served_advanceToNextSet O room srv :
  served room (GameService.advanceToNextSet O room srv).
Proof.
  unfold GameService.advanceToNextSet.
  destruct (gameActors srv !! room) as [actor|] eqn:Hroom;
    [|apply served_Throw].
  destruct (negb _); [apply served_Throw|].
  pose proof (served_send O room actor NEXT_SET srv Hroom) as H.
  destruct (GameService.actorSend O room actor _ srv) as [actor' srv'].
  cbn [fst snd] in H.
  apply (served_sameStores room _ _ H). cbn [snd GameService.persist].
  destruct (bool_decide _); [|done]. apply sameStores_startTurnTimer.
Qed.

Lemma served_advanceToNextRound O room srv :
  served room (GameService.advanceToNextRound O room srv).
Proof.
  unfold GameService.advanceToNextRound.
  destruct (gameActors srv !! room) as [actor|] eqn:Hroom;
    [|apply served_Throw].
  destruct (negb _); [apply served_Throw|].
  pose proof (served_send O room actor NEXT_ROUND srv Hroom) as H.
  by destruct (GameService.actorSend O room actor _ srv) as [actor' srv'].
Qed.

(** What a served request returns is what the server then holds: the game
    state returned by submitPrediction, selectDice, confirmSelection,
    advanceToNextSet, advanceToNextRound and the two timeouts is the state
    of the room's actor and the state stored for the room. *)
Theorem served_requests_are_stored (O : Oracle) (room : string)
    (srv : Server) :
  (forall playerId t,
     served room (GameService.submitPrediction O room playerId t srv))
  /\ (forall playerId payload,
        served room (GameService.selectDice O room playerId payload srv))
  /\ (forall playerId,
        served room (GameService.confirmSelection O room playerId srv))
  /\ served room (GameService.triggerTurnTimeout O room srv)
  /\ served room (GameService.triggerPredictionTimeout O room srv)
  /\ served room (GameService.advanceToNextSet O room srv)
  /\ served room (GameService.advanceToNextRound O room srv).
Proof.
  split; [intros; apply served_submitPrediction|].
  split; [intros; apply served_selectDice|].
  split; [intros; apply served_confirmSelection|].
  split; [apply served_triggerTurnTimeout|].
  split; [apply served_triggerPredictionTimeout|].
  split; [apply served_advanceToNextSet|].
  apply served_advanceToNextRound.
Qed.

(** ** Which selections are accepted *)

Lemma omap_nil_iff {A B} (f : A -> option B) (l : list A) :
  omap f l = [] <-> Forall (fun x => f x = None) l.
Proof.
  induction l as [|x l IH]; [by split; [constructor|]|].
  cbn. destruct (f x) eqn:E.
  - split; [done|]. intros [H _]%Forall_cons. congruence.
  - rewrite IH, Forall_cons. intuition.
Qed.

(** selectDice accepts a selection exactly when the room has an actor in
    the set_selection state, the player is the turn-holder and is among
    the players, the payload is a list of ids, three ids are given, and each
    id is the id of a die of the player that is not spent.  Nothing asks
    for three different dice. *)
Theorem selectDice_accepted_iff (O : Oracle) (room playerId : string)
    (payload : option (list string)) (srv : Server) :
  (exists g, fst (GameService.selectDice O room playerId payload srv) = Ok g)
  <-> exists actor player dieIds,
        payload = Some dieIds
        /\ gameActors srv !! room = Some actor
        /\ snap_value (snapshot actor) = st_set_selection
        /\ turnOrder (getGameStateFromActor actor)
             !! currentTurnIndex (getGameStateFromActor actor)
           = Some playerId
        /\ findPlayer (players (getGameStateFromActor actor)) playerId
           = Some player
        /\ length dieIds = 3%nat
        /\ Forall (fun dieId =>
                     exists die,
                       findDie (dice player) dieId = Some die
                       /\ isSpent die = false) dieIds.
Proof.
  unfold GameService.selectDice.
  destruct (gameActors srv !! room) as [actor|]; [|split; [by intros [??]|]].
  2:{ by intros (? & ? & ? & _ & ? & _). }
  destruct (bool_decide_reflect
              (snap_value (snapshot actor) = st_set_selection)) as [Hv|Hv];
    cbn [negb].
  2:{ split; [by intros [??]|].
      intros (? & ? & ? & _ & [= <-] & ? & _). done. }
  destruct (bool_decide_reflect
              (turnOrder (getGameStateFromActor actor)
                 !! currentTurnIndex (getGameStateFromActor actor)
               = Some playerId)) as [Ht|Ht]; cbn [negb].
  2:{ split; [by intros [??]|].
      intros (? & ? & ? & _ & [= <-] & _ & ? & _). done. }
  destruct (findPlayer _ playerId) as [player|] eqn:Hf.
  2:{ split; [by intros [??]|].
      intros (? & ? & ? & _ & [= <-] & _ & _ & ? & _). congruence. }
  destruct payload as [dieIds|].
  2:{ split; [by intros [??]|]. by intros (? & ? & ? & ? & _). }
  destruct (Nat.eqb_spec (length dieIds) DICE_PER_SELECTION) as [Hl|Hl];
    cbn [negb].
  2:{ split; [by intros [??]|].
      intros (? & ? & ? & [= <-] & [= <-] & _ & _ & _ & ? & _). done. }
  match goal with
  | |- context [omap ?check dieIds] =>
      pose proof (omap_nil_iff check dieIds) as Hnil;
      destruct (omap check dieIds) as [|err0 errs]
  end.
  - split.
    + intros _. exists actor, player, dieIds. repeat (split; [done|]).
      eapply Forall_impl; [by apply Hnil|]. intros dieId Hc. cbn in Hc.
      destruct (findDie (dice player) dieId) as [die|]; [|done].
      destruct (isSpent die) eqn:Hs; [done|]. by exists die.
    + intros _.
      destruct (GameService.actorSend O room actor _ srv) as [actor' srv'].
      by eexists.
  - split; [by intros [??]|].
    intros (? & player' & ? & [= <-] & [= <-] & _ & _ & Hp & _ & HF).
    assert (player' = player) as -> by congruence.
    assert (err0 :: errs = []) as Habs; [|done].
    apply Hnil. eapply Forall_impl; [exact HF|].
    intros dieId (die & -> & ->). done.
Qed.

(** One die chosen three times passes for a selection of three dice, and
    is then evaluated as a triple of its value. *)
Theorem repeated_die_is_a_triple (O : Oracle) (room playerId : string)
    (a b c : string) (srv : Server) :
  (exists g,
     fst (GameService.selectDice O room playerId (Some [a; b; c]) srv)
     = Ok g) ->
  (exists g,
     fst (GameService.selectDice O room playerId (Some [a; a; a]) srv)
     = Ok g)
  /\ forall pending player,
       player_id player = playerId ->
       pending !! playerId = Some [a; a; a] ->
       is_Some (findDie (dice player) a) ->
       exists die s,
         findDie (dice player) a = Some die
         /\ actions.buildSelection pending player = Ok s
         /\ rank (sel_hand s) = TRIPLE
         /\ primaryValue (sel_hand s) = value die.
Proof.
  intros Hacc. split.
  - unfold GameService.selectDice in *.
    destruct (gameActors srv !! room) as [actor|]; [|done].
    destruct (negb _); [done|].
    destruct (negb _); [done|].
    destruct (findPlayer _ playerId) as [player|]; [|done].
    cbn [length Nat.eqb negb DICE_PER_SELECTION] in *.
    match type of Hacc with
    | context [omap ?check [a; b; c]] =>
        assert (check a = None) as Ha;
        [pose proof (omap_nil_iff check [a; b; c]) as [Hnil _];
         destruct (omap check [a; b; c]);
         [specialize (Hnil eq_refl); by apply Forall_cons in Hnil as [? _]
         |by destruct Hacc]
        |]
    end.
    cbn [omap list_omap]. rewrite Ha. clear Hacc.
    destruct (GameService.actorSend O room actor _ srv) as [actor' srv'].
    by eexists.
  - intros pending player <- Hpend [die Hdie]. exists die.
    unfold actions.buildSelection. rewrite Hpend.
    cbn [default from_option id omap list_omap]. rewrite Hdie.
    unfold evaluateHand. cbn [length Nat.eqb negb map].
    set (values := js_sort _ _).
    assert (values = [value die; value die; value die]) as ->.
    { apply js_sort_Z_unique; [done|].
      repeat constructor; lia. }
    cbn [nth]. rewrite Z.eqb_refl. cbn. by eexists.
Qed.

Lemma repeated_die_is_a_triple_witness :
  exists g,
    fst (GameService.selectDice exampleOracle "ABCDEF" "host"
           (Some ["die-0"; "die-0"; "die-0"]) exampleSelectionServer) = Ok g.
Proof.
  apply (repeated_die_is_a_triple exampleOracle "ABCDEF" "host"
           "die-0" "die-1" "die-2" exampleSelectionServer).
  destruct (fst (GameService.selectDice exampleOracle "ABCDEF" "host"
                   (Some ["die-0"; "die-1"; "die-2"])
                   exampleSelectionServer))
    as [g|err] eqn:E; [by exists g|].
  vm_compute in E. discriminate.
Defined.

(** * The room registry *)

(** ** One host per room *)

Lemma list_split_at {A} (l : list A) (i : nat) (x : A) :
  l !! i = Some x ->
  l = take i l ++ x :: drop (S i) l
  /\ delete i l = take i l ++ drop (S i) l
  /\ forall f : A -> A, alter f i l = take i l ++ f x :: drop (S i) l.
Proof.
  intros H. split; [by rewrite take_drop_middle|].
  split; [apply delete_take_drop|].
  intros f. revert i H. induction l as [|y l IH]; intros [|i] H;
    simplify_eq/=; [done|].
  f_equal. by apply IH.
Qed.

Lemma list_alter_none {A} (f : A -> A) (l : list A) (i : nat) :
  l !! i = None -> alter f i l = l.
Proof.
  revert i. induction l as [|y l IH]; intros [|i] H; simplify_eq/=;
    try done.
  f_equal. by apply IH.
Qed.

Lemma hosts_alter (f : Player -> Player) (ps : list Player) (i : nat)
    (p : Player) :
  (forall q, isHost (f q) = isHost q /\ player_id (f q) = player_id q) ->
  filter (fun q => isHost q = true) ps = [p] ->
  exists p',
    filter (fun q => isHost q = true) (alter f i ps) = [p']
    /\ player_id p' = player_id p.
Proof.
  intros Hf Hp. destruct (ps !! i) as [x|] eqn:Hx.
  - destruct (list_split_at ps i x Hx) as (Hsplit & _ & Halter).
    rewrite Halter. rewrite Hsplit in Hp.
    rewrite filter_app, filter_cons in Hp |- *.
    destruct (Hf x) as [Hh Hid].
    destruct (decide (isHost x = true)) as [Hhost|Hhost];
      destruct (decide (isHost (f x) = true)) as [Hhost'|Hhost'];
      try congruence; [|by exists p].
    destruct (filter _ (take i ps)) as [|a l1]; cbn in *.
    + injection Hp as <- Hp. rewrite Hp. by exists (f x).
    + injection Hp as <- Hp. by destruct l1.
  - exists p. by rewrite list_alter_none.
Qed.

Lemma hostOK_alter (f : Player -> Player) (g : GameState) (i : nat) :
  (forall q, isHost (f q) = isHost q /\ player_id (f q) = player_id q) ->
  hostOK g -> hostOK (withPlayers (alter f i (players g)) g).
Proof.
  intros Hf (p & Hp & Hid).
  destruct (hosts_alter f (players g) i p Hf Hp) as (p' & Hp' & Hid').
  exists p'. split; [done|]. cbn. congruence.
Qed.

Lemma hostOK_leave (g : GameState) (i : nat) (x : Player) :
  hostOK g -> players g !! i = Some x ->
  delete i (players g) <> [] ->
  hostOK
    (if isHost x && (0 <? length (delete i (players g)))%nat then
       withHostId
         (default ""
            (player_id
               <$> head (alter (withIsHost true) 0%nat
                           (delete i (players g)))))
         (withPlayers
            (alter (withIsHost true) 0%nat (delete i (players g))) g)
     else withPlayers (delete i (players g)) g).
Proof.
  intros (p & Hp & Hid) Hx Hne.
  destruct (list_split_at (players g) i x Hx) as (Hsplit & Hdel & _).
  rewrite Hsplit, filter_app, filter_cons in Hp.
  destruct (delete i (players g)) as [|r0 rs] eqn:Hrem; [done|].
  cbn [length Nat.ltb Nat.leb andb].
  rewrite andb_true_r.
  destruct (decide (isHost x = true)) as [Hhost|Hhost].
  - rewrite Hhost.
    assert (filter (fun q => isHost q = true) (r0 :: rs) = []) as Hnone.
    { rewrite Hdel, filter_app.
      destruct (filter _ (take i (players g))) as [|a l1]; cbn in *.
      - by injection Hp as _ ->.
      - injection Hp as _ Hp. by destruct l1. }
    exists (withIsHost true r0). cbn. split; [|done].
    rewrite decide_True by done. rewrite filter_cons in Hnone.
    destruct (decide (isHost r0 = true)); [done|]. f_equal. exact Hnone.
  - apply not_true_is_false in Hhost. rewrite Hhost.
    exists p. gs_simpl. split; [|done].
    rewrite Hdel, filter_app.
    destruct (decide (isHost x = true)); [congruence|done].
Qed.

Lemma findPlayerIndex_Some (ps : list Player) (playerId : string) (i : nat) :
  findPlayerIndex ps playerId = Some i ->
  exists p, ps !! i = Some p /\ player_id p = playerId.
Proof.
  unfold findPlayerIndex. intros H.
  destruct (list_find _ ps) as [[j p]|] eqn:E; [|done].
  injection H as ->. apply list_find_Some in E as (Hp & Hid & _).
  by exists p.
Qed.

Lemma hostOK_join (g : GameState) (p : Player) :
  isHost p = false -> hostOK g -> hostOK (withPlayers (players g ++ [p]) g).
Proof.
  intros Hp (h & Hh & Hid). exists h. gs_simpl. split; [|done].
  rewrite filter_app, Hh, filter_cons, filter_nil.
  destruct (decide (isHost p = true)); [congruence|done].
Qed.

(** Every operation of the room registry leaves each stored room with
    exactly one player flagged as host, whose id is the room's hostId:
    joining, leaving (when the host leaves, the first of the remaining
    players becomes the host; when the last player leaves, the room is
    removed), changing the configuration or a ready flag, marking a player
    disconnected or reconnected, and starting the game.  A new host id
    reported by leaveRoom is the hostId of the state it returns. *)
Theorem rooms_keep_one_host (toLowerCase : string -> string) (O : Oracle)
    (now : Z) (store : gmap string GameState)
    (tokens : gmap string ReconnectToken) (e : Entropy)
    (room socket playerName playerId : string)
    (partial : PartialGameConfig) (ready : bool) :
  roomsOK store ->
  roomsOK (RoomService.joinRoom toLowerCase O now store tokens e room socket
             playerName).1.1.2
  /\ roomsOK (RoomService.leaveRoom store room playerId).2
  /\ (forall h,
        leave_newHostId (RoomService.leaveRoom store room playerId).1
        = Some h ->
        exists g p ps,
          leave_gameState (RoomService.leaveRoom store room playerId).1
          = Some g
          /\ hostId g = h
          /\ players g = p :: ps
          /\ player_id p = h
          /\ isHost p = true
          /\ (RoomService.leaveRoom store room playerId).2 !! gameKey room
             = Some g)
  /\ (leave_roomDeleted (RoomService.leaveRoom store room playerId).1
      = true ->
      (RoomService.leaveRoom store room playerId).2 !! gameKey room = None
      /\ exists g p,
           store !! gameKey room = Some g
           /\ players g = [p]
           /\ player_id p = playerId)
  /\ roomsOK (RoomService.updateConfig store room playerId partial).2
  /\ roomsOK (RoomService.setPlayerReady store room playerId ready).2
  /\ roomsOK (RoomService.markPlayerDisconnected store room playerId).2
  /\ roomsOK (RoomService.markPlayerReconnected store room playerId socket).2
  /\ roomsOK (RoomService.startGame store room playerId).2.
Proof.
  intros Hok.
  assert (Hroom : forall g, store !! gameKey room = Some g -> hostOK g).
  { intros g Hg. by apply (Hok (gameKey room)). }
  repeat apply conj.
  - unfold RoomService.joinRoom.
    destruct (store !! gameKey room) as [g|] eqn:Hg; [|done].
    destruct (negb _); [done|]. destruct (_ <=? _); [done|].
    destruct (existsb _ _); [done|]. cbn.
    apply map_Forall_insert_2; [|done]. apply hostOK_join; [done|auto].
  - unfold RoomService.leaveRoom.
    destruct (store !! gameKey room) as [g|] eqn:Hg; [|done].
    destruct (findPlayerIndex _ _) as [i|] eqn:Hi; [|done].
    destruct (findPlayerIndex_Some _ _ _ Hi) as (x & Hx & _).
    destruct (Nat.eqb_spec (length (delete i (players g))) 0) as [H0|H0].
    { cbn. by apply map_Forall_delete. }
    cbn [snd]. apply map_Forall_insert_2; [|done].
    rewrite Hx. cbn [fmap option_fmap option_map default from_option id].
    apply hostOK_leave; [auto|done|]. by destruct (delete i (players g)).
  - intros h. unfold RoomService.leaveRoom.
    destruct (store !! gameKey room) as [g|] eqn:Hg; [|done].
    destruct (findPlayerIndex _ _) as [i|] eqn:Hi; [|done].
    destruct (length (delete i (players g)) =? 0)%nat; [done|].
    cbn [fst snd leave_newHostId leave_gameState].
    destruct (_ && (0 <? length (delete i (players g)))%nat) eqn:Hand;
      [|done].
    apply andb_true_iff in Hand as [_ Hlen%Nat.ltb_lt].
    destruct (delete i (players g)) as [|r0 rs]; [cbn in Hlen; lia|].
    intros [= <-]. eexists. exists (withIsHost true r0), rs.
    split; [done|]. split; [done|]. split; [done|]. split; [done|].
    split; [done|]. by rewrite lookup_insert_eq.
  - unfold RoomService.leaveRoom.
    destruct (store !! gameKey room) as [g|] eqn:Hg; [|done].
    destruct (findPlayerIndex _ _) as [i|] eqn:Hi; [|done].
    destruct (findPlayerIndex_Some _ _ _ Hi) as (x & Hx & Hid).
    destruct (Nat.eqb_spec (length (delete i (players g))) 0) as [H0|H0];
      [|done].
    intros _. cbn [snd]. split; [by rewrite lookup_delete_eq|].
    exists g, x. split; [done|]. split; [|done].
    destruct (list_split_at (players g) i x Hx) as (Hsplit & Hdel & _).
    rewrite Hdel in H0. rewrite length_app in H0.
    destruct (take i (players g)); [|cbn in H0; lia].
    destruct (drop (S i) (players g)); [|cbn in H0; lia].
    by rewrite Hsplit.
  - unfold RoomService.updateConfig.
    destruct (store !! gameKey room) as [g|] eqn:Hg; [|done].
    destruct (negb _); [done|]. destruct (negb _); [done|].
    cbn. apply map_Forall_insert_2; [|done].
    destruct (Hroom g eq_refl) as (p & Hp & Hid). by exists p.
  - unfold RoomService.setPlayerReady.
    destruct (store !! gameKey room) as [g|] eqn:Hg; [|done].
    destruct (findPlayerIndex _ _) as [i|]; [|done].
    destruct (negb _); [done|].
    cbn. apply map_Forall_insert_2; [|done].
    apply hostOK_alter; [done|auto].
  - unfold RoomService.markPlayerDisconnected.
    destruct (store !! gameKey room) as [g|] eqn:Hg; [|done].
    destruct (findPlayerIndex _ _) as [i|]; [|done].
    cbn. apply map_Forall_insert_2; [|done].
    apply hostOK_alter; [done|auto].
  - unfold RoomService.markPlayerReconnected.
    destruct (store !! gameKey room) as [g|] eqn:Hg; [|done].
    destruct (findPlayerIndex _ _) as [i|]; [|done].
    cbn. apply map_Forall_insert_2; [|done].
    apply hostOK_alter; [done|auto].
  - unfold RoomService.startGame.
    destruct (store !! gameKey room) as [g|] eqn:Hg; [|done].
    destruct (negb (bool_decide _)); [done|]. cbv zeta.
    destruct (negb (canStart _)); [done|].
    cbn [snd]. apply map_Forall_insert_2; [|done].
    destruct (Hroom g eq_refl) as (p & Hp & Hid). by exists p.
Qed.

Lemma rooms_keep_one_host_witness :
  roomsOK
    (RoomService.leaveRoom {[ gameKey "ABCDEF" := exampleLobby ]}
       "ABCDEF" "host").2
  /\ leave_newHostId
       (RoomService.leaveRoom {[ gameKey "ABCDEF" := exampleLobby ]}
          "ABCDEF" "host").1 = Some "guest".
Proof.
  split; [|by vm_compute].
  apply (rooms_keep_one_host id exampleOracle 0
           {[ gameKey "ABCDEF" := exampleLobby ]} ∅ (mkEntropy 0 0)
           "ABCDEF" "s" "n" "host" (mkPartialConfig None None None) true).
  apply map_Forall_singleton. exists exampleHost. by vm_compute.
Defined.

(** ** Joining a room *)

(** A join that succeeds puts a new player, with a fresh id, no dice, no
    score and no host or ready flag, behind the players already there and
    stores a reconnect token for them; the room then holds at most
    maxPlayers players, and if no two names were equal up to case before,
    none are after.  A join that is turned down changes neither the stored
    rooms nor the tokens and uses up no id. *)
Theorem joinRoom_spec (toLowerCase : string -> string) (O : Oracle)
    (now : Z) (store : gmap string GameState)
    (tokens : gmap string ReconnectToken) (e : Entropy)
    (room socket playerName : string) :
  let r := RoomService.joinRoom toLowerCase O now store tokens e room socket
             playerName in
  (forall res,
     r.1.1.1 = Ok res ->
     exists g,
       store !! gameKey room = Some g
       /\ phase g = LOBBY
       /\ join_newPlayer res
          = mkPlayer (uuidOf O (uuidCalls e)) playerName socket [] 0 0 0 0
              None true false false
       /\ join_playerId res = uuidOf O (uuidCalls e)
       /\ join_reconnectToken res = uuidOf O (S (uuidCalls e))
       /\ join_gameState res
          = withPlayers (players g ++ [join_newPlayer res]) g
       /\ r.1.1.2 = <[gameKey room := join_gameState res]> store
       /\ r.1.2 !! reconnectKey (join_reconnectToken res)
          = Some (mkReconnectToken (join_reconnectToken res)
                    (join_playerId res) room (now + 86400000))
       /\ Z.of_nat (length (players (join_gameState res)))
          <= maxPlayers (config (join_gameState res))
       /\ (NoDup (map (fun p => toLowerCase (name p)) (players g)) ->
           NoDup (map (fun p => toLowerCase (name p))
                    (players (join_gameState res)))))
  /\ (forall err,
        r.1.1.1 = Throw err ->
        r.1.1.2 = store /\ r.1.2 = tokens /\ r.2 = e
        /\ exists code message, err = RoomError code message).
Proof.
  intros r. subst r. unfold RoomService.joinRoom.
  destruct (store !! gameKey room) as [g|] eqn:Hg.
  2:{ split; [done|]. intros err [= <-]. eauto 10. }
  destruct (bool_decide_reflect (phase g = LOBBY)) as [Hph|Hph]; cbn [negb].
  2:{ split; [done|]. intros err [= <-]. eauto 10. }
  destruct (Z.leb_spec (maxPlayers (config g))
              (Z.of_nat (length (players g)))) as [Hfull|Hroom].
  { split; [done|]. intros err [= <-]. eauto 10. }
  destruct (existsb _ (players g)) eqn:Hname.
  { split; [done|]. intros err [= <-]. eauto 10. }
  cbn. split; [|done]. intros res [= <-]. exists g. cbn.
  repeat (split; [done|]). split; [by rewrite lookup_insert_eq|].
  split.
  - rewrite length_app. cbn. lia.
  - intros Hnd. rewrite map_app. cbn. apply NoDup_app.
    split; [done|]. split; [|apply NoDup_singleton].
    intros x Hx ->%list_elem_of_singleton.
    apply list_elem_of_fmap in Hx as (p & Hp & Hin).
    assert (existsb
              (fun p => bool_decide
                          (toLowerCase (name p) = toLowerCase playerName))
              (players g) = true); [|congruence].
    apply existsb_exists. exists p. split; [by apply list_elem_of_In|].
    by apply bool_decide_eq_true.
Qed.

(** * What the clients are told at the end *)

(** On the change to GAME_OVER the room is sent the phase change and then
    the final standings: every player once, with id, name and cumulative
    score, highest score first; players with equal scores stand in the
    order in which the game lists them. *)
Theorem game_over_standings (room : string) (g : GameState) (srv : Server) :
  let rows :=
    map (fun p => mkStanding (player_id p) (name p) (cumulativeScore p))
      (players g) in
  exists standings,
    outbox (GameGateway.handleGameStateChange room GAME_OVER g srv)
    = outbox srv ++ [(ToRoom room, game_phaseChange GAME_OVER g);
                     (ToRoom room, game_over standings)]
    /\ standings ≡ₚ rows
    /\ StronglySorted (fun a b => (score b <= score a)%Q) standings
    /\ forall q,
         filter (fun s => Qeq_bool (score s) q = true) standings
         = filter (fun s => Qeq_bool (score s) q = true) rows.
Proof.
  intros rows.
  exists (js_sort (fun a b => Num (score b - score a)) rows).
  assert (Hle : forall x y : Standing,
            sort_le (fun a b => Num (score b - score a)) x y
            <-> (score y <= score x)%Q).
  { intros x y. unfold sort_le. rewrite sortSign_Num_le. split; lra. }
  split.
  { unfold GameGateway.handleGameStateChange, emit. cbn [outbox].
    by rewrite <- app_assoc. }
  split; [apply js_sort_perm|]. split.
  - eapply StronglySorted_mono; [intros x y _ _; apply Hle|].
    eapply (js_sort_sorted _ (fun _ => True)).
    + intros a b c _ _ _. rewrite !Hle. lra.
    + intros a b _ _. rewrite !Hle. lra.
    + by apply Forall_forall.
  - intros q. apply js_sort_filter.
    intros x y _ _ Hgt Hx Hy. cbn in Hgt.
    apply Qeq_bool_iff in Hx, Hy. rewrite <- Qgt_alt in Hgt. lra.
Qed.

(** * Dice used up by a set *)

Lemma filter_length_split {A} (P : A -> Prop) `{!forall x, Decision (P x)}
    (l : list A) :
  (length (filter P l) + length (filter (fun x => ~ P x) l) = length l)%nat.
Proof.
  induction l as [|x l IH]; [done|]. rewrite !filter_cons.
  destruct (decide (P x)), (decide (~ P x)); cbn; try done; lia.
Qed.

Lemma filter_length_ext {A} (P Q : A -> Prop) `{!forall x, Decision (P x)}
    `{!forall x, Decision (Q x)} (l : list A) :
  (forall x, x ∈ l -> P x <-> Q x) ->
  length (filter P l) = length (filter Q l).
Proof.
  induction l as [|x l IH]; intros Hall; [done|]. rewrite !filter_cons.
  assert (length (filter P l) = length (filter Q l)) as Hl.
  { apply IH. intros y Hy. apply Hall. by right. }
  pose proof (Hall x ltac:(by left)) as Hx.
  destruct (decide (P x)), (decide (Q x)); cbn; try tauto; by rewrite ?Hl.
Qed.

Lemma filter_length_fmap {A B} (f : A -> B) (P : B -> Prop)
    `{!forall x, Decision (P x)} (l : list A) :
  length (filter P (map f l)) = length (filter (fun x => P (f x)) l).
Proof.
  induction l as [|x l IH]; [done|]. cbn [map]. rewrite !filter_cons.
  destruct (decide (P (f x))); cbn; by rewrite IH.
Qed.

(** Choosing [k] different ids out of dice with different ids picks [k]
    dice. *)
Lemma chosen_length (ds : list Die) (sel : list string) :
  NoDup (map die_id ds) -> NoDup sel ->
  (forall dieId, dieId ∈ sel -> dieId ∈ map die_id ds) ->
  length (filter (fun d => die_id d ∈ sel) ds) = length sel.
Proof.
  intros Hds Hsel Hin.
  rewrite <- (length_map die_id (filter _ ds)).
  apply Permutation_length, NoDup_Permutation; [|done|].
  - apply (NoDup_fmap_2_strong die_id).
    + intros d1 d2 H1%list_elem_of_filter H2%list_elem_of_filter Heq.
      destruct H1 as [_ H1], H2 as [_ H2].
      apply list_elem_of_lookup in H1 as [i1 H1].
      apply list_elem_of_lookup in H2 as [i2 H2].
      assert (i1 = i2) as ->; [|congruence].
      eapply (NoDup_lookup (map die_id ds)); [done| |];
        rewrite list_lookup_fmap; [by rewrite H1|by rewrite H2, Heq].
    + apply NoDup_filter.
      clear -Hds. induction ds as [|d ds IH]; [constructor|].
      cbn in Hds. apply NoDup_cons in Hds as [Hd Hds].
      constructor; [|by apply IH].
      intros Hin. apply Hd. by apply list_elem_of_fmap_2.
  - intros dieId. rewrite list_elem_of_fmap. split.
    + intros (d & -> & Hd%list_elem_of_filter). by destruct Hd.
    + intros Hs. pose proof (Hin dieId Hs) as Hd.
      apply list_elem_of_fmap in Hd as (d & Heq & Hd). subst dieId.
      exists d. split; [done|]. by apply list_elem_of_filter.
Qed.

(** A set uses up exactly the dice selected.  After processSetSelection
    every player holds the same dice as before, with the same ids, colours
    and values; a die is spent afterwards exactly if it was spent before
    or its id is in the player's selection.  When the selection names
    three different unspent dice of a player whose dice have different
    ids, the player has three unspent dice fewer than before. *)
Theorem set_spends_selected_dice (c c' : GameMachineContext) (i : nat)
    (p p' : Player) :
  actions.processSetSelection c = Ok c' ->
  players (gameState c) !! i = Some p ->
  players (gameState c') !! i = Some p' ->
  let sel :=
    default [] (pendingSelections (gameState c) !! player_id p) in
  let unspent := fun d : Die => isSpent d = false in
  player_id p' = player_id p
  /\ Forall2 (fun d d' =>
                die_id d' = die_id d /\ color d' = color d
                /\ value d' = value d
                /\ isSpent d'
                   = isSpent d || bool_decide (die_id d ∈ sel))
       (dice p) (dice p')
  /\ (NoDup (map die_id (dice p)) -> NoDup sel -> length sel = 3%nat ->
      (forall dieId, dieId ∈ sel ->
         dieId ∈ map die_id (filter unspent (dice p))) ->
      (length (filter unspent (dice p')) + 3
       = length (filter unspent (dice p)))%nat).
Proof.
  intros Hproc Hp Hp' sel unspent.
  unfold actions.processSetSelection in Hproc.
  destruct (exn_mapM _ _) as [selections|err]; [|discriminate].
  cbn in Hproc. injection Hproc as <-. gs_simpl.
  rewrite list_lookup_fmap, Hp in Hp'. cbn in Hp'. injection Hp' as <-.
  unfold actions.creditPlayer. cbn [player_id dice]. fold sel.
  split; [done|]. split.
  { apply Forall2_fmap_r, Forall_Forall2_diag, Forall_forall.
    by intros d _. }
  intros Hnd Hsel Hlen Hin.
  rewrite filter_length_fmap. cbn [isSpent].
  rewrite (filter_length_ext _
             (fun d => ~ (die_id d ∈ sel) /\ unspent d) (dice p)).
  2:{ intros d _. unfold unspent.
      destruct (isSpent d), (bool_decide_reflect (die_id d ∈ sel));
        cbn; intuition congruence. }
  rewrite <- (list_filter_filter _ unspent).
  pose proof (filter_length_split (fun d => die_id d ∈ sel)
                (filter unspent (dice p))) as Hsplit.
  rewrite (chosen_length (filter unspent (dice p)) sel) in Hsplit; [lia| |done|done].
  clear -Hnd. induction (dice p) as [|d ds IH]; [constructor|].
  cbn in Hnd. apply NoDup_cons in Hnd as [Hd Hnd].
  rewrite filter_cons. destruct (decide (unspent d)); [|by apply IH].
  cbn. constructor; [|by apply IH].
  intros (d' & Heq & Hd')%list_elem_of_fmap. apply Hd.
  apply list_elem_of_filter in Hd' as [_ Hd'].
  rewrite Heq. by apply list_elem_of_fmap_2.
Qed.

Lemma set_spends_selected_dice_witness :
  let c := exampleConfirmedContext in
  let c' :=
    match actions.processSetSelection c with
    | Ok c' => c'
    | Throw _ => c
    end in
  let p := default exampleHost (players (gameState c) !! 0%nat) in
  let p' := default exampleHost (players (gameState c') !! 0%nat) in
  (length (filter (fun d => isSpent d = false) (dice p')) + 3
   = length (filter (fun d => isSpent d = false) (dice p)))%nat.
Proof.
  intros c c' p p'.
  assert (Hproc : actions.processSetSelection c = Ok c')
    by (vm_compute; reflexivity).
  assert (Hp : players (gameState c) !! 0%nat = Some p)
    by (vm_compute; reflexivity).
  assert (Hp' : players (gameState c') !! 0%nat = Some p')
    by (vm_compute; reflexivity).
  apply (set_spends_selected_dice c c' 0 p p' Hproc Hp Hp').
  - apply (bool_decide_unpack _). vm_compute. exact I.
  - apply (bool_decide_unpack _). vm_compute. exact I.
  - vm_compute. reflexivity.
  - apply Forall_forall. apply (bool_decide_unpack _). vm_compute. exact I.
Defined.
